(** * LSB steganography with low-contrast region selection

    A shallow embedding of [src/steg.c] (with the [BmpImage] record of
    [include/bmp.h]), of the loader and writer of [src/bmp.c] and of the
    command line of [src/main.c], and the properties of the selection,
    embedding and extraction routines, of the file format and of complete
    runs.

    Conventions of the embedding.
    - C integers are [Z].  [size_t] is 64 bits wide and its arithmetic wraps
      ([size_t]); [int]/[int32_t] arithmetic that can overflow is checked
      ([int_of]), an overflow being undefined behaviour.
    - [double] is IEEE-754 binary64, evaluated without excess precision or
      contraction: Rocq's primitive [float].
    - A computation returns [option]: [None] stands for undefined behaviour
      (an access outside a buffer, a read of an uninitialised cell, a signed
      overflow, a failed [assert]).  The C return code is an ordinary [Z].
    - [malloc]/[realloc] may fail.  The calls of one run are numbered; the
      oracle [alloc_ok] says which of them succeed, and every routine threads
      the number of the next request.
    - The pixel buffer [img->data] is a list of bytes ([None] for a NULL
      pointer); a routine that mutates it returns the new image. *)

From Stdlib Require Import ZArith Lia Bool.
From Stdlib Require Import PrimFloat Uint63.
From stdpp Require Import list strings gmap.

Local Set Warnings "-inexact-float".
Local Open Scope Z_scope.

(** ** Machine integers *)

Definition INT_MAX : Z := 2147483647.
Definition INT_MIN : Z := -2147483648.

(** Conversion to [size_t], and the wrap-around of [size_t] arithmetic. *)
Definition size_t (z : Z) : Z := z mod 2 ^ 64.

(** Conversions to [uint8_t]/[unsigned char] and to [uint32_t]. *)
Definition u8 (z : Z) : Z := z mod 2 ^ 8.
Definition u32 (z : Z) : Z := z mod 2 ^ 32.

(** The result of a signed [int] operation: undefined on overflow. *)
Definition int_of (z : Z) : option Z :=
  if (INT_MIN <=? z) && (z <=? INT_MAX) then Some z else None.

(** [(double)n] for an integer [n]. *)
Definition to_double (n : Z) : float := of_uint63 (Uint63.of_Z n).

(** ** Loops *)

(** [for (x in l) s = body x s;] where the body may be undefined. *)
Fixpoint for_each {A S : Type} (body : A → S → option S) (l : list A) (s : S)
  : option S :=
  match l with
  | [] => Some s
  | x :: l' =>
      match body x s with
      | Some s' => for_each body l' s'
      | None => None
      end
  end.

(** [for (x in l; cond(s); ) s = body x s;]: the loop also stops as soon as
    the condition on the state fails. *)
Fixpoint for_while {A S : Type} (cond : S → bool) (body : A → S → option S)
    (l : list A) (s : S) : option S :=
  match l with
  | [] => Some s
  | x :: l' =>
      if cond s then
        match body x s with
        | Some s' => for_while cond body l' s'
        | None => None
        end
      else Some s
  end.

(** The body of a loop either reaches its end with a new state or leaves the
    function with [return]. *)
Inductive flow (S R : Type) : Type :=
| Cont (s : S)
| Ret (r : R).
Arguments Cont {S R} s.
Arguments Ret {S R} r.

Fixpoint for_loop {A S R : Type} (body : A → S → option (flow S R))
    (l : list A) (s : S) : option (flow S R) :=
  match l with
  | [] => Some (Cont s)
  | x :: l' =>
      match body x s with
      | Some (Cont s') => for_loop body l' s'
      | r => r
      end
  end.

(** ** Images *)

Record BmpImage : Type := mkBmpImage {
  header : list Z;
  width : Z;
  height : Z;
  stride : Z;
  size : Z;
  data : option (list Z)
}.

Definition set_data (img : BmpImage) (d : list Z) : BmpImage :=
  {| header := header img; width := width img; height := height img;
     stride := stride img; size := size img; data := Some d |}.

(** [img->height > 0 ? img->height : -img->height] *)
Definition abs_height_of (img : BmpImage) : option Z :=
  if 0 <? height img then Some (height img) else int_of (- height img).

(** ** Luminance *)

Definition compute_luminance (r g b : Z) : float :=
  (0.299 * to_double r + 0.587 * to_double g + 0.114 * to_double b)%float.

(** The luminance of the pixel whose three bytes start at [offset]. *)
Definition pixel_luminance (d : list Z) (offset : Z) : option float :=
  b ← d !! Z.to_nat (size_t (offset + 0));
  g ← d !! Z.to_nat (size_t (offset + 1));
  r ← d !! Z.to_nat (size_t (offset + 2));
  let b_hi := u8 (Z.land b 254) in
  let g_hi := u8 (Z.land g 254) in
  let r_hi := u8 (Z.land r 254) in
  Some (compute_luminance r_hi g_hi b_hi).

(** A freshly allocated array of [bytes / elt] cells; its cells are
    uninitialised ([None]). *)
Definition new_array {A : Type} (bytes elt : Z) : list (option A) :=
  replicate (Z.to_nat (bytes / elt)) None.

(** [a[i] = v] *)
Definition store {A : Type} (a : list (option A)) (i : Z) (v : A)
  : option (list (option A)) :=
  if (0 <=? i) && (i <? Z.of_nat (length a))
  then Some (<[Z.to_nat i := Some v]> a) else None.

(** [a[i]] *)
Definition load {A : Type} (a : list (option A)) (i : Z) : option A :=
  if 0 <=? i then mjoin (a !! Z.to_nat i) else None.

(** Lines 48-62: the luminance of pixel [(row, col)], stored at its index. *)
Definition luminance_cell (img : BmpImage) (d : list Z) (row col : Z)
    (lum : list (option float)) : option (list (option float)) :=
  let pixel_index := size_t (size_t row * size_t (width img) + size_t col) in
  let offset := size_t (size_t row * size_t (stride img) + size_t col * 3) in
  v ← pixel_luminance d offset;
  store lum pixel_index v.

Section Steg.

(** [alloc_ok n]: the [n]-th allocation request of the run is granted. *)
Variable alloc_ok : nat → bool.

Definition compute_luminance_map (img : BmpImage) (n : nat)
  : option (Z * list (option float) * nat) :=
  match data img with
  | None => Some (1, [], n)
  | Some d =>
      if (width img <=? 0) || (height img =? 0) then Some (1, [], n) else
      let width := width img in
      abs_height ← abs_height_of img;
      let count := size_t (size_t width * size_t abs_height) in
      if negb (alloc_ok n) then Some (1, [], S n) else
      lum ← for_each (λ row lum,
               for_each (λ col lum, luminance_cell img d row col lum)
                 (seqZ 0 width) lum)
             (seqZ 0 abs_height) (new_array (size_t (count * 8)) 8);
      Some (0, lum, S n)
  end.

(** ** Selection of low-contrast positions *)

(** The cells of the block whose top-left corner is [(br, bc)], as the
    nested loops over [r] and [c] visit them. *)
Definition block_cells (block_size br bc : Z) : list (Z * Z) :=
  r ← seqZ 0 block_size; (λ c, (br + r, bc + c)) <$> seqZ 0 block_size.

(** Lines 127-129: [sum += lum[idx]; ++n;] for the pixel [(row, col)]. *)
Definition sum_cell (lum : list (option float)) (width row col : Z)
    (acc : float * Z) : option (float * Z) :=
  let idx := size_t (size_t row * size_t width + size_t col) in
  v ← load lum idx;
  n' ← int_of (snd acc + 1);
  Some ((fst acc + v)%float, n').

(** Lines 121-131: the sum of the block's luminances and the count [n]. *)
Definition block_sum (lum : list (option float)) (width block_size br bc : Z)
  : option (float * Z) :=
  for_each (λ r acc,
      for_each (λ c acc, sum_cell lum width (br + r) (bc + c) acc)
        (seqZ 0 block_size) acc)
    (seqZ 0 block_size) (0%float, 0).

(** Lines 145-147: [d = lum[idx] - mean; sq_sum += d * d;]. *)
Definition sq_cell (lum : list (option float)) (width : Z) (mean : float)
    (row col : Z) (sq_sum : float) : option float :=
  let idx := size_t (size_t row * size_t width + size_t col) in
  v ← load lum idx;
  let d := (v - mean)%float in
  Some (sq_sum + d * d)%float.

(** Lines 140-149: the sum of the squared deviations from [mean]. *)
Definition block_sq_sum (lum : list (option float)) (width block_size br bc : Z)
    (mean : float) : option float :=
  for_each (λ r sq_sum,
      for_each (λ c sq_sum, sq_cell lum width mean (br + r) (bc + c) sq_sum)
        (seqZ 0 block_size) sq_sum)
    (seqZ 0 block_size) 0%float.

(** The growing array of positions: the initialised prefix, the number of
    allocated cells, and the number of the next allocation request. *)
Definition pos_state : Type := list Z * Z * nat.

(** A [return rc;] inside the loops, with the number of the next request. *)
Definition pos_flow : Type := flow pos_state (Z * nat).

(** Lines 176-177: [positions[count].pixel_index = pixel_index; ++count;]
    in an array of [capacity * sizeof(EmbedPosition)] bytes. *)
Definition write_position (pixel_index : Z) (st : pos_state) : option pos_flow :=
  let '(positions, capacity, n) := st in
  let count := size_t (Z.of_nat (length positions)) in
  if count <? size_t (capacity * 4) / 4
  then Some (Cont (positions ++ [pixel_index], capacity, n))
  else None.

(** Lines 162-177: append one pixel index, growing the array when full. *)
Definition push_position (pixel_index : Z) (st : pos_state) : option pos_flow :=
  let '(positions, capacity, n) := st in
  let count := size_t (Z.of_nat (length positions)) in
  if count =? capacity then
    let new_cap := if capacity =? 0 then 128 else size_t (capacity * 2) in
    if alloc_ok n
    then write_position pixel_index (positions, new_cap, S n)
    else Some (Ret (1, S n))
  else write_position pixel_index st.

(** Lines 160-177: compute the index of pixel [(row, col)] and append it. *)
Definition push_cell (width row col : Z) (st : pos_state) : option pos_flow :=
  match int_of (row * width) ≫= (λ m, int_of (m + col)) with
  | Some pixel_index => push_position pixel_index st
  | None => None
  end.

(** Lines 156-179: record all the pixels of a low-contrast block. *)
Definition push_block (width block_size br bc : Z) (st : pos_state)
  : option pos_flow :=
  for_loop (λ r st,
      for_loop (λ c st, push_cell width (br + r) (bc + c) st)
        (seqZ 0 block_size) st)
    (seqZ 0 block_size) st.

(** Lines 120-180: the body of the loop over block corners. *)
Definition scan_block (lum : list (option float)) (width block_size : Z)
    (contrast_threshold : float) (br bc : Z) (st : pos_state)
  : option pos_flow :=
  match block_sum lum width block_size br bc with
  | None => None
  | Some (sum, n) =>
      if n =? 0 then Some (Cont st) else
      let mean := (sum / to_double n)%float in
      match block_sq_sum lum width block_size br bc mean with
      | None => None
      | Some sq_sum =>
          let variance := (sq_sum / to_double n)%float in
          let stddev := PrimFloat.sqrt variance in
          if (stddev <? contrast_threshold)%float
          then push_block width block_size br bc st
          else Some (Cont st)
      end
  end.

Definition find_low_contrast_positions (img : BmpImage) (block_size : Z)
    (contrast_threshold : float) (n : nat) : option (Z * list Z * nat) :=
  match data img with
  | None => Some (1, [], n)
  | Some _ =>
      if block_size <=? 0 then Some (1, [], n) else
      let width := width img in
      abs_height ← abs_height_of img;
      if (width <=? 0) || (abs_height <=? 0) then Some (1, [], n) else
      '(rc, lum, n) ← compute_luminance_map img n;
      if negb (rc =? 0) then Some (1, [], n) else
      let max_row := abs_height - block_size + 1 in
      let max_col := width - block_size + 1 in
      if (max_row <? 0) || (max_col <? 0) then Some (0, [], n) else
      r ← for_loop (λ br st,
             for_loop (λ bc st,
                 scan_block lum width block_size contrast_threshold br bc st)
               (seqZ 0 max_col) st)
           (seqZ 0 max_row) ([], 0, n);
      match r with
      | Ret (rc, n') => Some (rc, [], n')
      | Cont (positions, _, n') => Some (0, positions, n')
      end
  end.

(** ** Embedding and extraction *)

(** [row * stride + col * 3] for the pixel [pixel_index], in [size_t]. *)
Definition pixel_base (img : BmpImage) (pixel_index : Z) : option Z :=
  if pixel_index <? 0 then None else
  if width img =? 0 then None else
  let row := Z.quot pixel_index (width img) in
  let col := Z.rem pixel_index (width img) in
  Some (size_t (size_t row * size_t (stride img) + size_t col * 3)).

(** The order of the channels of one pixel: R, G, B, at 2, 1, 0. *)
Definition channels : list Z := [2; 1; 0].

(** [bit_index < total_bits], the second condition of the loops over the
    positions and over the channels. *)
Definition bits_left (total_bits : Z) (st : Z * list Z) : bool :=
  fst st <? total_bits.

(** The index in the buffer of channel [channel] of the pixel at [base]. *)
Definition channel_index (base channel : Z) : nat :=
  Z.to_nat (size_t (base + size_t channel)).

(** Lines 220-228: write one bit into the lowest bit of a channel byte. *)
Definition embed_channel (bitstream : list Z) (base channel : Z)
    (st : Z * list Z) : option (Z * list Z) :=
  let '(bit_index, d) := st in
  let offset := channel_index base channel in
  value ← d !! offset;
  bit ← bitstream !! Z.to_nat bit_index;
  let value := Z.land value 254 in
  let value := Z.lor value (u8 (Z.land bit 1)) in
  Some (bit_index + 1, <[offset := u8 value]> d).

Definition embed_bits (img : BmpImage) (positions bitstream : list Z)
    (total_bits : Z) : option (Z * BmpImage) :=
  d ← data img;
  '(bit_index, d') ←
    for_while (bits_left total_bits)
      (λ pixel_index st,
         base ← pixel_base img pixel_index;
         for_while (bits_left total_bits)
           (embed_channel bitstream base) channels st)
      positions (0, d);
  if bit_index =? total_bits then Some (0, set_data img d') else None.

(** Lines 264-268: read the lowest bit of a channel byte. *)
Definition extract_channel (d : list Z) (base channel : Z)
    (st : Z * list Z) : option (Z * list Z) :=
  let '(bit_index, bitstream) := st in
  let offset := channel_index base channel in
  value ← d !! offset;
  let bit := u8 (Z.land value 1) in
  Some (bit_index + 1, bitstream ++ [bit]).

Definition extract_bits (img : BmpImage) (positions : list Z) (total_bits : Z)
  : option (Z * list Z) :=
  d ← data img;
  '(bit_index, bitstream) ←
    for_while (bits_left total_bits)
      (λ pixel_index st,
         base ← pixel_base img pixel_index;
         for_while (bits_left total_bits)
           (extract_channel d base) channels st)
      positions (0, []);
  if bit_index <? total_bits then Some (1, bitstream) else Some (0, bitstream).

(** ** Bit packing *)

Definition bit_positions : list Z := [7; 6; 5; 4; 3; 2; 1; 0].

(** The eight bits of a byte, most significant first. *)
Definition byte_bits (b : Z) : list Z :=
  (λ bit_pos, u8 (Z.land (Z.shiftr b bit_pos) 1)) <$> bit_positions.

(** Lines 330-335: the length as a 32-bit unsigned integer, in four bytes,
    least significant first. *)
Definition length_header (message_len : Z) : list Z :=
  let len32 := u32 message_len in
  [ u8 (Z.land len32 255);
    u8 (Z.land (Z.shiftr len32 8) 255);
    u8 (Z.land (Z.shiftr len32 16) 255);
    u8 (Z.land (Z.shiftr len32 24) 255) ].

(** Reassemble the byte whose bits start at [bit_index]. *)
Definition read_byte (bits : list Z) (bit_index : Z) : option (Z * Z) :=
  for_each (λ bit_pos '(b, bit_index),
      bit ← bits !! Z.to_nat bit_index;
      Some (Z.lor b (u8 (Z.shiftl bit bit_pos)), bit_index + 1))
    bit_positions (0, bit_index).

(** Reassemble [count] bytes from the bits starting at [bit_index]. *)
Definition read_bytes (bits : list Z) (count bit_index : Z)
  : option (list Z * Z) :=
  for_each (λ _ '(bytes, bit_index),
      '(b, bit_index') ← read_byte bits bit_index;
      Some (bytes ++ [b], bit_index'))
    (seqZ 0 count) ([], bit_index).

(** ** The encode and decode protocols *)

Definition steg_encode_message (img : BmpImage) (message : option (list Z))
    (message_len : Z) (block_size : Z) (contrast_threshold : float) (n : nat)
  : option (Z * BmpImage * nat) :=
  match data img with
  | None => Some (1, img, n)
  | Some _ =>
      if bool_decide (message = None) && (0 <? message_len)
      then Some (1, img, n) else
      '(rc, positions, n) ←
        find_low_contrast_positions img block_size contrast_threshold n;
      if negb (rc =? 0) then Some (1, img, n) else
      let positions_count := size_t (Z.of_nat (length positions)) in
      let capacity_bits := size_t (positions_count * 3) in
      let required_bits := size_t (size_t (4 + message_len) * 8) in
      if capacity_bits <? required_bits then Some (-1, img, n) else
      let total_bytes := size_t (4 + message_len) in
      let total_bits := size_t (total_bytes * 8) in
      if negb (alloc_ok n) then Some (1, img, S n) else
      let header := length_header message_len in
      let header_bits := header ≫= byte_bits in
      bitstream ← for_each (λ i bitstream,
                     b ← message ≫= (λ m, m !! Z.to_nat i);
                     Some (bitstream ++ byte_bits b))
                   (seqZ 0 message_len) header_bits;
      if Z.of_nat (length bitstream) =? total_bits then
        '(rc, img') ← embed_bits img positions bitstream total_bits;
        Some (rc, img', S n)
      else None
  end.

Definition steg_decode_message (img : BmpImage) (block_size : Z)
    (contrast_threshold : float) (n : nat)
  : option (Z * option (list Z) * Z * nat) :=
  match data img with
  | None => Some (1, None, 0, n)
  | Some _ =>
      '(rc, positions, n) ←
        find_low_contrast_positions img block_size contrast_threshold n;
      if negb (rc =? 0) then Some (1, None, 0, n) else
      let positions_count := size_t (Z.of_nat (length positions)) in
      let capacity_bits := size_t (positions_count * 3) in
      if capacity_bits <? 32 then Some (1, None, 0, n) else
      '(rc, header_bits) ← extract_bits img positions 32;
      if negb (rc =? 0) then Some (1, None, 0, n) else
      '(header_bytes, _) ← read_bytes header_bits 4 0;
      b0 ← header_bytes !! 0%nat;
      b1 ← header_bytes !! 1%nat;
      b2 ← header_bytes !! 2%nat;
      b3 ← header_bytes !! 3%nat;
      let len32 := Z.lor 0 b0 in
      let len32 := Z.lor len32 (u32 (Z.shiftl b1 8)) in
      let len32 := Z.lor len32 (u32 (Z.shiftl b2 16)) in
      let len32 := Z.lor len32 (u32 (Z.shiftl b3 24)) in
      let message_len := len32 in
      let required_bits := size_t (size_t (4 + message_len) * 8) in
      if capacity_bits <? required_bits then Some (1, None, 0, n) else
      if negb (alloc_ok n) then Some (1, None, 0, S n) else
      '(rc, all_bits) ← extract_bits img positions required_bits;
      if negb (rc =? 0) then Some (1, None, 0, S n) else
      if negb (alloc_ok (S n)) then Some (1, None, 0, S (S n)) else
      '(message, _) ← read_bytes all_bits message_len 32;
      Some (0, Some message, message_len, S (S n))
  end.

End Steg.

Arguments find_low_contrast_positions alloc_ok img block_size contrast_threshold n : simpl never.

(** ** Test images *)

(** [create_test_image] of [tests/test_steg.cpp]: a solid-colour image with
    rows padded to a multiple of four bytes.  The test leaves the padding
    bytes uninitialised; they are zero here. *)
Definition create_test_image (w h r g b : Z) : BmpImage :=
  let stride := ((w * 3 + 3) / 4) * 4 in
  let abs_height := if 0 <? h then h else - h in
  let row := mjoin (replicate (Z.to_nat w) [b; g; r])
             ++ replicate (Z.to_nat (stride - w * 3)) 0 in
  {| header := replicate 54 0; width := w; height := h; stride := stride;
     size := stride * abs_height;
     data := Some (mjoin (replicate (Z.to_nat abs_height) row)) |}.

(** An allocator that grants every request. *)
Definition always_ok : nat → bool := λ _, true.

(** The bytes of "Hello, world!". *)
Definition hello_world : list Z :=
  [72; 101; 108; 108; 111; 44; 32; 119; 111; 114; 108; 100; 33].

(** ** Valid images and the selection as the specification words it *)

(** An image as [bmp_load] delivers it: positive width, non-zero height,
    rows of [stride] bytes that hold the [width] pixel triples, a buffer of
    [stride * |height|] bytes whose size fits [int32_t]. *)
Definition valid_image (img : BmpImage) (d : list Z) : Prop :=
  data img = Some d
  ∧ 0 < width img
  ∧ height img ≠ 0
  ∧ width img * 3 ≤ stride img
  ∧ size img = stride img * Z.abs (height img)
  ∧ size img ≤ INT_MAX
  ∧ Z.of_nat (length d) = size img
  ∧ Forall (λ b, 0 ≤ b < 256) d.

(** The offset in the buffer of channel [c] of pixel [(row, col)]. *)
Definition channel_offset (img : BmpImage) (row col c : Z) : Z :=
  row * stride img + col * 3 + c.

(** The luminance of pixel [(row, col)], computed from the channel values
    with their lowest bit cleared. *)
Definition lum_at (img : BmpImage) (d : list Z) (cell : Z * Z) : float :=
  let byte c := d !!! Z.to_nat (channel_offset img (fst cell) (snd cell) c) in
  compute_luminance (Z.land (byte 2) 254) (Z.land (byte 1) 254)
    (Z.land (byte 0) 254).

(** All the pixels of the grid, in row-major order. *)
Definition all_cells (img : BmpImage) : list (Z * Z) :=
  row ← seqZ 0 (Z.abs (height img));
  (λ col, (row, col)) <$> seqZ 0 (width img).

(** The population standard deviation of a list of values: the square root
    of the sum of the squared deviations from the mean, divided by the number
    [n] of values.  Sums are taken from left to right, starting at 0. *)
Definition population_stddev (vals : list float) : float :=
  let n := to_double (Z.of_nat (length vals)) in
  let mean := (fold_left PrimFloat.add vals 0 / n)%float in
  let sq_sum :=
    fold_left (λ acc v, acc + (v - mean) * (v - mean))%float vals 0%float in
  PrimFloat.sqrt (sq_sum / n).

(** The valid top-left window offsets, in row-major order, one pixel apart. *)
Definition window_offsets (img : BmpImage) (k : Z) : list (Z * Z) :=
  br ← seqZ 0 (Z.abs (height img) - k + 1);
  (λ bc, (br, bc)) <$> seqZ 0 (width img - k + 1).

(** The [k * k] window at an offset is low-contrast when the standard
    deviation of its luminances is strictly below the threshold. *)
Definition low_contrast (img : BmpImage) (d : list Z) (k : Z) (t : float)
    (corner : Z * Z) : bool :=
  (population_stddev (lum_at img d <$> block_cells k (fst corner) (snd corner))
   <? t)%float.

(** The position list as the specification describes it: every pixel of
    every low-contrast window, windows and pixels in row-major order. *)
Definition selected_positions (img : BmpImage) (d : list Z) (k : Z)
    (t : float) : list Z :=
  corner ← window_offsets img k;
  if low_contrast img d k t corner
  then (λ cell, fst cell * width img + snd cell)
         <$> block_cells k (fst corner) (snd corner)
  else [].

(** Two states of the position array agree when they hold the same list. *)
Definition same_positions (s1 s2 : pos_state) : Prop := s1.1.1 = s2.1.1.

(** The bytes of a buffer with their lowest bit cleared. *)
Definition upper_bits (d : list Z) : list Z := (λ v, Z.land v 254) <$> d.

(** The luminance map of a valid image: the luminances of all the pixels,
    in row-major order, every cell initialised. *)
Definition luminance_grid (img : BmpImage) (d : list Z) : list (option float) :=
  Some <$> (lum_at img d <$> all_cells img).

(** A block that lies inside the grid. *)
Definition block_inside (img : BmpImage) (k br bc : Z) : Prop :=
  0 < k ∧ 0 ≤ br ∧ br + k ≤ Z.abs (height img)
  ∧ 0 ≤ bc ∧ bc + k ≤ width img.

(** A window covers a pixel. *)
Definition covers (k : Z) (corner : Z * Z) (row col : Z) : Prop :=
  fst corner ≤ row < fst corner + k ∧ snd corner ≤ col < snd corner + k.

(** The byte assembled from eight bits, most significant first. *)
Definition byte_of_bits (bits : list Z) : Z :=
  fold_left (λ b bp, Z.lor b (u8 (Z.shiftl (fst bp) (snd bp))))
    (zip bits bit_positions) 0.

(** The index in the buffer of channel [ch] of the pixel [p]. *)
Definition pixel_channel (img : BmpImage) (p ch : Z) : nat :=
  Z.to_nat (channel_offset img (p / width img) (p mod width img) ch).

(** The lowest bit of channel [ch] of the pixel [p]. *)
Definition lsb_at (img : BmpImage) (d : list Z) (p ch : Z) : Z :=
  u8 (Z.land (d !!! pixel_channel img p ch) 1).

(** The lowest bits of the listed pixels, in the order of extraction. *)
Definition lsb_stream (img : BmpImage) (d : list Z) (positions : list Z)
  : list Z :=
  p ← positions; lsb_at img d p <$> channels.

(** The positions are pixels of the grid. *)
Definition positions_inside (img : BmpImage) (positions : list Z) : Prop :=
  Forall (λ p, 0 ≤ p < width img * Z.abs (height img)) positions.

(** No pixel is named twice among the list positions that receive a bit
    when [total_bits] bits are embedded. *)
Definition distinct_used (positions : list Z) (total_bits : Z) : Prop :=
  ∀ (i i' : nat) p,
    positions !! i = Some p → positions !! i' = Some p →
    3 * Z.of_nat i < total_bits → 3 * Z.of_nat i' < total_bits → i = i'.

(** ** Files: [src/bmp.c] and [src/main.c]

    The file system maps a path to the bytes stored under it.  Opening a
    path for reading succeeds exactly when the path is present, and a read
    delivers fewer bytes than requested only at the end of the file.
    Opening a path for writing truncates it; whether that succeeds, and how
    many bytes the new file accepts before a write comes back short, is given
    by the oracles [open_ok] and [room].  Messages written to [stderr] are
    not modelled. *)

Abbreviation file_system := (gmap string (list Z)).

(** [fread(buf, 1, count, f)] on a stream with the bytes [stream] left: the
    bytes delivered and the bytes that remain. *)
Definition fread (count : Z) (stream : list Z) : list Z * list Z :=
  (take (Z.to_nat count) stream, drop (Z.to_nat count) stream).

(** [fwrite(buf, 1, count, f)] on a stream that accepts [room] more bytes:
    the bytes written.  The buffer must hold [count] bytes. *)
Definition fwrite (buf : list Z) (count room : Z) : option (list Z) :=
  if Z.of_nat (length buf) <? count then None
  else Some (take (Z.to_nat room) (take (Z.to_nat count) buf)).

(** [memcpy] of header bytes into an unsigned or a signed 32-bit integer on
    a little-endian machine. *)
Definition uint_le (bytes : list Z) : Z :=
  foldr (λ b acc, b + 256 * acc) 0 bytes.

Definition int32_le (bytes : list Z) : Z :=
  let u := uint_le bytes in if u <? 2 ^ 31 then u else u - 2 ^ 32.

(** The [len] bytes of the header that start at [offset]. *)
Definition field (header : list Z) (offset len : nat) : list Z :=
  take len (drop offset header).

Definition set_header (img : BmpImage) (h : list Z) : BmpImage :=
  {| header := h; width := width img; height := height img;
     stride := stride img; size := size img; data := data img |}.

Definition set_dimensions (img : BmpImage) (w h : Z) : BmpImage :=
  {| header := header img; width := w; height := h;
     stride := stride img; size := size img; data := data img |}.

Definition set_layout (img : BmpImage) (stride size : Z) : BmpImage :=
  {| header := header img; width := width img; height := height img;
     stride := stride; size := size; data := data img |}.

(** [bmp_free]: the buffer is released and the fields other than the header
    are reset.  It is also the state in which [bmp_load] puts the image
    before it opens the file. *)
Definition bmp_free (img : BmpImage) : BmpImage :=
  {| header := header img; width := 0; height := 0; stride := 0; size := 0;
     data := None |}.

(** A [BmpImage] local variable before [bmp_load] fills it.  Its contents
    are indeterminate in C; [bmp_load] overwrites every field but the header
    before it reads any, and reads the header only after [fread] has filled
    its 54 bytes, so the zeros chosen here have no influence. *)
Definition blank_image : BmpImage :=
  {| header := replicate 54 0; width := 0; height := 0; stride := 0;
     size := 0; data := None |}.

Section Files.

Variable alloc_ok : nat → bool.

(** [open_ok path]: [fopen(path, "wb")] succeeds.  [room path]: the number
    of bytes the file opened at [path] accepts. *)
Variable open_ok : string → bool.
Variable room : string → Z.

Definition bmp_load (filename : option string) (img : BmpImage)
    (fs : file_system) (n : nat) : option (Z * BmpImage * nat) :=
  let img := bmp_free img in
  match filename with
  | None => Some (1, img, n)
  | Some path =>
      match fs !! path with
      | None => Some (1, img, n)
      | Some file =>
          let '(read, rest) := fread 54 file in
          let img := set_header img (read ++ drop (length read) (header img)) in
          if negb (Z.of_nat (length read) =? 54) then Some (1, img, n) else
          h0 ← header img !! 0%nat;
          h1 ← header img !! 1%nat;
          if negb (h0 =? 66) || negb (h1 =? 77) then Some (1, img, n) else
          let width := int32_le (field (header img) 18 4) in
          let height := int32_le (field (header img) 22 4) in
          let bpp := uint_le (field (header img) 28 2) in
          let compression := uint_le (field (header img) 30 4) in
          if negb (bpp =? 24) then Some (1, img, n) else
          if negb (compression =? 0) then Some (1, img, n) else
          if (width <=? 0) || (height =? 0) then Some (1, img, n) else
          let img := set_dimensions img width height in
          abs_height ← (if 0 <? height then Some height else int_of (- height));
          w3 ← int_of (width * 3);
          w33 ← int_of (w3 + 3);
          stride ← int_of (Z.quot w33 4 * 4);
          size ← int_of (stride * abs_height);
          let img := set_layout img stride size in
          if negb (alloc_ok n) then Some (1, img, S n) else
          let '(d, _) := fread (size_t size) rest in
          if negb (Z.of_nat (length d) =? size_t size)
          then Some (1, img, S n)
          else Some (0, set_data img d, S n)
      end
  end.

Definition bmp_save (filename : option string) (img : BmpImage)
    (fs : file_system) : option (Z * file_system) :=
  match filename with
  | None => Some (1, fs)
  | Some path =>
      match data img with
      | None => Some (1, fs)
      | Some d =>
          if size img <=? 0 then Some (1, fs) else
          if negb (open_ok path) then Some (1, fs) else
          written ← fwrite (header img) 54 (room path);
          if negb (Z.of_nat (length written) =? 54)
          then Some (1, <[path := written]> fs) else
          written' ← fwrite d (size_t (size img)) (room path - 54);
          if negb (Z.of_nat (length written') =? size_t (size img))
          then Some (1, <[path := written ++ written']> fs)
          else Some (0, <[path := written ++ written']> fs)
      end
  end.

(** [read_file_to_buffer]: the return code, the buffer and its length.  The
    file is a regular file: [fseek] and [ftell] succeed and give its size. *)
Definition read_file_to_buffer (path : string) (fs : file_system) (n : nat)
  : Z * option (list Z) * Z * nat :=
  match fs !! path with
  | None => (1, None, 0, n)
  | Some file =>
      let size := Z.of_nat (length file) in
      if negb (alloc_ok n) then (1, None, 0, S n) else
      let '(buf, _) := fread (size_t size) file in
      if negb (Z.of_nat (length buf) =? size_t size) then (1, None, 0, S n)
      else (0, Some buf, size_t size, S n)
  end.

Definition write_buffer_to_file (path : string) (buf : list Z) (len : Z)
    (fs : file_system) : option (Z * file_system) :=
  if negb (open_ok path) then Some (1, fs) else
  written ← fwrite buf len (room path);
  if negb (Z.of_nat (length written) =? len)
  then Some (1, <[path := written]> fs)
  else Some (0, <[path := written]> fs).

(** [main]: the exit status and the file system it leaves.  [argv] holds the
    [argc] arguments, the program name first. *)
Definition main (argv : list string) (fs : file_system)
  : option (Z * file_system) :=
  let argc := Z.of_nat (length argv) in
  if argc <? 2 then Some (1, fs) else
  mode ← argv !! 1%nat;
  let block_size := 8 in
  let contrast_threshold := 5%float in
  if String.eqb mode "encode" then
    if negb (argc =? 5) then Some (1, fs) else
    input_bmp ← argv !! 2%nat;
    input_txt ← argv !! 3%nat;
    output_bmp ← argv !! 4%nat;
    '(rc, img, n) ← bmp_load (Some input_bmp) blank_image fs 0;
    if negb (rc =? 0) then Some (1, fs) else
    let '(rc, message, message_len, n) := read_file_to_buffer input_txt fs n in
    if negb (rc =? 0) then Some (1, fs) else
    '(rc, img, n) ← steg_encode_message alloc_ok img message message_len
                      block_size contrast_threshold n;
    if negb (rc =? 0) then Some (1, fs) else
    '(rc, fs) ← bmp_save (Some output_bmp) img fs;
    if negb (rc =? 0) then Some (1, fs) else Some (0, fs)
  else if String.eqb mode "decode" then
    if negb (argc =? 4) then Some (1, fs) else
    input_bmp ← argv !! 2%nat;
    output_txt ← argv !! 3%nat;
    '(rc, img, n) ← bmp_load (Some input_bmp) blank_image fs 0;
    if negb (rc =? 0) then Some (1, fs) else
    '(rc, message, message_len, n) ←
      steg_decode_message alloc_ok img block_size contrast_threshold n;
    if negb (rc =? 0) then Some (1, fs) else
    buf ← message;
    '(rc, fs) ← write_buffer_to_file output_txt buf message_len fs;
    if negb (rc =? 0) then Some (1, fs) else Some (0, fs)
  else Some (1, fs).

End Files.

(** ** Well-formed files *)

(** A file that [bmp_load] accepts as an image of the given width, height,
    stride and size: the signature "BM", 24 bits per pixel, no compression,
    a positive width and a height other than zero, dimensions whose stride
    and size are computed without overflow, and all the pixel bytes present
    after the 54 bytes of the header. *)
Definition bmp_file (file : list Z) (w h stride size : Z) : Prop :=
  file !! 0%nat = Some 66 ∧ file !! 1%nat = Some 77
  ∧ uint_le (field file 28 2) = 24
  ∧ uint_le (field file 30 4) = 0
  ∧ w = int32_le (field file 18 4)
  ∧ h = int32_le (field file 22 4)
  ∧ 0 < w ∧ h ≠ 0 ∧ INT_MIN < h
  ∧ w * 3 + 3 ≤ INT_MAX
  ∧ stride = (w * 3 + 3) / 4 * 4
  ∧ size = stride * Z.abs h
  ∧ size ≤ INT_MAX
  ∧ 54 + size ≤ Z.of_nat (length file).

(** The image [bmp_load] makes of such a file. *)
Definition loaded_image (file : list Z) (w h stride size : Z) : BmpImage :=
  {| header := take 54 file; width := w; height := h; stride := stride;
     size := size; data := Some (take (Z.to_nat size) (drop 54 file)) |}.

(** The four bytes of a 32-bit integer, least significant first. *)
Definition le32 (z : Z) : list Z :=
  (λ k, z mod 2 ^ 32 / 2 ^ (8 * k) mod 256) <$> [0; 1; 2; 3].

(** A 54-byte header for sample files: the signature "BM", the file size
    (left at 0), the reserved bytes, the offset 54 of the pixel data, the
    size 40 of the information header, the width, the height, one plane, the
    bits per pixel, the compression, and twenty bytes for the image size,
    the resolutions and the colour counts. *)
Definition bmp_header (w h bpp compression : Z) : list Z :=
  [66; 77] ++ le32 0 ++ le32 0 ++ le32 54 ++ le32 40 ++ le32 w ++ le32 h
  ++ [1; 0] ++ [bpp mod 256; bpp / 256 mod 256] ++ le32 compression
  ++ replicate 20 0.

(** ** Machine integers: basic facts *)

Lemma size_t_small z : 0 ≤ z < 2 ^ 64 → size_t z = z.
Proof. intros. unfold size_t. by apply Z.mod_small. Qed.

Lemma size_t_range z : 0 ≤ size_t z < 2 ^ 64.
Proof. unfold size_t. apply Z.mod_pos_bound. lia. Qed.

Lemma size_t_le z : 0 ≤ z → size_t z ≤ z.
Proof. intros. unfold size_t. apply Z.mod_le; lia. Qed.

Lemma int_of_small z : INT_MIN ≤ z ≤ INT_MAX → int_of z = Some z.
Proof.
  intros [Hlo Hhi]. unfold int_of.
  apply Z.leb_le in Hlo, Hhi. by rewrite Hlo, Hhi.
Qed.

Lemma int_of_Some z z' : int_of z = Some z' → z' = z ∧ INT_MIN ≤ z ≤ INT_MAX.
Proof.
  unfold int_of. destruct (INT_MIN <=? z) eqn:Hlo, (z <=? INT_MAX) eqn:Hhi;
    simpl; intros [= <-]. apply Z.leb_le in Hlo, Hhi. lia.
Qed.

(** ** The encode protocol: argument and capacity checks *)

(** C10: with a NULL message and a positive length, [steg_encode_message]
    returns 1, which is neither success nor the capacity signal -1, and the
    image (its pixel buffer included) is the one it was given. *)
Theorem encode_null_message_rejected :
  ∀ alloc_ok img message_len block_size contrast_threshold n,
    0 < message_len →
    ∃ rc, steg_encode_message alloc_ok img None message_len block_size
            contrast_threshold n = Some (rc, img, n)
          ∧ rc ≠ 0 ∧ rc ≠ -1.
Proof.
  intros alloc_ok img message_len block_size t n Hlen. exists 1.
  split; [|lia]. unfold steg_encode_message.
  destruct (data img); [|done].
  apply Z.ltb_lt in Hlen. by rewrite Hlen.
Qed.

Lemma encode_null_message_rejected_witness :
  ∃ rc, steg_encode_message always_ok (create_test_image 4 4 50 50 50) None 5
          2 1%float 0 = Some (rc, create_test_image 4 4 50 50 50, 0%nat)
        ∧ rc ≠ 0 ∧ rc ≠ -1.
Proof. apply (encode_null_message_rejected always_ok); lia. Defined.

(** C2: when the position list offers fewer than [(4 + message_len) * 8]
    bits, [steg_encode_message] returns -1 and hands back the image
    untouched; and -1 is returned in no other situation (every other failure
    returns 1). *)
Theorem encode_capacity_rejection :
  ∀ alloc_ok img message message_len block_size contrast_threshold n
    positions n',
    find_low_contrast_positions alloc_ok img block_size contrast_threshold n
      = Some (0, positions, n') →
    ¬ (message = None ∧ 0 < message_len) →
    0 ≤ message_len →
    (4 + message_len) * 8 < 2 ^ 64 →
    3 * Z.of_nat (length positions) < (4 + message_len) * 8 →
    steg_encode_message alloc_ok img message message_len block_size
      contrast_threshold n = Some (-1, img, n')
    ∧ ∀ message2 message_len2 block_size2 contrast_threshold2 n2 rc img2 n2',
        steg_encode_message alloc_ok img message2 message_len2 block_size2
          contrast_threshold2 n2 = Some (rc, img2, n2') →
        rc = 0 ∨ rc = 1 ∨
        (rc = -1 ∧ img2 = img ∧
         ∃ positions2,
           find_low_contrast_positions alloc_ok img block_size2
             contrast_threshold2 n2 = Some (0, positions2, n2')
           ∧ size_t (size_t (Z.of_nat (length positions2)) * 3)
             < size_t (size_t (4 + message_len2) * 8)).
Proof.
  intros alloc_ok img message message_len block_size t n positions n'
    Hfind Hmsg Hlen Hreq Hcap. split.
  - unfold steg_encode_message. destruct (data img) as [d|] eqn:Hd.
    + destruct (bool_decide (message = None) && (0 <? message_len)) eqn:Hnull.
      { apply andb_true_iff in Hnull as [Hm Hl].
        apply bool_decide_eq_true in Hm. apply Z.ltb_lt in Hl. tauto. }
      rewrite Hfind. simpl.
      rewrite (size_t_small (Z.of_nat (length positions))) by lia.
      rewrite (size_t_small (Z.of_nat (length positions) * 3)) by lia.
      rewrite (size_t_small (4 + message_len)) by lia.
      rewrite (size_t_small ((4 + message_len) * 8)) by lia.
      destruct (Z.ltb_spec (Z.of_nat (length positions) * 3)
                  ((4 + message_len) * 8)); [done|lia].
    + unfold find_low_contrast_positions in Hfind. by rewrite Hd in Hfind.
  - intros message2 message_len2 block_size2 t2 n2 rc img2 n2'.
    unfold steg_encode_message. destruct (data img) as [d|] eqn:Hd.
    2:{ intros [= <- <- <-]. auto. }
    destruct (bool_decide (message2 = None) && (0 <? message_len2)).
    { intros [= <- <- <-]. auto. }
    destruct (find_low_contrast_positions alloc_ok img block_size2 t2 n2)
      as [[[rc2 positions2] m]|] eqn:Hfind2; simpl; [|done].
    destruct (Z.eqb_spec rc2 0) as [->|Hrc]; simpl.
    2:{ intros [= <- <- <-]. auto. }
    destruct (Z.ltb_spec (size_t (size_t (Z.of_nat (length positions2)) * 3))
                (size_t (size_t (4 + message_len2) * 8))).
    { intros [= <- <- <-]. right. right. eauto 10. }
    destruct (alloc_ok m); simpl.
    2:{ intros [= <- <- <-]. auto. }
    destruct (for_each _ _ _) as [bitstream|]; simpl; [|done].
    destruct (Z.of_nat (length bitstream) =? _); [|done].
    unfold embed_bits. rewrite Hd. simpl.
    destruct (for_while _ _ _ _) as [[bit_index d']|]; simpl; [|done].
    destruct (bit_index =? _); simpl; [|done].
    intros [= <- <- <-]. auto.
Qed.

Lemma encode_capacity_rejection_witness :
  steg_encode_message always_ok (create_test_image 4 4 50 50 50)
    (Some (replicate 100 65)) 100 2 1%float 0
  = Some (-1, create_test_image 4 4 50 50 50, 2%nat).
Proof.
  refine (proj1 (encode_capacity_rejection always_ok
    (create_test_image 4 4 50 50 50) (Some (replicate 100 65)) 100 2 1%float
    0%nat
    [0; 1; 4; 5; 1; 2; 5; 6; 2; 3; 6; 7; 4; 5; 8; 9; 5; 6; 9; 10; 6; 7; 10;
     11; 8; 9; 12; 13; 9; 10; 13; 14; 10; 11; 14; 15]
    2%nat _ _ _ _ _)).
  - vm_compute. reflexivity.
  - intros [H _]. discriminate H.
  - lia.
  - lia.
  - simpl. lia.
Defined.

(** ** The scenarios of the test suite, evaluated *)

(** C3: on the 4x4 solid-colour image with window size 2 and threshold 1.0
    the selector lists 36 positions (nine overlapping windows of four pixels
    each, naming 16 distinct pixels), so [capacity_bits] is 108, not 48; the
    100-byte message is still rejected with -1 and the image is handed back
    untouched, but a 3-byte message, which needs 56 bits, is accepted. *)
Theorem scenario_b_capacity_is_108 :
  let img := create_test_image 4 4 50 50 50 in
  ∃ positions,
    find_low_contrast_positions always_ok img 2 1%float 0
      = Some (0, positions, 2%nat)
    ∧ size_t (size_t (Z.of_nat (length positions)) * 3) = 108
    ∧ 3 * Z.of_nat (length (remove_dups positions)) = 4 * 4 * 3
    ∧ steg_encode_message always_ok img (Some (replicate 100 65)) 100 2
        1%float 0 = Some (-1, img, 2%nat)
    ∧ ∃ img', steg_encode_message always_ok img (Some [1; 2; 3]) 3 2
                1%float 0 = Some (0, img', 3%nat).
Proof.
  eexists. split; [vm_compute; reflexivity|].
  split; [vm_compute; reflexivity|].
  split; [vm_compute; reflexivity|].
  split; [vm_compute; reflexivity|].
  eexists. vm_compute. reflexivity.
Qed.

(** C1: the round trip of the test suite's own scenario fails.  Encoding
    "Hello, world!" into the 16x16 solid-colour image with window size 4 and
    threshold 1.0 succeeds, but the position list names pixels several
    times, later bits overwrite earlier ones, and decoding the result
    reports failure instead of the thirteen bytes. *)
Theorem scenario_a_round_trip_fails :
  let img := create_test_image 16 16 100 100 100 in
  ∃ positions img' n',
    find_low_contrast_positions always_ok img 4 1%float 0
      = Some (0, positions, n')
    ∧ (4 + 13) * 8 ≤ 3 * Z.of_nat (length positions)
    ∧ steg_encode_message always_ok img (Some hello_world) 13 4 1%float 0
      = Some (0, img', S n')
    ∧ steg_decode_message always_ok img' 4 1%float 0
      = Some (1, None, 0, n').
Proof.
  do 3 eexists. split; [vm_compute; reflexivity|].
  split; [vm_compute; discriminate|].
  split; [vm_compute; reflexivity|]. vm_compute. reflexivity.
Qed.

(** The same defect on the smallest scale: a one-byte message in the 4x4
    image is decoded, with success reported, as the empty message. *)
Lemma small_round_trip_fails :
  let img := create_test_image 4 4 50 50 50 in
  ∃ img',
    steg_encode_message always_ok img (Some [0]) 1 2 1%float 0
      = Some (0, img', 3%nat)
    ∧ steg_decode_message always_ok img' 2 1%float 0
      = Some (0, Some [], 0, 4%nat).
Proof.
  eexists. split; [vm_compute; reflexivity|]. vm_compute. reflexivity.
Qed.

(** ** Loops: general facts *)

Lemma for_each_app {A S} (f : A → S → option S) l1 l2 s :
  for_each f (l1 ++ l2) s = for_each f l1 s ≫= for_each f l2.
Proof.
  revert s. induction l1 as [|x l1 IH]; intros s; simpl; [done|].
  destruct (f x s); simpl; auto.
Qed.

Lemma for_each_ext {A S} (f g : A → S → option S) l s :
  (∀ x s, x ∈ l → f x s = g x s) → for_each f l s = for_each g l s.
Proof.
  revert s. induction l as [|x l IH]; intros s Hfg; simpl; [done|].
  rewrite Hfg by (apply elem_of_cons; auto).
  destruct (g x s); [|done]. apply IH. intros. apply Hfg, elem_of_cons; auto.
Qed.

Lemma for_each_fmap {A B S} (f : B → S → option S) (h : A → B) l s :
  for_each f (h <$> l) s = for_each (λ x, f (h x)) l s.
Proof.
  revert s. induction l as [|x l IH]; intros s; simpl; [done|].
  destruct (f (h x) s); auto.
Qed.

Lemma for_each_bind {A B S} (f : B → S → option S) (g : A → list B) l s :
  for_each (λ x s, for_each f (g x) s) l s = for_each f (l ≫= g) s.
Proof.
  revert s. induction l as [|x l IH]; intros s; simpl; [done|].
  rewrite for_each_app. destruct (for_each f (g x) s); simpl; auto.
Qed.

Lemma for_loop_app {A S R} (f : A → S → option (flow S R)) l1 l2 s :
  for_loop f (l1 ++ l2) s
  = match for_loop f l1 s with
    | Some (Cont s') => for_loop f l2 s'
    | r => r
    end.
Proof.
  revert s. induction l1 as [|x l1 IH]; intros s; simpl; [done|].
  destruct (f x s) as [[s'|r]|]; auto.
Qed.

Lemma for_loop_ext {A S R} (f g : A → S → option (flow S R)) l s :
  (∀ x s, x ∈ l → f x s = g x s) → for_loop f l s = for_loop g l s.
Proof.
  revert s. induction l as [|x l IH]; intros s Hfg; simpl; [done|].
  rewrite Hfg by (apply elem_of_cons; auto).
  destruct (g x s) as [[s'|r]|]; try done.
  apply IH. intros. apply Hfg, elem_of_cons; auto.
Qed.

Lemma for_loop_fmap {A B S R} (f : B → S → option (flow S R)) (h : A → B) l s :
  for_loop f (h <$> l) s = for_loop (λ x, f (h x)) l s.
Proof.
  revert s. induction l as [|x l IH]; intros s; simpl; [done|].
  destruct (f (h x) s) as [[s'|r]|]; auto.
Qed.

Lemma for_loop_bind {A B S R} (f : B → S → option (flow S R)) (g : A → list B)
    l s :
  for_loop (λ x s, for_loop f (g x) s) l s = for_loop f (l ≫= g) s.
Proof.
  revert s. induction l as [|x l IH]; intros s; simpl; [done|].
  rewrite for_loop_app. destruct (for_loop f (g x) s) as [[s'|r]|]; auto.
Qed.

(** Two runs of a loop whose bodies preserve a relation on the states end,
    when both reach the end of the loop, in related states. *)
Lemma for_loop_related {A S1 S2 R1 R2} (Rel : S1 → S2 → Prop)
    (f1 : A → S1 → option (flow S1 R1)) (f2 : A → S2 → option (flow S2 R2)) l :
  (∀ x s1 s2 s1' s2', Rel s1 s2 → f1 x s1 = Some (Cont s1') →
     f2 x s2 = Some (Cont s2') → Rel s1' s2') →
  ∀ s1 s2 s1' s2', Rel s1 s2 → for_loop f1 l s1 = Some (Cont s1') →
    for_loop f2 l s2 = Some (Cont s2') → Rel s1' s2'.
Proof.
  intros Hstep. induction l as [|x l IH]; intros s1 s2 s1' s2' Hrel; simpl.
  - by intros [= <-] [= <-].
  - destruct (f1 x s1) as [[t1|r1]|] eqn:H1; try done.
    destruct (f2 x s2) as [[t2|r2]|] eqn:H2; try done.
    apply IH. eapply Hstep; eauto.
Qed.

(** ** Determinism of the selection *)

Lemma push_position_related ok1 ok2 x s1 s2 s1' s2' :
  same_positions s1 s2 →
  push_position ok1 x s1 = Some (Cont s1') →
  push_position ok2 x s2 = Some (Cont s2') →
  same_positions s1' s2'.
Proof.
  destruct s1 as [[ps1 cap1] n1], s2 as [[ps2 cap2] n2].
  unfold same_positions, push_position, write_position; simpl. intros ->.
  repeat case_match; intros; simplify_eq; done.
Qed.

Lemma push_block_related ok1 ok2 w k br bc s1 s2 s1' s2' :
  same_positions s1 s2 →
  push_block ok1 w k br bc s1 = Some (Cont s1') →
  push_block ok2 w k br bc s2 = Some (Cont s2') →
  same_positions s1' s2'.
Proof.
  unfold push_block. apply for_loop_related. clear. intros r.
  apply for_loop_related. clear. intros c s1 s2 s1' s2' Hrel.
  unfold push_cell. destruct (_ ≫= _); [|done].
  by apply push_position_related.
Qed.

Lemma scan_block_related ok1 ok2 lum w k t br bc s1 s2 s1' s2' :
  same_positions s1 s2 →
  scan_block ok1 lum w k t br bc s1 = Some (Cont s1') →
  scan_block ok2 lum w k t br bc s2 = Some (Cont s2') →
  same_positions s1' s2'.
Proof.
  unfold scan_block. intros Hrel.
  destruct (block_sum _ _ _ _ _) as [[sum n]|]; [|done].
  destruct (n =? 0); [by intros [= <-] [= <-]|].
  destruct (block_sq_sum _ _ _ _ _ _); [|done].
  destruct (_ <? _)%float; [by apply push_block_related|].
  by intros [= <-] [= <-].
Qed.

Lemma compute_luminance_map_deterministic ok1 ok2 img n1 n2 lum1 lum2 m1 m2 :
  compute_luminance_map ok1 img n1 = Some (0, lum1, m1) →
  compute_luminance_map ok2 img n2 = Some (0, lum2, m2) →
  lum1 = lum2.
Proof.
  unfold compute_luminance_map. destruct (data img); [|done].
  destruct (_ || _); [done|]. destruct (abs_height_of img); simpl; [|done].
  destruct (ok1 n1), (ok2 n2); simpl; try done.
  destruct (for_each _ _ _); simpl; [|done]. by intros [= <- _] [= <- _].
Qed.

Lemma compute_luminance_map_rc ok img n rc lum m :
  compute_luminance_map ok img n = Some (rc, lum, m) → rc = 0 ∨ rc = 1.
Proof.
  unfold compute_luminance_map. destruct (data img); [|intros [= <-]; auto].
  destruct (_ || _); [intros [= <-]; auto|].
  destruct (abs_height_of img); simpl; [|done].
  destruct (ok n); simpl; [|intros [= <-]; auto].
  destruct (for_each _ _ _); simpl; [|done]. intros [= <-]; auto.
Qed.

Lemma for_loop_ret {A S R} (P : R → Prop) (f : A → S → option (flow S R)) l :
  (∀ x s r, f x s = Some (Ret r) → P r) →
  ∀ s r, for_loop f l s = Some (Ret r) → P r.
Proof.
  intros Hf. induction l as [|x l IH]; intros s r; simpl; [done|].
  destruct (f x s) as [[s'|r']|] eqn:Hx; [apply IH| |done].
  intros [= <-]. eauto.
Qed.

(** The only [return] inside the scanning loops is [return 1]. *)
Lemma scan_ret ok lum w k t rows cols s rc n :
  for_loop (λ br st,
      for_loop (λ bc st, scan_block ok lum w k t br bc st) cols st) rows s
    = Some (Ret (rc, n)) → rc = 1.
Proof.
  apply (for_loop_ret (λ r, r.1 = 1)). clear. intros br s.
  apply (for_loop_ret (λ r, r.1 = 1)). clear s. intros bc s r.
  unfold scan_block. destruct (block_sum _ _ _ _ _) as [[sum n]|]; [|done].
  destruct (n =? 0); [done|]. destruct (block_sq_sum _ _ _ _ _ _); [|done].
  destruct (_ <? _)%float; [|done]. unfold push_block. revert s r.
  apply (for_loop_ret (λ r, r.1 = 1)). intros r' s.
  apply (for_loop_ret (λ r, r.1 = 1)). clear s. intros c s r.
  unfold push_cell. destruct (_ ≫= _); [|done]. destruct s as [[ps cap] m].
  unfold push_position, write_position.
  repeat case_match; intros; simplify_eq; done.
Qed.

(** C5: two independent calls of [find_low_contrast_positions] on the same
    image, window size and threshold (whatever the allocator does in each of
    them, as long as both succeed) produce the same position list. *)
Theorem selection_deterministic :
  ∀ ok1 ok2 img block_size contrast_threshold n1 n2 positions1 positions2
    m1 m2,
    find_low_contrast_positions ok1 img block_size contrast_threshold n1
      = Some (0, positions1, m1) →
    find_low_contrast_positions ok2 img block_size contrast_threshold n2
      = Some (0, positions2, m2) →
    positions1 = positions2.
Proof.
  intros ok1 ok2 img k t n1 n2 ps1 ps2 m1 m2.
  unfold find_low_contrast_positions.
  destruct (data img); [|done]. destruct (k <=? 0); [done|].
  destruct (abs_height_of img) as [h|]; simpl; [|done].
  destruct (_ || _); [done|].
  destruct (compute_luminance_map ok1 img n1) as [[[rc1 lum1] k1]|] eqn:Hl1;
    simpl; [|done].
  destruct (compute_luminance_map ok2 img n2) as [[[rc2 lum2] k2]|] eqn:Hl2;
    simpl; [|done].
  destruct (Z.eqb_spec rc1 0) as [->|]; simpl; [|done].
  destruct (Z.eqb_spec rc2 0) as [->|]; simpl; [|done].
  pose proof (compute_luminance_map_deterministic _ _ _ _ _ _ _ _ _ Hl1 Hl2)
    as <-.
  destruct (_ || _); [by intros [= <- _] [= <- _]|].
  match goal with
  | |- mbind _ ?r1 = _ → mbind _ ?r2 = _ → _ => set (run1 := r1); set (run2 := r2)
  end.
  destruct run1 as [[[[q1 c1] j1]|[r1 j1]]|] eqn:H1; simpl; [| |done].
  2:{ intros [= -> _ _]. by apply scan_ret in H1. }
  destruct run2 as [[[[q2 c2] j2]|[r2 j2]]|] eqn:H2; simpl; [| |done].
  2:{ intros _ [= -> _ _]. by apply scan_ret in H2. }
  intros [= <- _] [= <- _].
  change (same_positions (q1, c1, j1) (q2, c2, j2)).
  revert H1 H2. apply for_loop_related; [|done].
  clear. intros br. apply for_loop_related. clear. intros bc.
  apply scan_block_related.
Qed.

Lemma selection_deterministic_witness :
  [0; 1; 3; 4; 1; 2; 4; 5] = [0; 1; 3; 4; 1; 2; 4; 5].
Proof.
  apply (selection_deterministic always_ok (λ n, negb (n =? 1)%nat)
           (create_test_image 3 2 7 8 9) 2 1%float 0%nat 5%nat _ _ 2%nat
           7%nat); vm_compute; reflexivity.
Defined.

(** ** Bytes and their lowest bit *)

Lemma testbit_254 i : 0 ≤ i → Z.testbit 254 i = (0 <? i) && (i <? 8).
Proof.
  intros Hi. destruct (Z.ltb_spec i 8).
  - assert (i = 0 ∨ i = 1 ∨ i = 2 ∨ i = 3 ∨ i = 4 ∨ i = 5 ∨ i = 6 ∨ i = 7)
      as Hcases by lia.
    repeat (destruct Hcases as [->|Hcases]; [reflexivity|]). by subst.
  - rewrite Z.bits_above_log2 by (simpl; lia).
    by rewrite andb_false_r.
Qed.

Lemma testbit_1 i : 0 ≤ i → Z.testbit 1 i = (i =? 0).
Proof.
  intros Hi. destruct (Z.eqb_spec i 0) as [->|]; [done|].
  apply Z.bits_above_log2; simpl; lia.
Qed.

(** The byte that [embed_bits] stores keeps the upper seven bits. *)
Lemma embedded_byte_upper_bits v bit :
  Z.land (u8 (Z.lor (Z.land v 254) (u8 (Z.land bit 1)))) 254 = Z.land v 254.
Proof.
  apply Z.bits_inj'. intros i Hi. unfold u8.
  rewrite !Z.land_spec, !Z.testbit_mod_pow2, Z.lor_spec, !Z.land_spec,
    !Z.testbit_mod_pow2, !Z.land_spec, testbit_254, testbit_1 by lia.
  destruct (Z.ltb_spec 0 i), (Z.ltb_spec i 8), (Z.eqb_spec i 0); simpl;
    try lia; destruct (Z.testbit v i), (Z.testbit bit i); done.
Qed.

(** ... and has the embedded bit as its lowest bit. *)
Lemma embedded_byte_lowest_bit v bit :
  Z.land (u8 (Z.lor (Z.land v 254) (u8 (Z.land bit 1)))) 1 = Z.land bit 1.
Proof.
  apply Z.bits_inj'. intros i Hi. unfold u8.
  rewrite !Z.land_spec, !Z.testbit_mod_pow2, Z.lor_spec, !Z.land_spec,
    !Z.testbit_mod_pow2, !Z.land_spec, testbit_254, testbit_1 by lia.
  destruct (Z.ltb_spec 0 i), (Z.ltb_spec i 8), (Z.eqb_spec i 0); simpl;
    try lia; destruct (Z.testbit v i), (Z.testbit bit i); done.
Qed.

Lemma upper_bits_insert d o v v' :
  d !! o = Some v → Z.land v' 254 = Z.land v 254 →
  upper_bits (<[o := v']> d) = upper_bits d.
Proof.
  intros Hv Heq. unfold upper_bits. rewrite list_fmap_insert, Heq.
  apply list_insert_id. by rewrite list_lookup_fmap, Hv.
Qed.

Lemma upper_bits_lookup d d' o :
  upper_bits d' = upper_bits d →
  (λ v, Z.land v 254) <$> d' !! o = (λ v, Z.land v 254) <$> d !! o.
Proof.
  unfold upper_bits. intros Heq. by rewrite <- !list_lookup_fmap, Heq.
Qed.

Lemma upper_bits_length d d' :
  upper_bits d' = upper_bits d → length d' = length d.
Proof.
  unfold upper_bits. intros Heq.
  by rewrite <- (length_fmap (λ v, Z.land v 254) d'), Heq, length_fmap.
Qed.

(** The luminance of a pixel depends on the upper seven bits only. *)
Lemma pixel_luminance_upper_bits d d' offset :
  upper_bits d' = upper_bits d →
  pixel_luminance d' offset = pixel_luminance d offset.
Proof.
  intros Heq. unfold pixel_luminance.
  pose proof (upper_bits_lookup d d' (Z.to_nat (size_t (offset + 0))) Heq) as H0.
  pose proof (upper_bits_lookup d d' (Z.to_nat (size_t (offset + 1))) Heq) as H1.
  pose proof (upper_bits_lookup d d' (Z.to_nat (size_t (offset + 2))) Heq) as H2.
  destruct (d' !! _) as [b'|], (d !! _) as [b|]; simplify_eq/=; [|done].
  destruct (d' !! _) as [g'|], (d !! _) as [g|]; simplify_eq/=; [|done].
  destruct (d' !! _) as [r'|], (d !! _) as [r|]; simplify_eq/=; [|done].
  by rewrite H0, H1, H2.
Qed.

(** ** The footprint of [embed_bits] *)

Lemma embed_channel_spec bitstream base ch bi d bi' d' :
  embed_channel bitstream base ch (bi, d) = Some (bi', d') →
  bi' = bi + 1
  ∧ upper_bits d' = upper_bits d
  ∧ ∀ o, o ≠ channel_index base ch → d' !! o = d !! o.
Proof.
  unfold embed_channel.
  destruct (d !! _) as [v|] eqn:Hv; simpl; [|done].
  destruct (bitstream !! _) as [bit|]; simpl; [|done].
  intros [= <- <-]. split; [done|]. split.
  - eapply upper_bits_insert; [done|]. apply embedded_byte_upper_bits.
  - intros o Ho. by apply list_lookup_insert_ne.
Qed.

Section EmbedLoop.

Variables (img : BmpImage) (bitstream : list Z) (total_bits : Z).

Lemma embed_channels_spec base chs bi d bi' d' :
  for_while (bits_left total_bits) (embed_channel bitstream base) chs (bi, d) = Some (bi', d') →
  upper_bits d' = upper_bits d
  ∧ bi ≤ bi' ≤ bi + Z.of_nat (length chs)
  ∧ (bi' < bi + Z.of_nat (length chs) → total_bits ≤ bi')
  ∧ ∀ o, (∀ (j : nat) ch, chs !! j = Some ch → bi + Z.of_nat j < total_bits →
            o ≠ channel_index base ch) →
         d' !! o = d !! o.
Proof.
  revert bi d. induction chs as [|ch chs IH]; intros bi d; cbn [for_while].
  { intros [= <- <-]. cbn [length]. repeat split; auto; lia. }
  unfold bits_left at 1; cbn [fst length].
  destruct (Z.ltb_spec bi total_bits) as [Hlt|Hge].
  2:{ intros [= <- <-]. repeat split; auto; lia. }
  destruct (embed_channel _ _ _ _) as [[bi1 d1]|] eqn:Hstep; [|done].
  apply embed_channel_spec in Hstep as (-> & Hup1 & Hfr1).
  intros Hrest. apply IH in Hrest as (Hup & Hbi & Hstop & Hfr).
  split; [congruence|]. split; [lia|]. split; [lia|].
  intros o Ho. rewrite Hfr, Hfr1; [done| |].
  - apply (Ho 0%nat); [done|lia].
  - intros j ch' Hj Hlt'. apply (Ho (S j)); [done|lia].
Qed.

Lemma embed_pixels_spec positions bi d bi' d' :
  for_while (bits_left total_bits)
    (λ pixel_index st,
       base ← pixel_base img pixel_index;
       for_while (bits_left total_bits) (embed_channel bitstream base) channels st)
    positions (bi, d) = Some (bi', d') →
  upper_bits d' = upper_bits d
  ∧ ∀ o, (∀ (i j : nat) p base ch,
            positions !! i = Some p → pixel_base img p = Some base →
            channels !! j = Some ch →
            bi + 3 * Z.of_nat i + Z.of_nat j < total_bits →
            o ≠ channel_index base ch) →
         d' !! o = d !! o.
Proof.
  revert bi d. induction positions as [|p positions IH]; intros bi d;
    cbn [for_while].
  { by intros [= <- <-]. }
  unfold bits_left at 1; cbn [fst].
  destruct (Z.ltb_spec bi total_bits) as [Hlt|Hge].
  2:{ by intros [= <- <-]. }
  destruct (pixel_base img p) as [base|] eqn:Hbase; cbn [mbind option_bind];
    [|done].
  destruct (for_while _ _ channels _) as [[bi1 d1]|] eqn:Hpix; [|done].
  apply embed_channels_spec in Hpix as (Hup1 & Hbi1 & Hstop1 & Hfr1).
  simpl in Hbi1, Hstop1.
  intros Hrest. apply IH in Hrest as (Hup & Hfr).
  split; [congruence|].
  intros o Ho. rewrite Hfr, Hfr1; [done| |].
  - intros j ch Hj Hlt'. apply (Ho 0%nat j p base ch); auto. lia.
  - intros i j q base' ch Hq Hbase' Hj Hlt'.
    apply (Ho (S i) j q base' ch); auto. lia.
Qed.

End EmbedLoop.

Lemma embed_bits_spec img positions bitstream total_bits rc img' :
  embed_bits img positions bitstream total_bits = Some (rc, img') →
  ∃ d d', data img = Some d ∧ img' = set_data img d' ∧ rc = 0
    ∧ upper_bits d' = upper_bits d
    ∧ ∀ o, (∀ (i j : nat) p base ch,
              positions !! i = Some p → pixel_base img p = Some base →
              channels !! j = Some ch →
              3 * Z.of_nat i + Z.of_nat j < total_bits →
              o ≠ channel_index base ch) →
           d' !! o = d !! o.
Proof.
  unfold embed_bits. destruct (data img) as [d|]; simpl; [|done].
  destruct (for_while _ _ _ _) as [[bi d']|] eqn:Hloop; simpl; [|done].
  destruct (bi =? total_bits); [|done]. intros [= <- <-].
  apply embed_pixels_spec in Hloop as [Hup Hfr].
  exists d, d'. repeat split; auto.
Qed.

(** ** Luminance is stable under embedding *)

Lemma compute_luminance_map_upper_bits ok img d d' m :
  data img = Some d → upper_bits d' = upper_bits d →
  compute_luminance_map ok (set_data img d') m = compute_luminance_map ok img m.
Proof.
  intros Hd Hup. unfold compute_luminance_map, abs_height_of.
  rewrite Hd. simpl. destruct (_ || _); [done|].
  destruct (if 0 <? height img then _ else _) as [h|]; simpl; [|done].
  destruct (ok m); simpl; [|done]. f_equal.
  apply for_each_ext. intros row lum _. apply for_each_ext. intros col lum' _.
  unfold luminance_cell. simpl.
  by rewrite (pixel_luminance_upper_bits d d').
Qed.

(** What a successful [steg_encode_message] has done. *)
Lemma encode_success ok img message message_len k t n img' n' :
  steg_encode_message ok img message message_len k t n = Some (0, img', n') →
  ∃ positions m bitstream,
    find_low_contrast_positions ok img k t n = Some (0, positions, m)
    ∧ n' = S m
    ∧ size_t (size_t (4 + message_len) * 8)
      ≤ size_t (size_t (Z.of_nat (length positions)) * 3)
    ∧ Z.of_nat (length bitstream) = size_t (size_t (4 + message_len) * 8)
    ∧ embed_bits img positions bitstream
        (size_t (size_t (4 + message_len) * 8)) = Some (0, img').
Proof.
  unfold steg_encode_message. destruct (data img) as [d|]; [|done].
  destruct (_ && _); [done|].
  destruct (find_low_contrast_positions ok img k t n)
    as [[[rc positions] m]|]; simpl; [|done].
  destruct (Z.eqb_spec rc 0) as [->|]; simpl; [|done].
  destruct (Z.ltb_spec (size_t (size_t (Z.of_nat (length positions)) * 3))
              (size_t (size_t (4 + message_len) * 8))); [done|].
  destruct (ok m); simpl; [|done].
  destruct (for_each _ _ _) as [bitstream|]; simpl; [|done].
  destruct (Z.eqb_spec (Z.of_nat (length bitstream))
              (size_t (size_t (4 + message_len) * 8))); [|done].
  destruct (embed_bits _ _ _ _) as [[rc img1]|] eqn:Hemb; simpl; [|done].
  intros [= -> -> <-]. exists positions, m, bitstream. auto.
Qed.

Lemma find_success_luminance ok img k t n positions m :
  find_low_contrast_positions ok img k t n = Some (0, positions, m) →
  ∃ lum, compute_luminance_map ok img n = Some (0, lum, S n).
Proof.
  unfold find_low_contrast_positions. destruct (data img) as [d|] eqn:Hd; [|done].
  destruct (k <=? 0); [done|].
  destruct (abs_height_of img) as [h|] eqn:Hh; simpl; [|done].
  destruct (_ || _); [done|].
  destruct (compute_luminance_map ok img n) as [[[rc lum] n1]|] eqn:Hlum;
    simpl; [|done].
  destruct (Z.eqb_spec rc 0) as [->|]; simpl; [|done]. intros _.
  exists lum. revert Hlum. unfold compute_luminance_map. rewrite Hd, Hh.
  destruct (_ || _); [done|]. simpl. destruct (ok n); simpl; [|done].
  destruct (for_each _ _ _); simpl; [|done]. by intros [= <- <-].
Qed.

(** C8: after a successful [steg_encode_message] the luminance map of the
    mutated image is, for every allocator and cell by cell, the luminance
    map of the original image; and that map exists (it was computed, with
    return code 0, during the encoding). *)
Theorem luminance_stable_under_encoding :
  ∀ alloc_ok img message message_len block_size contrast_threshold n img' n',
    steg_encode_message alloc_ok img message message_len block_size
      contrast_threshold n = Some (0, img', n') →
    (∀ ok m, compute_luminance_map ok img' m = compute_luminance_map ok img m)
    ∧ ∃ lum, compute_luminance_map alloc_ok img n = Some (0, lum, S n).
Proof.
  intros ok0 img message message_len k t n img' n' Henc.
  apply encode_success in Henc
    as (positions & m & bitstream & Hfind & _ & _ & _ & Hemb).
  apply embed_bits_spec in Hemb as (d & d' & Hd & -> & _ & Hup & _).
  split.
  - intros ok m'. by apply (compute_luminance_map_upper_bits ok img d d').
  - by eapply find_success_luminance.
Qed.

(** ** Geometry of a valid image *)

Lemma valid_image_bounds img d :
  valid_image img d →
  0 < width img < 2 ^ 31
  ∧ 1 ≤ Z.abs (height img) < 2 ^ 31
  ∧ 0 < stride img < 2 ^ 31
  ∧ width img * Z.abs (height img) * 3 < 2 ^ 31.
Proof.
  intros (Hd & HW & HH & Hs & Hsz & Hmax & Hlen & _). unfold INT_MAX in *.
  assert (1 ≤ Z.abs (height img)) as Hh by lia.
  assert (stride img * 1 ≤ stride img * Z.abs (height img))
    by (apply Z.mul_le_mono_nonneg_l; lia).
  assert (1 * Z.abs (height img) ≤ stride img * Z.abs (height img))
    by (apply Z.mul_le_mono_nonneg_r; lia).
  assert (width img * 3 * Z.abs (height img) ≤ stride img * Z.abs (height img))
    by (apply Z.mul_le_mono_nonneg_r; lia).
  lia.
Qed.

Lemma channel_offset_inj img row col c row' col' c' :
  0 < width img → width img * 3 ≤ stride img →
  0 ≤ row → 0 ≤ col < width img → 0 ≤ c < 3 →
  0 ≤ row' → 0 ≤ col' < width img → 0 ≤ c' < 3 →
  channel_offset img row col c = channel_offset img row' col' c' →
  row = row' ∧ col = col' ∧ c = c'.
Proof.
  unfold channel_offset. intros HW Hs Hr Hc Hch Hr' Hc' Hch' Heq.
  assert (row = row') as -> by nia. lia.
Qed.

Lemma channel_offset_bounds img d row col c :
  valid_image img d →
  0 ≤ row < Z.abs (height img) → 0 ≤ col < width img → 0 ≤ c < 3 →
  0 ≤ channel_offset img row col c < Z.of_nat (length d)
  ∧ channel_offset img row col c < 2 ^ 31.
Proof.
  intros (Hd & HW & HH & Hs & Hsz & Hmax & Hlen & _) Hr Hc Hch.
  unfold channel_offset, INT_MAX in *.
  assert (row * stride img + stride img ≤ stride img * Z.abs (height img))
    by nia.
  split; [|nia]. rewrite Hlen, Hsz. nia.
Qed.

Lemma channel_offset_mod img row col c :
  0 < width img → width img * 3 ≤ stride img →
  0 ≤ col < width img → 0 ≤ c < 3 →
  channel_offset img row col c mod stride img = col * 3 + c.
Proof.
  intros HW Hs Hc Hch. unfold channel_offset.
  rewrite <- Z.add_assoc, Z.add_comm, Z.mod_add by lia.
  apply Z.mod_small. lia.
Qed.

Lemma pixel_base_valid img d p :
  valid_image img d → 0 ≤ p < width img * Z.abs (height img) →
  pixel_base img p
    = Some (channel_offset img (p / width img) (p mod width img) 0)
  ∧ 0 ≤ p / width img < Z.abs (height img)
  ∧ 0 ≤ p mod width img < width img.
Proof.
  intros Hv Hp. pose proof Hv as (Hd & HW & HH & Hs & Hsz & Hmax & Hlen & _).
  assert (0 ≤ p / width img < Z.abs (height img)) as Hrow.
  { split; [apply Z.div_pos; lia|]. apply Z.div_lt_upper_bound; lia. }
  assert (0 ≤ p mod width img < width img) as Hcol
    by (apply Z.mod_pos_bound; lia).
  split; [|done]. unfold pixel_base.
  destruct (Z.ltb_spec p 0); [lia|]. destruct (Z.eqb_spec (width img) 0); [lia|].
  rewrite Z.quot_div_nonneg, Z.rem_mod_nonneg by lia.
  destruct (channel_offset_bounds img d (p / width img) (p mod width img) 0)
    as [? ?]; [done..|lia|].
  destruct (valid_image_bounds img d Hv) as (? & ? & ? & ?).
  unfold channel_offset in *.
  rewrite (size_t_small (p / width img)), (size_t_small (stride img)),
    (size_t_small (p mod width img)) by lia.
  rewrite size_t_small by lia. f_equal. lia.
Qed.

Lemma channel_index_valid img d row col ch :
  valid_image img d →
  0 ≤ row < Z.abs (height img) → 0 ≤ col < width img → 0 ≤ ch < 3 →
  channel_index (channel_offset img row col 0) ch
  = Z.to_nat (channel_offset img row col ch).
Proof.
  intros Hv Hr Hc Hch.
  destruct (channel_offset_bounds img d row col ch) as [? ?]; [done..|].
  destruct (channel_offset_bounds img d row col 0) as [? ?]; [done..|lia|].
  unfold channel_index, channel_offset in *.
  rewrite (size_t_small ch), size_t_small by lia. f_equal. lia.
Qed.

Lemma channels_lookup (j : nat) ch :
  channels !! j = Some ch → ch = 2 - Z.of_nat j ∧ 0 ≤ ch < 3.
Proof.
  destruct j as [|[|[|j]]]; simpl; intros [= <-]; lia.
Qed.

(** C9: [embed_bits] on a valid image, with positions inside the grid,
    returns the same image with a buffer of the same length in which every
    byte keeps its upper seven bits, every padding byte is unchanged, and the
    byte of channel [c] of pixel [(row, col)] is unchanged unless the pixel
    is named at a list position [i] whose bit for that channel,
    [3 * i + (2 - c)], lies before [total_bits] (so the bytes of a pixel that
    is not named at all are unchanged). *)
Theorem embed_bits_frame :
  ∀ img d positions bitstream total_bits rc img',
    valid_image img d →
    Forall (λ p, 0 ≤ p < width img * Z.abs (height img)) positions →
    embed_bits img positions bitstream total_bits = Some (rc, img') →
    ∃ d', img' = set_data img d'
      ∧ length d' = length d
      ∧ (∀ o v v', d !! o = Some v → d' !! o = Some v' →
           Z.land v' 254 = Z.land v 254)
      ∧ (∀ o : nat, width img * 3 ≤ Z.of_nat o mod stride img →
           d' !! o = d !! o)
      ∧ (∀ row col c,
           0 ≤ row < Z.abs (height img) → 0 ≤ col < width img → 0 ≤ c < 3 →
           (∀ i : nat, positions !! i = Some (row * width img + col) →
              total_bits ≤ 3 * Z.of_nat i + (2 - c)) →
           d' !! Z.to_nat (channel_offset img row col c)
           = d !! Z.to_nat (channel_offset img row col c)).
Proof.
  intros img d positions bitstream total_bits rc img' Hv Hpos Hemb.
  pose proof Hv as (Hd & HW & HH & Hs & Hsz & Hmax & Hlen & _).
  apply embed_bits_spec in Hemb as (d0 & d' & Hd0 & -> & _ & Hup & Hfr).
  assert (d0 = d) as -> by congruence.
  exists d'. split; [done|]. split; [by apply upper_bits_length|].
  assert (∀ (i j : nat) p base ch,
            positions !! i = Some p → pixel_base img p = Some base →
            channels !! j = Some ch →
            channel_index base ch
            = Z.to_nat (channel_offset img (p / width img) (p mod width img) ch)
            ∧ 0 ≤ p / width img < Z.abs (height img)
            ∧ 0 ≤ p mod width img < width img
            ∧ ch = 2 - Z.of_nat j ∧ 0 ≤ ch < 3) as Hwritten.
  { intros i j p base ch Hp Hbase Hj.
    apply channels_lookup in Hj as [-> Hch].
    eapply Forall_lookup_1 in Hpos; [|done].
    destruct (pixel_base_valid img d p Hv Hpos) as (Hb & Hr & Hc).
    rewrite Hb in Hbase. injection Hbase as <-.
    by rewrite (channel_index_valid img d). }
  split; [|split].
  - intros o v v' Ho Ho'. pose proof (upper_bits_lookup d d' o Hup) as Heq.
    rewrite Ho, Ho' in Heq. by injection Heq.
  - intros o Hpad. apply Hfr. intros i j p base ch Hp Hbase Hj _ ->.
    destruct (Hwritten i j p base ch) as (Hidx & Hr & Hc & _ & Hch); [done..|].
    rewrite Hidx in Hpad.
    destruct (channel_offset_bounds img d (p / width img) (p mod width img) ch)
      as [? _]; [done..|].
    rewrite Z2Nat.id, channel_offset_mod in Hpad by lia. lia.
  - intros row col c Hr Hc Hch Hfree. apply Hfr.
    intros i j p base ch Hp Hbase Hj Hlt Heq.
    destruct (Hwritten i j p base ch) as (Hidx & Hr' & Hc' & Hchj & Hch');
      [done..|].
    rewrite Hidx in Heq. apply Z2Nat.inj in Heq.
    + apply channel_offset_inj in Heq as (-> & -> & ->); [|lia..].
      rewrite Z.mul_comm, <- Z.div_mod in Hfree by lia.
      specialize (Hfree i Hp). lia.
    + by apply (channel_offset_bounds img d).
    + by apply (channel_offset_bounds img d).
Qed.

Lemma valid_test_image_4x4 :
  valid_image (create_test_image 4 4 50 50 50) (replicate 48 50).
Proof.
  unfold valid_image, INT_MAX. simpl.
  repeat split; try reflexivity; try lia; try discriminate.
  repeat (constructor; [lia|]). constructor.
Qed.

Lemma luminance_stable_under_encoding_witness :
  ∃ img',
    steg_encode_message always_ok (create_test_image 4 4 50 50 50)
      (Some [255; 170]) 2 2 1%float 0 = Some (0, img', 3%nat)
    ∧ img' ≠ create_test_image 4 4 50 50 50
    ∧ ∀ ok m, compute_luminance_map ok img' m
              = compute_luminance_map ok (create_test_image 4 4 50 50 50) m.
Proof.
  eexists. split; [vm_compute; reflexivity|]. split; [discriminate|].
  apply (luminance_stable_under_encoding always_ok
           (create_test_image 4 4 50 50 50) (Some [255; 170]) 2 2 1%float
           0%nat _ 3%nat).
  vm_compute. reflexivity.
Defined.

Lemma embed_bits_frame_witness :
  ∃ d', length d' = 48%nat
    ∧ d' !! 2%nat = Some 51
    ∧ d' !! Z.to_nat (channel_offset (create_test_image 4 4 50 50 50) 1 1 2)
      = Some 50.
Proof.
  destruct (embed_bits_frame (create_test_image 4 4 50 50 50)
              (replicate 48 50) [0; 1; 4; 5] [1; 0; 1; 1] 4 0
              (set_data (create_test_image 4 4 50 50 50)
                 (<[2%nat := 51]> (<[0%nat := 51]> (<[5%nat := 51]>
                    (replicate 48 50))))))
    as (d' & Himg & Hlen & _ & _ & Hfr).
  - apply valid_test_image_4x4.
  - change (width (create_test_image 4 4 50 50 50)) with 4.
    change (height (create_test_image 4 4 50 50 50)) with 4.
    repeat (constructor; [cbv beta; lia|]). constructor.
  - vm_compute. reflexivity.
  - exists d'. split; [done|]. injection Himg as <-. split; [reflexivity|].
    rewrite (Hfr 1 1 2); [reflexivity|cbn; lia..|].
    intros i Hi. destruct i as [|[|[|[|i]]]]; cbn in Hi; try discriminate Hi.
    lia.
Defined.

(** ** Nested loops and the cells they visit *)

Lemma for_each_nested {S} (f : Z → Z → S → option S) (g h : Z → Z) rows cols s :
  for_each (λ r s, for_each (λ c s, f (g r) (h c) s) cols s) rows s
  = for_each (λ cell, f (fst cell) (snd cell))
      (r ← rows; (λ c, (g r, h c)) <$> cols) s.
Proof.
  rewrite <- for_each_bind. apply for_each_ext. intros r s' _.
  by rewrite for_each_fmap.
Qed.

Lemma for_loop_nested {S R} (f : Z → Z → S → option (flow S R)) (g h : Z → Z)
    rows cols s :
  for_loop (λ r s, for_loop (λ c s, f (g r) (h c) s) cols s) rows s
  = for_loop (λ cell, f (fst cell) (snd cell))
      (r ← rows; (λ c, (g r, h c)) <$> cols) s.
Proof.
  rewrite <- for_loop_bind. apply for_loop_ext. intros r s' _.
  by rewrite for_loop_fmap.
Qed.

(** The [j]-th cell of a grid of [w] columns visited row by row. *)
Lemma grid_lookup (g h : Z → Z) (w : Z) (rows : nat) (a : Z) (j : nat) cell :
  0 ≤ w →
  (r ← seqZ a (Z.of_nat rows); (λ c, (g r, h c)) <$> seqZ 0 w) !! j = Some cell →
  ∃ r c, cell = (g r, h c) ∧ a ≤ r < a + Z.of_nat rows ∧ 0 ≤ c < w
         ∧ Z.of_nat j = (r - a) * w + c.
Proof.
  intros Hw. revert a j. induction rows as [|rows IH]; intros a j.
  { by rewrite (seqZ_nil a) by lia. }
  rewrite (seqZ_cons a) by lia. cbn [mbind list_bind]. fold (@mbind list _).
  replace (Z.pred (Z.of_nat (S rows))) with (Z.of_nat rows) by lia.
  destruct (decide (j < Z.to_nat w)%nat) as [Hj|Hj].
  - rewrite lookup_app_l by (by rewrite length_fmap, length_seqZ).
    rewrite list_lookup_fmap, lookup_seqZ_lt by lia. intros [= <-].
    exists a, (0 + Z.of_nat j). split; [done|]. lia.
  - rewrite lookup_app_r by (rewrite length_fmap, length_seqZ; lia).
    rewrite length_fmap, length_seqZ. intros Hrest.
    apply IH in Hrest as (r & c & -> & Hr & Hc & Hidx).
    exists r, c. split; [done|]. lia.
Qed.

Lemma grid_length (g h : Z → Z) (w : Z) (rows : nat) (a : Z) :
  length (r ← seqZ a (Z.of_nat rows); (λ c, (g r, h c)) <$> seqZ 0 w)
  = (rows * Z.to_nat w)%nat.
Proof.
  revert a. induction rows as [|rows IH]; intros a.
  { by rewrite (seqZ_nil a) by lia. }
  rewrite (seqZ_cons a) by lia. cbn [mbind list_bind]. fold (@mbind list _).
  replace (Z.pred (Z.of_nat (S rows))) with (Z.of_nat rows) by lia.
  rewrite length_app, length_fmap, length_seqZ, IH. lia.
Qed.

(** ** The luminance map of a valid image *)

(** A loop that stores the value of its [j]-th cell at index [j] of a fresh
    array fills the array with the values of the cells, in order. *)
Lemma fill_array {A C} (step : C → list (option A) → option (list (option A)))
    (f : C → A) cells :
  ∀ pre extra,
    (∀ (j : nat) c lum, cells !! j = Some c →
       (length pre + j < length lum)%nat →
       step c lum = Some (<[(length pre + j)%nat := Some (f c)]> lum)) →
    for_each step cells (pre ++ replicate (length cells + extra) None)
    = Some (pre ++ (Some <$> (f <$> cells)) ++ replicate extra None).
Proof.
  induction cells as [|c cells IH]; intros pre extra Hstep; [done|].
  cbn [for_each length fmap list_fmap]. fold (@fmap list _).
  rewrite (Hstep 0%nat c) by (rewrite ?length_app, ?length_replicate; done || lia).
  rewrite insert_app_r. cbn [replicate Nat.add]. cbn [insert list_insert].
  rewrite (cons_middle (Some (f c)) pre), app_assoc.
  rewrite IH.
  - by rewrite <- app_assoc.
  - intros j c' lum Hj Hlen. rewrite length_app in *. cbn [length] in *.
    replace (length pre + 1 + j)%nat with (length pre + S j)%nat in * by lia.
    by apply Hstep.
Qed.

Lemma u8_land_254 b : u8 (Z.land b 254) = Z.land b 254.
Proof.
  apply Z.bits_inj'. intros i Hi. unfold u8.
  rewrite Z.testbit_mod_pow2, !Z.land_spec, testbit_254 by lia.
  destruct (Z.ltb_spec i 8), (Z.ltb_spec 0 i), (Z.testbit b i); done.
Qed.

Lemma pixel_luminance_valid img d row col :
  valid_image img d →
  0 ≤ row < Z.abs (height img) → 0 ≤ col < width img →
  pixel_luminance d (channel_offset img row col 0)
  = Some (lum_at img d (row, col)).
Proof.
  intros Hv Hr Hc. unfold pixel_luminance, lum_at. cbn [fst snd].
  destruct (channel_offset_bounds img d row col 0) as [Hb0 ?]; [done..|lia|].
  destruct (channel_offset_bounds img d row col 1) as [Hb1 ?]; [done..|lia|].
  destruct (channel_offset_bounds img d row col 2) as [Hb2 ?]; [done..|lia|].
  unfold channel_offset in *.
  rewrite !size_t_small by lia.
  rewrite !Z.add_0_r in *.
  destruct (lookup_lt_is_Some_2 d (Z.to_nat (row * stride img + col * 3)))
    as [b Hb]; [lia|].
  destruct (lookup_lt_is_Some_2 d (Z.to_nat (row * stride img + col * 3 + 1)))
    as [g Hg]; [lia|].
  destruct (lookup_lt_is_Some_2 d (Z.to_nat (row * stride img + col * 3 + 2)))
    as [r Hr']; [lia|].
  rewrite Hb, Hg, Hr'. simpl.
  rewrite (list_lookup_total_correct _ _ _ Hb),
    (list_lookup_total_correct _ _ _ Hg), (list_lookup_total_correct _ _ _ Hr').
  by rewrite !u8_land_254.
Qed.

Lemma luminance_cell_valid img d row col lum :
  valid_image img d →
  0 ≤ row < Z.abs (height img) → 0 ≤ col < width img →
  (Z.to_nat (row * width img + col) < length lum)%nat →
  luminance_cell img d row col lum
  = Some (<[Z.to_nat (row * width img + col) := Some (lum_at img d (row, col))]>
            lum).
Proof.
  intros Hv Hr Hc Hlen. unfold luminance_cell.
  destruct (valid_image_bounds img d Hv) as (HW & HH & HS & HWH).
  assert (0 ≤ row * width img + col < 2 ^ 62) by nia.
  assert (0 ≤ row * stride img + col * 3 < 2 ^ 62) by nia.
  rewrite (size_t_small row), (size_t_small (width img)),
    (size_t_small (stride img)), (size_t_small col) by lia.
  rewrite !size_t_small by lia.
  replace (row * stride img + col * 3)
    with (channel_offset img row col 0) by (unfold channel_offset; lia).
  rewrite (pixel_luminance_valid img d) by done. simpl.
  unfold store.
  destruct (Z.leb_spec 0 (row * width img + col)); [|lia].
  destruct (Z.ltb_spec (row * width img + col) (Z.of_nat (length lum)));
    [done|lia].
Qed.

Lemma all_cells_lookup img (j : nat) cell :
  0 < width img →
  all_cells img !! j = Some cell →
  0 ≤ fst cell < Z.abs (height img) ∧ 0 ≤ snd cell < width img
  ∧ Z.of_nat j = fst cell * width img + snd cell.
Proof.
  intros HW. unfold all_cells.
  rewrite <- (Z2Nat.id (Z.abs (height img))) at 1 by lia.
  intros Hj. apply (grid_lookup (λ r, r) (λ c, c)) in Hj
    as (r & c & -> & Hr & Hc & Hidx); [|lia].
  cbn [fst snd]. lia.
Qed.

Lemma all_cells_length img :
  0 < width img →
  Z.of_nat (length (all_cells img)) = width img * Z.abs (height img).
Proof.
  intros HW. unfold all_cells.
  rewrite <- (Z2Nat.id (Z.abs (height img))) at 1 by lia.
  rewrite (grid_length (λ r, r) (λ c, c)). lia.
Qed.

Lemma all_cells_lookup_2 img row col :
  0 < width img →
  0 ≤ row < Z.abs (height img) → 0 ≤ col < width img →
  all_cells img !! Z.to_nat (row * width img + col) = Some (row, col).
Proof.
  intros HW Hr Hc.
  destruct (lookup_lt_is_Some_2 (all_cells img)
              (Z.to_nat (row * width img + col))) as [[r c] Hcell].
  { pose proof (all_cells_length img HW). nia. }
  rewrite Hcell. apply all_cells_lookup in Hcell as (Hr' & Hc' & Hidx); [|done].
  cbn [fst snd] in *. rewrite Z2Nat.id in Hidx by nia.
  assert (r = row) as -> by nia. f_equal. f_equal. lia.
Qed.

Lemma abs_height_of_valid img d :
  valid_image img d → abs_height_of img = Some (Z.abs (height img)).
Proof.
  intros Hv. destruct (valid_image_bounds img d Hv) as (HW & HH & HS & HWH).
  unfold abs_height_of. destruct (Z.ltb_spec 0 (height img)).
  - f_equal. lia.
  - rewrite int_of_small by (unfold INT_MIN, INT_MAX; lia). f_equal. lia.
Qed.

Lemma compute_luminance_map_valid ok img d n :
  valid_image img d →
  compute_luminance_map ok img n
  = if ok n then Some (0, luminance_grid img d, S n) else Some (1, [], S n).
Proof.
  intros Hv. pose proof Hv as (Hd & HW' & HH' & _).
  destruct (valid_image_bounds img d Hv) as (HW & HH & HS & HWH).
  unfold compute_luminance_map. rewrite Hd.
  destruct (Z.leb_spec (width img) 0); [lia|].
  destruct (Z.eqb_spec (height img) 0); [lia|]. cbn [orb].
  rewrite (abs_height_of_valid img d Hv). cbn [mbind option_bind].
  destruct (ok n); [|done]. cbn [negb].
  pose proof (for_each_nested (luminance_cell img d) (λ r, r) (λ c, c)) as Hn.
  cbv beta in Hn. rewrite Hn. clear Hn. fold (all_cells img).
  assert (0 ≤ width img * Z.abs (height img) < 2 ^ 60) by nia.
  rewrite (size_t_small (width img)), (size_t_small (Z.abs (height img))) by lia.
  rewrite (size_t_small (width img * Z.abs (height img))) by lia.
  rewrite size_t_small by lia.
  unfold new_array. rewrite Z.div_mul by lia.
  replace (Z.to_nat (width img * Z.abs (height img)))
    with (length (all_cells img) + 0)%nat
    by (pose proof (all_cells_length img ltac:(lia)); lia).
  rewrite (fill_array _ (lum_at img d) (all_cells img) [] 0%nat).
  - cbn [app replicate]. by rewrite app_nil_r.
  - intros j [row col] lum Hj Hlen. cbn [length Nat.add] in *.
    apply all_cells_lookup in Hj as (Hr & Hc & Hidx); [|lia].
    cbn [fst snd] in *.
    replace j with (Z.to_nat (row * width img + col)) in * by lia.
    by apply (luminance_cell_valid img d).
Qed.

(** ** The statistics of a block *)

Lemma load_luminance_grid img d row col :
  valid_image img d →
  0 ≤ row < Z.abs (height img) → 0 ≤ col < width img →
  load (luminance_grid img d) (row * width img + col)
  = Some (lum_at img d (row, col)).
Proof.
  intros Hv Hr Hc. pose proof Hv as (_ & HW & _).
  unfold load, luminance_grid.
  destruct (Z.leb_spec 0 (row * width img + col)); [|nia].
  by rewrite !list_lookup_fmap, all_cells_lookup_2.
Qed.

Lemma cell_index_small img d row col :
  valid_image img d →
  0 ≤ row < Z.abs (height img) → 0 ≤ col < width img →
  size_t (size_t row * size_t (width img) + size_t col) = row * width img + col
  ∧ 0 ≤ row * width img + col < 2 ^ 31.
Proof.
  intros Hv Hr Hc.
  destruct (valid_image_bounds img d Hv) as (HW & HH & HS & HWH).
  assert (0 ≤ row * width img + col < 2 ^ 31) by nia.
  rewrite (size_t_small row), (size_t_small (width img)), (size_t_small col)
    by lia.
  by rewrite size_t_small by lia.
Qed.

Lemma block_cells_elem k br bc cell :
  cell ∈ block_cells k br bc →
  br ≤ fst cell < br + k ∧ bc ≤ snd cell < bc + k.
Proof.
  intros Hin. apply list_elem_of_lookup in Hin as [j Hj].
  destruct (Z.le_gt_cases k 0).
  { unfold block_cells in Hj. by rewrite (seqZ_nil 0 k) in Hj by lia. }
  unfold block_cells in Hj. rewrite <- (Z2Nat.id k) in Hj at 1 by lia.
  apply (grid_lookup (λ r, br + r) (λ c, bc + c)) in Hj
    as (r & c & -> & Hr & Hc & _); [|lia].
  cbn [fst snd]. lia.
Qed.

Lemma block_cells_length k br bc :
  0 ≤ k → Z.of_nat (length (block_cells k br bc)) = k * k.
Proof.
  intros Hk. unfold block_cells. rewrite <- (Z2Nat.id k) at 1 by lia.
  rewrite (grid_length (λ r, br + r) (λ c, bc + c)). lia.
Qed.

Lemma sum_cells_valid img d cells :
  valid_image img d →
  (∀ cell, cell ∈ cells →
     0 ≤ fst cell < Z.abs (height img) ∧ 0 ≤ snd cell < width img) →
  ∀ acc, 0 ≤ snd acc → snd acc + Z.of_nat (length cells) ≤ INT_MAX →
    for_each (λ cell, sum_cell (luminance_grid img d) (width img)
                        (fst cell) (snd cell)) cells acc
    = Some (fold_left PrimFloat.add (lum_at img d <$> cells) (fst acc),
            snd acc + Z.of_nat (length cells)).
Proof.
  intros Hv. induction cells as [|[row col] cells IH]; intros Hin acc Hn Hmax.
  { destruct acc. simpl. do 2 f_equal. lia. }
  cbn [for_each fst snd]. unfold sum_cell.
  destruct (Hin (row, col)) as [Hr Hc]; [apply elem_of_cons; auto|].
  cbn [fst snd] in Hr, Hc, Hmax. cbn [length] in Hmax.
  destruct (cell_index_small img d row col) as [-> _]; [done..|].
  rewrite (load_luminance_grid img d), int_of_small
    by (done || unfold INT_MIN, INT_MAX in *; lia).
  cbn [mbind option_bind]. rewrite IH.
  - cbn [fst snd length fmap list_fmap fold_left]. do 2 f_equal. lia.
  - intros cell Hcell. apply Hin, elem_of_cons. auto.
  - cbn [snd]. lia.
  - cbn [snd]. lia.
Qed.

Lemma sq_cells_valid img d mean cells :
  valid_image img d →
  (∀ cell, cell ∈ cells →
     0 ≤ fst cell < Z.abs (height img) ∧ 0 ≤ snd cell < width img) →
  ∀ acc,
    for_each (λ cell, sq_cell (luminance_grid img d) (width img) mean
                        (fst cell) (snd cell)) cells acc
    = Some (fold_left (λ acc v, acc + (v - mean) * (v - mean))%float
              (lum_at img d <$> cells) acc).
Proof.
  intros Hv. induction cells as [|[row col] cells IH]; intros Hin acc; [done|].
  cbn [for_each fst snd]. unfold sq_cell.
  destruct (Hin (row, col)) as [Hr Hc]; [apply elem_of_cons; auto|].
  cbn [fst snd] in Hr, Hc.
  destruct (cell_index_small img d row col) as [-> _]; [done..|].
  rewrite (load_luminance_grid img d) by done.
  cbn [mbind option_bind]. rewrite IH; [done|].
  intros cell Hcell. apply Hin, elem_of_cons. auto.
Qed.

Lemma block_cells_inside img k br bc cell :
  block_inside img k br bc → cell ∈ block_cells k br bc →
  0 ≤ fst cell < Z.abs (height img) ∧ 0 ≤ snd cell < width img.
Proof.
  intros (Hk & Hbr & Hbr' & Hbc & Hbc') Hin.
  apply block_cells_elem in Hin. lia.
Qed.

Lemma block_area_small img d k br bc :
  valid_image img d → block_inside img k br bc → 0 < k * k < 2 ^ 31.
Proof.
  intros Hv (Hk & Hbr & Hbr' & Hbc & Hbc').
  destruct (valid_image_bounds img d Hv) as (HW & HH & HS & HWH).
  assert (k * k ≤ width img * Z.abs (height img)) by nia. nia.
Qed.

Lemma block_sum_valid img d k br bc :
  valid_image img d → block_inside img k br bc →
  block_sum (luminance_grid img d) (width img) k br bc
  = Some (fold_left PrimFloat.add (lum_at img d <$> block_cells k br bc) 0%float,
          k * k).
Proof.
  intros Hv Hin. pose proof (block_area_small img d k br bc Hv Hin).
  unfold block_sum.
  pose proof (for_each_nested
    (sum_cell (luminance_grid img d) (width img))
    (λ r, br + r) (λ c, bc + c)) as Hn.
  cbv beta in Hn. rewrite Hn. clear Hn. fold (block_cells k br bc).
  rewrite (sum_cells_valid img d); cbn [fst snd].
  - by rewrite block_cells_length by (destruct Hin; lia).
  - done.
  - intros cell. by apply block_cells_inside.
  - done.
  - rewrite block_cells_length by (destruct Hin; lia).
    unfold INT_MAX. lia.
Qed.

Lemma block_sq_sum_valid img d k br bc mean :
  valid_image img d → block_inside img k br bc →
  block_sq_sum (luminance_grid img d) (width img) k br bc mean
  = Some (fold_left (λ acc v, acc + (v - mean) * (v - mean))%float
            (lum_at img d <$> block_cells k br bc) 0%float).
Proof.
  intros Hv Hin. unfold block_sq_sum.
  pose proof (for_each_nested
    (sq_cell (luminance_grid img d) (width img) mean)
    (λ r, br + r) (λ c, bc + c)) as Hn.
  cbv beta in Hn. rewrite Hn. clear Hn. fold (block_cells k br bc).
  apply (sq_cells_valid img d); [done|].
  intros cell. by apply block_cells_inside.
Qed.

(** ** The scan of a valid image *)

Lemma push_block_valid ok img d k br bc st :
  valid_image img d → block_inside img k br bc →
  push_block ok (width img) k br bc st
  = for_loop (push_position ok)
      ((λ cell, fst cell * width img + snd cell) <$> block_cells k br bc) st.
Proof.
  intros Hv Hin. unfold push_block.
  pose proof (for_loop_nested (push_cell ok (width img))
    (λ r, br + r) (λ c, bc + c)) as Hn.
  cbv beta in Hn. rewrite Hn. clear Hn. fold (block_cells k br bc).
  rewrite for_loop_fmap. apply for_loop_ext. intros [row col] s Hcell.
  apply (block_cells_inside img) in Hcell as [Hr Hc]; [|done].
  cbn [fst snd] in *. unfold push_cell.
  destruct (cell_index_small img d row col) as [_ ?]; [done..|].
  destruct (valid_image_bounds img d Hv) as (HW & _).
  assert (0 ≤ row * width img) by nia.
  rewrite (int_of_small (row * width img))
    by (unfold INT_MIN, INT_MAX; lia).
  cbn [mbind option_bind].
  by rewrite int_of_small by (unfold INT_MIN, INT_MAX; lia).
Qed.

Lemma scan_block_valid ok img d k t br bc st :
  valid_image img d → block_inside img k br bc →
  scan_block ok (luminance_grid img d) (width img) k t br bc st
  = for_loop (push_position ok)
      (if low_contrast img d k t (br, bc)
       then (λ cell, fst cell * width img + snd cell) <$> block_cells k br bc
       else []) st.
Proof.
  intros Hv Hin. pose proof (block_area_small img d k br bc Hv Hin).
  pose proof Hin as (Hk & _). unfold scan_block.
  rewrite (block_sum_valid img d), (block_sq_sum_valid img d) by done.
  destruct (Z.eqb_spec (k * k) 0); [lia|].
  unfold low_contrast, population_stddev. cbn [fst snd].
  rewrite length_fmap, block_cells_length by lia.
  destruct (_ <? _)%float; [|done]. by apply (push_block_valid ok img d).
Qed.

Lemma window_offsets_elem img k corner :
  corner ∈ window_offsets img k →
  0 ≤ fst corner < Z.abs (height img) - k + 1
  ∧ 0 ≤ snd corner < width img - k + 1.
Proof.
  intros Hin. apply list_elem_of_lookup in Hin as [j Hj].
  unfold window_offsets in Hj.
  destruct (Z.le_gt_cases (Z.abs (height img) - k + 1) 0).
  { by rewrite (seqZ_nil 0 (Z.abs (height img) - k + 1)) in Hj by lia. }
  destruct (Z.le_gt_cases (width img - k + 1) 0).
  { rewrite (seqZ_nil 0 (width img - k + 1)) in Hj by lia.
    exfalso. revert Hj. generalize (seqZ 0 (Z.abs (height img) - k + 1)).
    intros l. revert j. induction l as [|x l IH]; intros j; simpl; [done|].
    apply IH. }
  rewrite <- (Z2Nat.id (Z.abs (height img) - k + 1)) in Hj at 1 by lia.
  apply (grid_lookup (λ r, r) (λ c, c)) in Hj
    as (r & c & -> & Hr & Hc & _); [|lia].
  cbn [fst snd]. lia.
Qed.

Lemma window_offsets_inside img k corner :
  0 < k → corner ∈ window_offsets img k →
  block_inside img k (fst corner) (snd corner).
Proof.
  intros Hk Hin. apply window_offsets_elem in Hin. unfold block_inside. lia.
Qed.

Lemma window_offsets_nil img k :
  Z.abs (height img) - k + 1 ≤ 0 ∨ width img - k + 1 ≤ 0 →
  window_offsets img k = [].
Proof.
  intros Hk. destruct (window_offsets img k) as [|corner l] eqn:Heq; [done|].
  assert (corner ∈ window_offsets img k) as Hin
    by (rewrite Heq; apply elem_of_cons; auto).
  apply window_offsets_elem in Hin. lia.
Qed.

(** The scan of a valid image pushes exactly the selected positions, in
    order; what remains is the growth of the array. *)
Lemma find_valid ok img d k t n :
  valid_image img d → 0 < k →
  find_low_contrast_positions ok img k t n
  = if ok n then
      match for_loop (push_position ok) (selected_positions img d k t)
              ([], 0, S n) with
      | Some (Cont (positions, _, n')) => Some (0, positions, n')
      | Some (Ret (rc, n')) => Some (rc, [], n')
      | None => None
      end
    else Some (1, [], S n).
Proof.
  intros Hv Hk. pose proof Hv as (Hd & _).
  destruct (valid_image_bounds img d Hv) as (HW & HH & HS & HWH).
  unfold find_low_contrast_positions. rewrite Hd.
  destruct (Z.leb_spec k 0); [lia|].
  rewrite (abs_height_of_valid img d Hv). cbn [mbind option_bind].
  destruct (Z.leb_spec (width img) 0); [lia|].
  destruct (Z.leb_spec (Z.abs (height img)) 0); [lia|]. cbn [orb].
  rewrite (compute_luminance_map_valid ok img d n Hv).
  destruct (ok n); cbn [mbind option_bind]; [|done].
  change (0 =? 0) with true. cbn [negb].
  destruct (Z.ltb_spec (Z.abs (height img) - k + 1) 0) as [Hrow|Hrow].
  { unfold selected_positions. by rewrite window_offsets_nil by lia. }
  destruct (Z.ltb_spec (width img - k + 1) 0) as [Hcol|Hcol].
  { unfold selected_positions. by rewrite window_offsets_nil by lia. }
  cbn [orb].
  pose proof (for_loop_nested
    (scan_block ok (luminance_grid img d) (width img) k t)
    (λ r, r) (λ c, c)) as Hn.
  cbv beta in Hn. rewrite Hn. clear Hn. fold (window_offsets img k).
  unfold selected_positions. rewrite <- for_loop_bind.
  rewrite (for_loop_ext _
    (λ corner s,
       for_loop (push_position ok)
         (if low_contrast img d k t corner
          then (λ cell, fst cell * width img + snd cell)
                 <$> block_cells k (fst corner) (snd corner)
          else []) s)).
  - by destruct (for_loop _ _ _) as [[[[ps cap] n']|[rc n']]|].
  - intros [br bc] s Hin. apply (scan_block_valid ok img d); [done|].
    by apply (window_offsets_inside img k (br, bc)).
Qed.

(** ** Growth of the position array *)

Lemma push_position_granted ok x ps cap n :
  (∀ m, (n ≤ m)%nat → ok m = true) →
  Z.of_nat (length ps) ≤ cap < 2 ^ 62 →
  Z.of_nat (length ps) < 2 ^ 61 →
  ∃ cap' n', push_position ok x (ps, cap, n) = Some (Cont (ps ++ [x], cap', n'))
             ∧ Z.of_nat (length ps) + 1 ≤ cap' < 2 ^ 62 ∧ (n ≤ n')%nat.
Proof.
  intros Hok Hcap Hlen. unfold push_position, write_position.
  rewrite (size_t_small (Z.of_nat (length ps))) by lia.
  destruct (Z.eqb_spec (Z.of_nat (length ps)) cap) as [Heq|Hne].
  - rewrite Hok by lia.
    set (new_cap := if cap =? 0 then 128 else size_t (cap * 2)).
    assert (Z.of_nat (length ps) < new_cap < 2 ^ 62) as Hnew.
    { unfold new_cap. destruct (Z.eqb_spec cap 0); [lia|].
      rewrite size_t_small by lia. lia. }
    rewrite (size_t_small (new_cap * 4)), Z.div_mul by lia.
    destruct (Z.ltb_spec (Z.of_nat (length ps)) new_cap); [|lia].
    exists new_cap, (S n). split; [done|]. lia.
  - rewrite (size_t_small (cap * 4)), Z.div_mul by lia.
    destruct (Z.ltb_spec (Z.of_nat (length ps)) cap); [|lia].
    exists cap, n. split; [done|]. lia.
Qed.

Lemma push_positions_granted ok xs :
  ∀ ps cap n,
    (∀ m, (n ≤ m)%nat → ok m = true) →
    Z.of_nat (length ps) ≤ cap < 2 ^ 62 →
    Z.of_nat (length ps) + Z.of_nat (length xs) < 2 ^ 61 →
    ∃ cap' n', (n ≤ n')%nat
               ∧ for_loop (push_position ok) xs (ps, cap, n)
                 = Some (Cont (ps ++ xs, cap', n')).
Proof.
  induction xs as [|x xs IH]; intros ps cap n Hok Hcap Hlen.
  { exists cap, n. by rewrite app_nil_r. }
  cbn [for_loop length] in *.
  destruct (push_position_granted ok x ps cap n)
    as (cap1 & n1 & -> & Hcap1 & Hn1); [done|done|lia|].
  destruct (IH (ps ++ [x]) cap1 n1) as (cap' & n' & Hn' & ->).
  - intros m Hm. apply Hok. lia.
  - rewrite length_app. cbn [length]. lia.
  - rewrite length_app. cbn [length]. lia.
  - exists cap', n'. split; [lia|]. by rewrite <- app_assoc.
Qed.

Lemma bind_length_le {A B} (g : A → list B) (b : nat) l :
  (∀ x, (length (g x) ≤ b)%nat) → (length (l ≫= g) ≤ length l * b)%nat.
Proof.
  intros Hg. induction l as [|x l IH]; [done|].
  change ((x :: l) ≫= g) with (g x ++ (l ≫= g)).
  rewrite length_app. specialize (Hg x). cbn [length]. lia.
Qed.

Lemma selected_positions_length img d k t :
  valid_image img d → 0 < k →
  Z.of_nat (length (selected_positions img d k t)) < 2 ^ 61.
Proof.
  intros Hv Hk.
  destruct (valid_image_bounds img d Hv) as (HW & HH & HS & HWH).
  destruct (Z.le_gt_cases (Z.abs (height img) - k + 1) 0) as [Hrow|Hrow].
  { unfold selected_positions. by rewrite window_offsets_nil by lia. }
  destruct (Z.le_gt_cases (width img - k + 1) 0) as [Hcol|Hcol].
  { unfold selected_positions. by rewrite window_offsets_nil by lia. }
  pose proof (bind_length_le
    (λ corner, if low_contrast img d k t corner
               then (λ cell, fst cell * width img + snd cell)
                      <$> block_cells k (fst corner) (snd corner)
               else [])
    (Z.to_nat (k * k)) (window_offsets img k)) as Hlen.
  fold (selected_positions img d k t) in Hlen.
  assert (length (window_offsets img k)
          = (Z.to_nat (Z.abs (height img) - k + 1)
             * Z.to_nat (width img - k + 1))%nat) as Hwo.
  { unfold window_offsets.
    rewrite <- (Z2Nat.id (Z.abs (height img) - k + 1)) at 1 by lia.
    by rewrite (grid_length (λ r, r) (λ c, c)). }
  rewrite Hwo in Hlen.
  assert (Z.of_nat (length (selected_positions img d k t))
          ≤ ((Z.abs (height img) - k + 1) * (width img - k + 1)) * (k * k))
    as Hle.
  { rewrite <- (Z2Nat.id (Z.abs (height img) - k + 1)),
      <- (Z2Nat.id (width img - k + 1)), <- (Z2Nat.id (k * k)) by lia.
    rewrite <- !Nat2Z.inj_mul. apply Nat2Z.inj_le. apply Hlen.
    intros corner. destruct (low_contrast img d k t corner); simpl; [|lia].
    rewrite length_fmap. pose proof (block_cells_length k corner.1 corner.2).
    lia. }
  clear Hlen Hwo.
  set (mr := Z.abs (height img) - k + 1) in *.
  set (mc := width img - k + 1) in *.
  set (A := width img * Z.abs (height img)) in *.
  assert (0 ≤ A < 2 ^ 30) as HA by (unfold A; lia).
  assert (mc * mr ≤ A)
    by (apply Z.mul_le_mono_nonneg; unfold mc, mr; lia).
  assert (0 ≤ mr * mc) by (apply Z.mul_nonneg_nonneg; lia).
  assert (k * k ≤ A)
    by (apply Z.mul_le_mono_nonneg; unfold mc, mr in *; lia).
  assert (0 ≤ k * k) by (apply Z.mul_nonneg_nonneg; lia).
  assert (mr * mc * (k * k) ≤ A * A)
    by (apply Z.mul_le_mono_nonneg; lia).
  assert (A * A ≤ 2 ^ 30 * 2 ^ 30)
    by (apply Z.mul_le_mono_nonneg; lia).
  lia.
Qed.

(** On a valid image, with the allocations granted, the selection
    succeeds with the specified list. *)
Lemma find_valid_granted ok img d k t n :
  valid_image img d → 0 < k → (∀ m, (n ≤ m)%nat → ok m = true) →
  ∃ n', (n ≤ n')%nat
        ∧ find_low_contrast_positions ok img k t n
          = Some (0, selected_positions img d k t, n').
Proof.
  intros Hv Hk Hok. rewrite (find_valid ok img d k t n Hv Hk), Hok by lia.
  pose proof (selected_positions_length img d k t Hv Hk) as Hlen.
  destruct (push_positions_granted ok (selected_positions img d k t)
              [] 0 (S n)) as (cap' & n' & Hn' & ->).
  - intros m Hm. apply Hok. lia.
  - simpl. lia.
  - simpl. lia.
  - exists n'. split; [lia|done].
Qed.

(** C6: on a valid image, for a positive window size and with the
    allocations granted, [find_low_contrast_positions] returns 0 with the
    position list of the specification: the windows at all valid top-left
    offsets in row-major order one pixel apart, each of [k * k] cells, and
    for each window whose population standard deviation (sum of squared
    deviations from the mean divided by [n = k * k]) is strictly below the
    threshold, all its pixels in row-major order. *)
Theorem selection_matches_specification :
  ∀ alloc_ok img d block_size contrast_threshold n,
    valid_image img d →
    0 < block_size →
    (∀ m, (n ≤ m)%nat → alloc_ok m = true) →
    (∃ n', find_low_contrast_positions alloc_ok img block_size
             contrast_threshold n
           = Some (0, selected_positions img d block_size contrast_threshold,
                   n'))
    ∧ ∀ br bc, Z.of_nat (length (block_cells block_size br bc))
               = block_size * block_size.
Proof.
  intros ok img d k t n Hv Hk Hok. split.
  - destruct (find_valid_granted ok img d k t n Hv Hk Hok) as (n' & _ & ->).
    by exists n'.
  - intros br bc. apply block_cells_length. lia.
Qed.

(** C7: on a valid image, when the positive window size exceeds the width
    or the height and the luminance buffer is granted,
    [find_low_contrast_positions] returns 0 (success) with an empty
    position list, so the capacity is zero bits. *)
Theorem oversized_window_selects_nothing :
  ∀ alloc_ok img d block_size contrast_threshold n,
    valid_image img d →
    0 < block_size →
    width img < block_size ∨ Z.abs (height img) < block_size →
    alloc_ok n = true →
    find_low_contrast_positions alloc_ok img block_size contrast_threshold n
      = Some (0, [], S n)
    ∧ size_t (size_t (Z.of_nat (length (@nil Z))) * 3) = 0.
Proof.
  intros ok img d k t n Hv Hk Hbig Hok. split; [|done].
  rewrite (find_valid ok img d k t n Hv Hk), Hok.
  unfold selected_positions. by rewrite window_offsets_nil by lia.
Qed.

Lemma selection_matches_specification_witness :
  ∃ n', find_low_contrast_positions always_ok (create_test_image 4 4 50 50 50)
          2 1%float 0
        = Some (0, selected_positions (create_test_image 4 4 50 50 50)
                     (replicate 48 50) 2 1%float, n').
Proof.
  apply (selection_matches_specification always_ok
           (create_test_image 4 4 50 50 50) (replicate 48 50) 2 1%float 0%nat).
  - apply valid_test_image_4x4.
  - lia.
  - reflexivity.
Defined.

Lemma oversized_window_selects_nothing_witness :
  find_low_contrast_positions always_ok (create_test_image 4 4 50 50 50) 5
    1%float 0 = Some (0, [], 1%nat).
Proof.
  apply (oversized_window_selects_nothing always_ok
           (create_test_image 4 4 50 50 50) (replicate 48 50) 5 1%float 0%nat).
  - apply valid_test_image_4x4.
  - lia.
  - left. simpl. lia.
  - reflexivity.
Defined.

(** ** How often a pixel is listed *)

Lemma push_positions_result ok xs :
  ∀ ps cap n ps' cap' n',
    for_loop (push_position ok) xs (ps, cap, n) = Some (Cont (ps', cap', n')) →
    ps' = ps ++ xs.
Proof.
  induction xs as [|x xs IH]; intros ps cap n ps' cap' n'; cbn [for_loop].
  { intros [= <- _ _]. by rewrite app_nil_r. }
  destruct (push_position ok x (ps, cap, n)) as [[[[ps1 cap1] n1]|r]|] eqn:Hx;
    [|done..].
  intros Hrest. apply IH in Hrest as ->.
  assert (ps1 = ps ++ [x]) as ->; [|by rewrite <- app_assoc].
  revert Hx. unfold push_position, write_position.
  repeat case_match; intros; simplify_eq; done.
Qed.

Lemma push_positions_ret ok xs s rc m :
  for_loop (push_position ok) xs s = Some (Ret (rc, m)) → rc = 1.
Proof.
  intros H.
  refine (for_loop_ret (λ r : Z * nat, r.1 = 1) (push_position ok) xs _ s
            (rc, m) H).
  intros x [[ps cap] j] r. unfold push_position, write_position.
  repeat case_match; intros; simplify_eq; done.
Qed.

(** On a valid image a successful selection is the specified list. *)
Lemma find_valid_success ok img d k t n positions n' :
  valid_image img d → 0 < k →
  find_low_contrast_positions ok img k t n = Some (0, positions, n') →
  positions = selected_positions img d k t.
Proof.
  intros Hv Hk. rewrite (find_valid ok img d k t n Hv Hk).
  destruct (ok n); [|done].
  destruct (for_loop _ _ _) as [[[[ps cap] m]|[rc m]]|] eqn:Hloop; [| |done].
  - intros [= <- _]. by apply push_positions_result in Hloop.
  - intros [= -> _ _]. by apply push_positions_ret in Hloop.
Qed.

Lemma block_cells_elem_iff k br bc row col :
  (row, col) ∈ block_cells k br bc ↔ br ≤ row < br + k ∧ bc ≤ col < bc + k.
Proof.
  unfold block_cells. rewrite list_elem_of_bind. split.
  - intros (r & Hc & Hr). apply list_elem_of_fmap in Hc as (c & [= -> ->] & Hc).
    apply elem_of_seqZ in Hr, Hc. lia.
  - intros [Hr Hc]. exists (row - br). split.
    + apply list_elem_of_fmap. exists (col - bc). split; [f_equal; lia|].
      apply elem_of_seqZ. lia.
    + apply elem_of_seqZ. lia.
Qed.

Lemma block_cells_NoDup k br bc : NoDup (block_cells k br bc).
Proof.
  unfold block_cells. apply NoDup_bind; [| |apply NoDup_seqZ].
  - intros r1 r2 cell _ _ H1 H2.
    apply list_elem_of_fmap in H1 as (c1 & -> & _).
    apply list_elem_of_fmap in H2 as (c2 & [= ? ?] & _). lia.
  - intros r _. apply NoDup_fmap_2_strong; [|apply NoDup_seqZ].
    intros c1 c2 _ _ [= ?]. lia.
Qed.

Lemma filter_eq_length (x : Z) (l : list Z) :
  NoDup l →
  length (filter (λ y, y = x) l) = if decide (x ∈ l) then 1%nat else 0%nat.
Proof.
  induction 1 as [|y l Hy Hnd IH]; [done|].
  destruct (decide (y = x)) as [->|Hne].
  - rewrite filter_cons_True by done. cbn [length]. rewrite IH.
    rewrite decide_False by done.
    by rewrite decide_True by (apply elem_of_cons; auto).
  - rewrite filter_cons_False by done. rewrite IH.
    destruct (decide (x ∈ l)).
    + by rewrite decide_True by (apply elem_of_cons; auto).
    + rewrite decide_False; [done|].
      intros [?|?]%elem_of_cons; [congruence|done].
Qed.

Lemma block_positions_count img k br bc row col :
  0 < width img → block_inside img k br bc →
  0 ≤ row → 0 ≤ col < width img →
  length (filter (λ p, p = row * width img + col)
            ((λ cell, fst cell * width img + snd cell) <$> block_cells k br bc))
  = if decide (covers k (br, bc) row col) then 1%nat else 0%nat.
Proof.
  intros HW (Hk & Hbr & Hbr' & Hbc & Hbc') Hrow Hcol.
  rewrite filter_eq_length.
  - unfold covers. cbn [fst snd].
    destruct (decide (_ ∈ _)) as [Hin|Hnin].
    + apply list_elem_of_fmap in Hin as ([r c] & Heq & Hin).
      apply block_cells_elem_iff in Hin. cbn [fst snd] in Heq.
      assert (r = row) as -> by nia. assert (c = col) as -> by lia.
      by rewrite decide_True.
    + rewrite decide_False; [done|]. intros Hcov. apply Hnin.
      apply list_elem_of_fmap. exists (row, col).
      split; [done|]. by apply block_cells_elem_iff.
  - apply NoDup_fmap_2_strong; [|apply block_cells_NoDup].
    intros [r1 c1] [r2 c2] H1%block_cells_elem_iff H2%block_cells_elem_iff Heq.
    cbn [fst snd] in Heq. assert (r1 = r2) as -> by nia. f_equal. lia.
Qed.

(** Every low-contrast window that covers a pixel lists it exactly once. *)
Lemma selected_positions_count img d k t row col :
  valid_image img d → 0 < k →
  0 ≤ row < Z.abs (height img) → 0 ≤ col < width img →
  length (filter (λ p, p = row * width img + col)
            (selected_positions img d k t))
  = length (filter (λ corner, low_contrast img d k t corner = true
                              ∧ covers k corner row col)
              (window_offsets img k)).
Proof.
  intros Hv Hk Hrow Hcol. pose proof Hv as (_ & HW & _).
  unfold selected_positions.
  assert (∀ corner, corner ∈ window_offsets img k →
            block_inside img k (fst corner) (snd corner)) as Hin
    by (intros; by apply window_offsets_inside).
  induction (window_offsets img k) as [|[br bc] l IH]; [done|].
  change (((br, bc) :: l) ≫= ?g) with (g (br, bc) ++ (l ≫= g)).
  rewrite filter_app, length_app, IH
    by (intros; apply Hin, elem_of_cons; auto).
  specialize (Hin (br, bc) ltac:(apply elem_of_cons; auto)).
  cbn [fst snd] in *.
  destruct (low_contrast img d k t (br, bc)) eqn:Hlow.
  - rewrite (block_positions_count img k br bc row col) by (done || lia).
    destruct (decide (covers k (br, bc) row col)).
    + by rewrite filter_cons_True by done.
    + by rewrite filter_cons_False by tauto.
  - by rewrite filter_cons_False by (intros [? _]; congruence).
Qed.

(** C4: the position list can name a pixel more than once.  On the 4x4
    solid-colour image (window size 2, threshold 1.0) pixel 1 lies in two
    qualifying windows and is listed twice (at list positions 1 and 4), and
    pixel 5 lies in four and is listed four times.  In general, on a valid
    image, a pixel is listed exactly once for every low-contrast window that
    covers it. *)
Theorem position_list_has_duplicates :
  (∃ img block_size contrast_threshold positions n',
     find_low_contrast_positions always_ok img block_size contrast_threshold 0
       = Some (0, positions, n')
     ∧ positions !! 1%nat = Some 1 ∧ positions !! 4%nat = Some 1
     ∧ ¬ NoDup positions
     ∧ length (filter (λ p, p = 1) positions) = 2%nat
     ∧ length (filter (λ p, p = 5) positions) = 4%nat)
  ∧ (∀ alloc_ok img d block_size contrast_threshold n positions n' row col,
       valid_image img d → 0 < block_size →
       find_low_contrast_positions alloc_ok img block_size contrast_threshold n
         = Some (0, positions, n') →
       0 ≤ row < Z.abs (height img) → 0 ≤ col < width img →
       length (filter (λ p, p = row * width img + col) positions)
       = length (filter (λ corner,
                    low_contrast img d block_size contrast_threshold corner
                      = true
                    ∧ covers block_size corner row col)
                   (window_offsets img block_size))).
Proof.
  split.
  - exists (create_test_image 4 4 50 50 50), 2, 1%float.
    do 2 eexists. split; [vm_compute; reflexivity|].
    split; [reflexivity|]. split; [reflexivity|].
    split; [|split; vm_compute; reflexivity].
    intros Hnd. apply NoDup_cons in Hnd as [_ Hnd].
    apply NoDup_cons in Hnd as [Hin _]. apply Hin.
    rewrite !elem_of_cons. tauto.
  - intros ok img d k t n positions n' row col Hv Hk Hfind Hrow Hcol.
    apply (find_valid_success ok img d) in Hfind as ->; [|done..].
    by apply selected_positions_count.
Qed.

(** ** Bit packing and unpacking *)

Lemma byte_of_bits_byte_bits b : 0 ≤ b < 256 → byte_of_bits (byte_bits b) = b.
Proof.
  intros Hb.
  assert (forallb (λ b, byte_of_bits (byte_bits b) =? b) (seqZ 0 256) = true)
    as Hall by (vm_compute; reflexivity).
  rewrite forallb_forall in Hall. apply Z.eqb_eq, Hall.
  apply list_elem_of_In, elem_of_seqZ. lia.
Qed.

Lemma byte_bits_length b : length (byte_bits b) = 8%nat.
Proof. reflexivity. Qed.

Lemma read_bits_spec ps :
  ∀ bs b0 pre post, length bs = length ps →
    for_each (λ bit_pos '(b, bit_index),
        bit ← (pre ++ bs ++ post) !! Z.to_nat bit_index;
        Some (Z.lor b (u8 (Z.shiftl bit bit_pos)), bit_index + 1))
      ps (b0, Z.of_nat (length pre))
    = Some (fold_left (λ b bp, Z.lor b (u8 (Z.shiftl (fst bp) (snd bp))))
              (zip bs ps) b0,
            Z.of_nat (length pre) + Z.of_nat (length ps)).
Proof.
  induction ps as [|p ps IH]; intros bs b0 pre post Hlen.
  { destruct bs; [|done]. simpl. do 2 f_equal. lia. }
  destruct bs as [|x bs]; [done|]. injection Hlen as Hlen.
  cbn [for_each zip zip_with fold_left fst snd length app].
  rewrite Nat2Z.id, list_lookup_middle by done. cbn [mbind option_bind].
  specialize (IH bs (Z.lor b0 (u8 (Z.shiftl x p))) (pre ++ [x]) post Hlen).
  rewrite length_app, <- app_assoc in IH. cbn [length app] in IH.
  replace (Z.of_nat (length pre) + 1) with (Z.of_nat (length pre + 1)) by lia.
  rewrite IH. do 2 f_equal. lia.
Qed.

Lemma read_byte_spec pre b post :
  0 ≤ b < 256 →
  read_byte (pre ++ byte_bits b ++ post) (Z.of_nat (length pre))
  = Some (b, Z.of_nat (length pre) + 8).
Proof.
  intros Hb. unfold read_byte.
  rewrite (read_bits_spec bit_positions (byte_bits b) 0 pre post) by done.
  fold (byte_of_bits (byte_bits b)). by rewrite byte_of_bits_byte_bits.
Qed.

Lemma read_bytes_loop bytes :
  ∀ idxs acc pre post,
    Forall (λ b, 0 ≤ b < 256) bytes → length idxs = length bytes →
    for_each (λ (_ : Z) '(bs, bit_index),
        '(b, bit_index') ← read_byte (pre ++ (bytes ≫= byte_bits) ++ post)
                             bit_index;
        Some (bs ++ [b], bit_index'))
      idxs (acc, Z.of_nat (length pre))
    = Some (acc ++ bytes,
            Z.of_nat (length pre) + 8 * Z.of_nat (length bytes)).
Proof.
  induction bytes as [|b bytes IH]; intros idxs acc pre post Hbytes Hlen.
  { destruct idxs; [|done]. simpl. rewrite app_nil_r. do 2 f_equal. lia. }
  destruct idxs as [|i idxs]; [done|]. injection Hlen as Hlen.
  apply Forall_cons in Hbytes as [Hb Hbytes].
  cbn [for_each]. change ((b :: bytes) ≫= byte_bits)
    with (byte_bits b ++ (bytes ≫= byte_bits)).
  rewrite <- (app_assoc (byte_bits b)), read_byte_spec by done.
  cbn [mbind option_bind].
  specialize (IH idxs (acc ++ [b]) (pre ++ byte_bits b) post Hbytes Hlen).
  rewrite length_app, byte_bits_length, <- !app_assoc in IH.
  replace (Z.of_nat (length pre) + 8) with (Z.of_nat (length pre + 8)) by lia.
  rewrite IH. cbn [length app]. do 2 f_equal. lia.
Qed.

Lemma read_bytes_spec bytes pre post :
  Forall (λ b, 0 ≤ b < 256) bytes →
  read_bytes (pre ++ (bytes ≫= byte_bits) ++ post)
    (Z.of_nat (length bytes)) (Z.of_nat (length pre))
  = Some (bytes, Z.of_nat (length pre) + 8 * Z.of_nat (length bytes)).
Proof.
  intros Hbytes. unfold read_bytes.
  rewrite (read_bytes_loop bytes _ [] pre post Hbytes); [done|].
  rewrite length_seqZ. lia.
Qed.

Lemma testbit_255 i : 0 ≤ i → Z.testbit 255 i = (i <? 8).
Proof. intros Hi. change 255 with (Z.ones 8). by rewrite Z.testbit_ones by lia; destruct (Z.leb_spec 0 i); [|lia]. Qed.

Lemma length_header_bytes message_len :
  Forall (λ b, 0 ≤ b < 256) (length_header message_len).
Proof.
  unfold length_header, u8.
  repeat (constructor; [apply Z.mod_pos_bound; lia|]). constructor.
Qed.

Lemma header_term_bit L k i :
  0 ≤ i → 0 ≤ k →
  Z.testbit (u32 (Z.shiftl (u8 (Z.land (Z.shiftr L k) 255)) k)) i
  = (i <? 32) && (k <=? i) && (i <? k + 8) && Z.testbit L i.
Proof.
  intros Hi Hk. unfold u32, u8.
  rewrite Z.testbit_mod_pow2, Z.shiftl_spec by lia.
  destruct (Z.leb_spec k i) as [Hle|Hlt].
  - rewrite Z.testbit_mod_pow2, Z.land_spec, Z.shiftr_spec, testbit_255 by lia.
    replace (i - k + k) with i by lia.
    destruct (Z.ltb_spec (i - k) 8), (Z.ltb_spec i (k + 8)); try lia;
      destruct (i <? 32), (Z.testbit L i); done.
  - rewrite Z.testbit_neg_r by lia. by rewrite andb_false_r.
Qed.

Lemma length_header_decode L b0 b1 b2 b3 :
  0 ≤ L < 2 ^ 32 →
  length_header L = [b0; b1; b2; b3] →
  Z.lor (Z.lor (Z.lor (Z.lor 0 b0) (u32 (Z.shiftl b1 8)))
           (u32 (Z.shiftl b2 16))) (u32 (Z.shiftl b3 24)) = L.
Proof.
  intros HL [= <- <- <- <-].
  assert (u32 L = L) as -> by (apply Z.mod_small; lia).
  apply Z.bits_inj'. intros i Hi.
  rewrite !Z.lor_spec, Z.bits_0, !header_term_bit by lia.
  unfold u8. rewrite Z.testbit_mod_pow2, Z.land_spec, testbit_255 by lia.
  destruct (Z.ltb_spec i 32) as [H32|H32].
  - destruct (Z.ltb_spec i 8), (Z.leb_spec 8 i), (Z.ltb_spec i (8 + 8)),
      (Z.leb_spec 16 i), (Z.ltb_spec i (16 + 8)), (Z.leb_spec 24 i),
      (Z.ltb_spec i (24 + 8)); try lia; destruct (Z.testbit L i); done.
  - rewrite (Z.bits_above_log2 L i); [by rewrite !andb_false_r| lia |].
    destruct (Z.eq_dec L 0) as [->|]; [simpl; lia|].
    assert (Z.log2 L < 32) by (apply Z.log2_lt_pow2; lia). lia.
Qed.

Lemma pack_message_loop m :
  ∀ pre bits,
    for_each (λ i bitstream,
        b ← (pre ++ m) !! Z.to_nat i;
        Some (bitstream ++ byte_bits b))
      (seqZ (Z.of_nat (length pre)) (Z.of_nat (length m))) bits
    = Some (bits ++ (m ≫= byte_bits)).
Proof.
  induction m as [|b m IH]; intros pre bits.
  { simpl. by rewrite app_nil_r. }
  rewrite seqZ_cons by (cbn [length]; lia). cbn [for_each].
  rewrite Nat2Z.id, list_lookup_middle by done. cbn [mbind option_bind].
  specialize (IH (pre ++ [b]) (bits ++ byte_bits b)).
  rewrite length_app, <- app_assoc in IH. cbn [length app] in IH.
  replace (Z.succ (Z.of_nat (length pre))) with (Z.of_nat (length pre + 1))
    by lia.
  replace (Z.pred (Z.of_nat (length (b :: m)))) with (Z.of_nat (length m))
    by (cbn [length]; lia).
  rewrite IH. change ((b :: m) ≫= byte_bits)
    with (byte_bits b ++ (m ≫= byte_bits)).
  by rewrite <- app_assoc.
Qed.

Lemma bind_byte_bits_length m :
  Z.of_nat (length (m ≫= byte_bits)) = 8 * Z.of_nat (length m).
Proof.
  induction m as [|b m IH]; [done|].
  change ((b :: m) ≫= byte_bits) with (byte_bits b ++ (m ≫= byte_bits)).
  rewrite length_app, byte_bits_length. cbn [length]. lia.
Qed.

(** Every packed bit is 0 or 1. *)
Lemma byte_bits_bit b bit : bit ∈ byte_bits b → u8 (Z.land bit 1) = bit.
Proof.
  unfold byte_bits. intros (pos & -> & _)%list_elem_of_fmap.
  assert (∀ x, u8 (Z.land x 1) = Z.land x 1) as Hu8.
  { intros x. apply Z.bits_inj'. intros i Hi. unfold u8.
    rewrite Z.testbit_mod_pow2, Z.land_spec, testbit_1 by lia.
    destruct (Z.eqb_spec i 0) as [->|]; [|by rewrite !andb_false_r].
    by rewrite andb_true_l. }
  rewrite !Hu8. by rewrite <- Z.land_assoc.
Qed.

Lemma bind_byte_bits_bit m bit :
  bit ∈ m ≫= byte_bits → u8 (Z.land bit 1) = bit.
Proof.
  intros (b & Hbit & _)%list_elem_of_bind. by apply (byte_bits_bit b).
Qed.

(** ** Extraction reads the stream of lowest bits *)

Lemma pixel_base_channel img d p ch :
  valid_image img d → 0 ≤ p < width img * Z.abs (height img) → 0 ≤ ch < 3 →
  ∃ base, pixel_base img p = Some base
          ∧ channel_index base ch = pixel_channel img p ch
          ∧ (pixel_channel img p ch < length d)%nat.
Proof.
  intros Hv Hp Hch. destruct (pixel_base_valid img d p Hv Hp) as (Hb & Hr & Hc).
  eexists. split; [done|]. unfold pixel_channel.
  split; [by apply (channel_index_valid img d)|].
  destruct (channel_offset_bounds img d (p / width img) (p mod width img) ch)
    as [? _]; [done..|]. lia.
Qed.

Lemma channels_range ch : ch ∈ channels → 0 ≤ ch < 3.
Proof. unfold channels. rewrite !elem_of_cons, elem_of_nil. lia. Qed.

Section ExtractLoop.

Variables (img : BmpImage) (d : list Z) (total_bits : Z).
Hypothesis Hvalid : valid_image img d.

Lemma extract_channels_spec p base chs :
  (∀ ch, ch ∈ chs → channel_index base ch = pixel_channel img p ch
                   ∧ (pixel_channel img p ch < length d)%nat) →
  ∀ bi acc,
    for_while (bits_left total_bits) (extract_channel d base) chs (bi, acc)
    = Some (bi + Z.of_nat (length (take (Z.to_nat (total_bits - bi)) chs)),
            acc ++ take (Z.to_nat (total_bits - bi)) (lsb_at img d p <$> chs)).
Proof.
  induction chs as [|ch chs IH]; intros Hchs bi acc.
  { cbn [for_while fmap list_fmap]. rewrite !take_nil, app_nil_r.
    cbn [length]. do 2 f_equal. lia. }
  cbn [for_while]. unfold bits_left at 1. cbn [fst].
  destruct (Z.ltb_spec bi total_bits) as [Hlt|Hge].
  2:{ replace (Z.to_nat (total_bits - bi)) with 0%nat by lia.
      cbn. rewrite app_nil_r. do 2 f_equal. lia. }
  destruct (Hchs ch) as [Hidx Hlen]; [apply elem_of_cons; auto|].
  unfold extract_channel at 1. rewrite Hidx.
  destruct (lookup_lt_is_Some_2 d (pixel_channel img p ch) Hlen) as [v Hv].
  rewrite Hv. cbn [mbind option_bind].
  rewrite IH by (intros; apply Hchs, elem_of_cons; auto).
  replace (Z.to_nat (total_bits - bi))
    with (S (Z.to_nat (total_bits - (bi + 1)))) by lia.
  cbn [take fmap list_fmap length]. fold (@fmap list _).
  unfold lsb_at at 2. rewrite (list_lookup_total_correct _ _ _ Hv).
  rewrite <- app_assoc. cbn [app]. do 2 f_equal. lia.
Qed.

Lemma extract_pixels_spec positions :
  positions_inside img positions →
  ∀ bi acc,
    ∃ bi',
      for_while (bits_left total_bits)
        (λ pixel_index st,
           base ← pixel_base img pixel_index;
           for_while (bits_left total_bits) (extract_channel d base)
             channels st)
        positions (bi, acc)
      = Some (bi', acc ++ take (Z.to_nat (total_bits - bi))
                            (lsb_stream img d positions))
      ∧ (total_bits - bi ≤ 3 * Z.of_nat (length positions) →
         ¬ bi' < total_bits).
Proof.
  induction positions as [|p positions IH]; intros Hin bi acc.
  { exists bi. change (lsb_stream img d []) with (@nil Z).
    rewrite take_nil, app_nil_r. split; [done|]. cbn [length]. lia. }
  apply Forall_cons in Hin as [Hp Hin]. cbn [for_while].
  unfold bits_left at 1. cbn [fst].
  destruct (Z.ltb_spec bi total_bits) as [Hlt|Hge].
  2:{ exists bi. replace (Z.to_nat (total_bits - bi)) with 0%nat by lia.
      rewrite take_0, app_nil_r. split; [done|lia]. }
  destruct (pixel_base_channel img d p 0 Hvalid Hp) as (base & Hbase & _);
    [lia|].
  rewrite Hbase. cbn [mbind option_bind].
  rewrite (extract_channels_spec p base channels).
  2:{ intros ch Hch%channels_range.
      destruct (pixel_base_channel img d p ch Hvalid Hp Hch)
        as (base' & Hbase' & ? & ?). by simplify_eq. }
  destruct (IH Hin
              (bi + Z.of_nat (length (take (Z.to_nat (total_bits - bi))
                                        channels)))
              (acc ++ take (Z.to_nat (total_bits - bi))
                        (lsb_at img d p <$> channels)))
    as (bi' & -> & Hdone).
  exists bi'. split.
  - f_equal. f_equal. rewrite <- app_assoc. f_equal.
    change (lsb_stream img d (p :: positions))
      with ((lsb_at img d p <$> channels) ++ lsb_stream img d positions).
    rewrite take_app, length_fmap. f_equal. f_equal.
    rewrite length_take. cbn [length channels]. lia.
  - intros Hcap. apply Hdone. rewrite length_take. cbn [length channels] in *.
    lia.
Qed.

Lemma extract_bits_spec positions :
  positions_inside img positions →
  total_bits ≤ 3 * Z.of_nat (length positions) →
  extract_bits img positions total_bits
  = Some (0, take (Z.to_nat total_bits) (lsb_stream img d positions)).
Proof.
  intros Hin Hcap. destruct Hvalid as (Hd & _).
  unfold extract_bits. rewrite Hd. cbn [mbind option_bind].
  destruct (extract_pixels_spec positions Hin 0 []) as (bi' & -> & Hdone).
  cbn [mbind option_bind app]. rewrite Z.sub_0_r.
  destruct (Z.ltb_spec bi' total_bits) as [Hlt|_]; [|done].
  exfalso. apply Hdone; lia.
Qed.

End ExtractLoop.

(** ** Embedding writes the bits where extraction reads them *)

Lemma pixel_channel_inj img d p q ch ch' :
  valid_image img d →
  0 ≤ p < width img * Z.abs (height img) →
  0 ≤ q < width img * Z.abs (height img) →
  0 ≤ ch < 3 → 0 ≤ ch' < 3 →
  pixel_channel img p ch = pixel_channel img q ch' → p = q ∧ ch = ch'.
Proof.
  intros Hv Hp Hq Hch Hch' Heq. pose proof Hv as (_ & HW & _ & Hs & _).
  destruct (pixel_base_valid img d p Hv Hp) as (_ & Hpr & Hpc).
  destruct (pixel_base_valid img d q Hv Hq) as (_ & Hqr & Hqc).
  unfold pixel_channel in Heq. apply Z2Nat.inj in Heq.
  - apply channel_offset_inj in Heq as (Hr & Hc & ->); [|lia..].
    split; [|done].
    rewrite (Z.div_mod p (width img)), (Z.div_mod q (width img)) by lia.
    by rewrite Hr, Hc.
  - by apply (channel_offset_bounds img d).
  - by apply (channel_offset_bounds img d).
Qed.

Section EmbedTotal.

Variables (img : BmpImage) (d0 : list Z) (bitstream : list Z) (total_bits : Z).
Hypothesis Hvalid : valid_image img d0.
Hypothesis Hbits : total_bits ≤ Z.of_nat (length bitstream).

Lemma embed_channels_total p base chs :
  (∀ ch, ch ∈ chs → channel_index base ch = pixel_channel img p ch
                   ∧ (pixel_channel img p ch < length d0)%nat) →
  NoDup (pixel_channel img p <$> chs) →
  ∀ bi d, 0 ≤ bi → length d = length d0 →
    ∃ bi' d',
      for_while (bits_left total_bits) (embed_channel bitstream base) chs
        (bi, d) = Some (bi', d')
      ∧ length d' = length d0
      ∧ (bi ≤ total_bits → bi' = Z.min total_bits (bi + Z.of_nat (length chs)))
      ∧ ∀ (j : nat) ch, chs !! j = Some ch → bi + Z.of_nat j < total_bits →
          ∃ v bit, d' !! pixel_channel img p ch = Some v
                   ∧ bitstream !! Z.to_nat (bi + Z.of_nat j) = Some bit
                   ∧ Z.land v 1 = Z.land bit 1.
Proof.
  induction chs as [|ch chs IH]; intros Hchs Hnd bi d Hbi Hlen.
  { exists bi, d. cbn [for_while length]. repeat split; [done|lia|done]. }
  cbn [fmap list_fmap] in Hnd. fold (@fmap list _) in Hnd.
  apply NoDup_cons in Hnd as [Hfresh Hnd].
  cbn [for_while]. unfold bits_left at 1. cbn [fst].
  destruct (Z.ltb_spec bi total_bits) as [Hlt|Hge].
  2:{ exists bi, d. cbn [length]. repeat split; [done|lia|].
      intros j ch' _ ?. lia. }
  destruct (Hchs ch) as [Hidx Hin]; [apply elem_of_cons; auto|].
  rewrite <- Hlen in Hin.
  destruct (lookup_lt_is_Some_2 d (pixel_channel img p ch) Hin) as [v Hv].
  destruct (lookup_lt_is_Some_2 bitstream (Z.to_nat bi)) as [bit Hbit]; [lia|].
  unfold embed_channel at 1. rewrite Hidx, Hv, Hbit. cbn [mbind option_bind].
  set (v' := u8 (Z.lor (Z.land v 254) (u8 (Z.land bit 1)))).
  destruct (IH (λ c Hc, Hchs c ltac:(apply elem_of_cons; auto)) Hnd
              (bi + 1) (<[pixel_channel img p ch := v']> d))
    as (bi' & d' & Hloop & Hlen' & Hbi' & Hcontent);
    [lia|by rewrite length_insert|].
  exists bi', d'. rewrite Hloop. split; [done|]. split; [done|].
  split; [cbn [length]; lia|].
  intros [|j] ch' Hj Hjlt.
  - injection Hj as <-. exists v', bit.
    rewrite Z.add_0_r. split; [|split; [done|apply embedded_byte_lowest_bit]].
    apply embed_channels_spec in Hloop as (_ & _ & _ & Hframe).
    rewrite Hframe; [by apply list_lookup_insert_eq|].
    intros j' ch'' Hj' _ Heq. apply Hfresh.
    destruct (Hchs ch'') as [Hidx'' _];
      [apply elem_of_cons; right; by eapply list_elem_of_lookup_2|].
    rewrite Heq, Hidx''. apply list_elem_of_fmap_2.
    by eapply list_elem_of_lookup_2.
  - destruct (Hcontent j ch' Hj) as (w & b' & ? & ? & ?); [lia|].
    exists w, b'. split; [done|]. split; [|done].
    by replace (bi + Z.of_nat (S j)) with (bi + 1 + Z.of_nat j) by lia.
Qed.

Lemma channels_pixel_NoDup p :
  0 ≤ p < width img * Z.abs (height img) →
  NoDup (pixel_channel img p <$> channels).
Proof.
  intros Hp. apply NoDup_fmap_2_strong.
  - intros c1 c2 H1%channels_range H2%channels_range Heq.
    by apply (pixel_channel_inj img d0 p p c1 c2) in Heq as [_ ?].
  - unfold channels. repeat (apply NoDup_cons; split;
      [rewrite ?elem_of_cons, ?elem_of_nil; lia|]). apply NoDup_nil_2.
Qed.

Lemma embed_pixels_total positions :
  positions_inside img positions →
  ∀ bi d, 0 ≤ bi → length d = length d0 →
    (∀ (i i' : nat) p, positions !! i = Some p → positions !! i' = Some p →
       bi + 3 * Z.of_nat i < total_bits → bi + 3 * Z.of_nat i' < total_bits →
       i = i') →
    ∃ bi' d',
      for_while (bits_left total_bits)
        (λ pixel_index st,
           base ← pixel_base img pixel_index;
           for_while (bits_left total_bits) (embed_channel bitstream base)
             channels st)
        positions (bi, d) = Some (bi', d')
      ∧ length d' = length d0
      ∧ (bi ≤ total_bits →
         bi' = Z.min total_bits (bi + 3 * Z.of_nat (length positions)))
      ∧ ∀ (i j : nat) p ch,
          positions !! i = Some p → channels !! j = Some ch →
          bi + 3 * Z.of_nat i + Z.of_nat j < total_bits →
          ∃ v bit, d' !! pixel_channel img p ch = Some v
                   ∧ bitstream !! Z.to_nat (bi + 3 * Z.of_nat i + Z.of_nat j)
                     = Some bit
                   ∧ Z.land v 1 = Z.land bit 1.
Proof.
  induction positions as [|p positions IH]; intros Hin bi d Hbi Hlen Hdist.
  { exists bi, d. cbn [for_while length]. repeat split; [done|lia|done]. }
  pose proof Hin as Hin0. apply Forall_cons in Hin as [Hp Hin].
  cbn [for_while]. unfold bits_left at 1. cbn [fst].
  destruct (Z.ltb_spec bi total_bits) as [Hlt|Hge].
  2:{ exists bi, d. cbn [length]. repeat split; [done|lia|].
      intros i j q ch _ _ ?. lia. }
  destruct (pixel_base_channel img d0 p 0 Hvalid Hp) as (base & Hbase & _);
    [lia|].
  rewrite Hbase. cbn [mbind option_bind].
  destruct (embed_channels_total p base channels) with (bi := bi) (d := d)
    as (bi1 & d1 & Hpix & Hlen1 & Hbi1 & Hcontent1); [| |done..|].
  { intros ch Hch%channels_range.
    destruct (pixel_base_channel img d0 p ch Hvalid Hp Hch)
      as (base' & Hbase' & ? & ?). by simplify_eq. }
  { by apply channels_pixel_NoDup. }
  specialize (Hbi1 ltac:(lia)). cbn [length channels] in Hbi1.
  rewrite Hpix.
  destruct (IH Hin bi1 d1) as (bi' & d' & Hloop & Hlen' & Hbi' & Hcontent);
    [lia|done| |].
  { intros i i' q Hi Hi' Hlti Hlti'.
    assert (S i = S i') as [= ->]; [|done].
    apply (Hdist (S i) (S i') q); [done|done|lia|lia]. }
  exists bi', d'. rewrite Hloop. split; [done|]. split; [done|].
  split; [cbn [length]; lia|].
  intros [|i] j q ch Hq Hj Hjlt.
  - injection Hq as <-.
    destruct (Hcontent1 j ch Hj) as (v & bit & Hv & Hbit & Hlsb); [lia|].
    exists v, bit. rewrite Z.mul_0_r, Z.add_0_r.
    split; [|done].
    apply embed_pixels_spec in Hloop as [_ Hframe].
    rewrite Hframe; [done|].
    intros i' j' q base' ch' Hq Hbase' Hj' Hlt' Heq.
    eapply Forall_lookup_1 in Hin as Hqin; [|done].
    apply channels_lookup in Hj as [_ Hch], Hj' as [_ Hch'].
    destruct (pixel_base_channel img d0 q ch' Hvalid Hqin Hch')
      as (base'' & Hbase'' & Hidx & _).
    assert (base'' = base') as -> by congruence.
    rewrite Hidx in Heq.
    apply (pixel_channel_inj img d0) in Heq as [<- _]; [|done..].
    specialize (Hdist 0%nat (S i') p eq_refl Hq). lia.
  - destruct (Hcontent i j q ch Hq Hj) as (w & b' & ? & ? & ?); [lia|].
    exists w, b'. split; [done|]. split; [|done].
    by replace (bi + 3 * Z.of_nat (S i) + Z.of_nat j)
      with (bi1 + 3 * Z.of_nat i + Z.of_nat j) by lia.
Qed.

End EmbedTotal.

(** ** The selection on the mutated image *)

Lemma for_while_invariant {A S} (P : S → Prop) (cond : S → bool)
    (body : A → S → option S) l :
  (∀ x s s', P s → body x s = Some s' → P s') →
  ∀ s s', P s → for_while cond body l s = Some s' → P s'.
Proof.
  intros Hbody. induction l as [|x l IH]; intros s s' Hs; cbn [for_while].
  { by intros [= <-]. }
  destruct (cond s); [|by intros [= <-]].
  destruct (body x s) as [s1|] eqn:Hx; [|done]. apply IH. by eapply Hbody.
Qed.

Lemma embed_bits_bytes img positions bitstream total_bits rc d d' :
  data img = Some d → Forall (λ b, 0 ≤ b < 256) d →
  embed_bits img positions bitstream total_bits = Some (rc, set_data img d') →
  Forall (λ b, 0 ≤ b < 256) d'.
Proof.
  intros Hd Hbytes. unfold embed_bits. rewrite Hd. cbn [mbind option_bind].
  destruct (for_while _ _ _ _) as [[bi d1]|] eqn:Hloop; cbn [mbind option_bind];
    [|done].
  destruct (bi =? total_bits); [|done]. intros [= _ <-].
  revert Hloop.
  apply (for_while_invariant (λ st, Forall (λ b, 0 ≤ b < 256) (snd st)));
    [|done].
  intros p s s' Hs. destruct (pixel_base img p) as [base|]; [|done].
  cbn [mbind option_bind]. revert s s' Hs.
  apply for_while_invariant. intros ch [bi0 d0] [bi2 d2] Hs.
  unfold embed_channel. destruct (d0 !! _); [|done].
  destruct (bitstream !! _); [|done]. cbn [mbind option_bind snd].
  intros [= _ <-]. apply Forall_insert; [done|].
  unfold u8. apply Z.mod_pos_bound. lia.
Qed.

Lemma valid_image_set_data img d d' :
  valid_image img d → length d' = length d →
  Forall (λ b, 0 ≤ b < 256) d' → valid_image (set_data img d') d'.
Proof.
  intros (Hd & HW & HH & Hs & Hsz & Hmax & Hlen & _) Hlen' Hbytes.
  unfold valid_image. cbn. rewrite Hlen'. auto 10.
Qed.

Lemma land_254_lookup_total d d' i :
  upper_bits d' = upper_bits d →
  Z.land (d' !!! i) 254 = Z.land (d !!! i) 254.
Proof.
  intros Hup. pose proof (upper_bits_lookup d d' i Hup) as Heq.
  rewrite !list_lookup_total_alt.
  destruct (d' !! i), (d !! i); simplify_eq/=; done.
Qed.

Lemma lum_at_upper_bits img d d' cell :
  upper_bits d' = upper_bits d →
  lum_at (set_data img d') d' cell = lum_at img d cell.
Proof.
  intros Hup. unfold lum_at, channel_offset. cbn [stride set_data].
  by rewrite !(land_254_lookup_total d d').
Qed.

Lemma bind_ext {A B} (f g : A → list B) l :
  (∀ x, f x = g x) → l ≫= f = l ≫= g.
Proof.
  intros Hfg. induction l as [|x l IH]; [done|].
  change ((x :: l) ≫= ?h) with (h x ++ (l ≫= h)). by rewrite Hfg, IH.
Qed.

Lemma selected_positions_upper_bits img d d' k t :
  upper_bits d' = upper_bits d →
  selected_positions (set_data img d') d' k t = selected_positions img d k t.
Proof.
  intros Hup. unfold selected_positions.
  change (window_offsets (set_data img d') k) with (window_offsets img k).
  apply bind_ext. intros corner. unfold low_contrast.
  cbn [width set_data].
  replace (lum_at (set_data img d') d' <$> block_cells k corner.1 corner.2)
    with (lum_at img d <$> block_cells k corner.1 corner.2); [done|].
  apply list_fmap_ext. intros i cell _. symmetry. by apply lum_at_upper_bits.
Qed.

Lemma selected_positions_inside img d k t :
  valid_image img d → 0 < k →
  positions_inside img (selected_positions img d k t).
Proof.
  intros Hv Hk. apply Forall_forall. intros p Hp.
  unfold selected_positions in Hp.
  apply list_elem_of_bind in Hp as (corner & Hp & Hcorner).
  apply (window_offsets_inside img k corner Hk) in Hcorner.
  destruct (low_contrast img d k t corner); [|by apply elem_of_nil in Hp].
  apply list_elem_of_fmap in Hp as ([row col] & -> & Hcell).
  apply (block_cells_inside img) in Hcell as [Hr Hc]; [|done].
  cbn [fst snd] in *. destruct (valid_image_bounds img d Hv) as (HW & HH & _).
  nia.
Qed.


(** ** The round trip when no used pixel is named twice *)

Lemma lsb_stream_lookup img d positions (i j : nat) p ch :
  positions !! i = Some p → channels !! j = Some ch →
  lsb_stream img d positions !! (3 * i + j)%nat = Some (lsb_at img d p ch).
Proof.
  intros Hp Hj. assert (j < 3)%nat as Hj3
    by (apply lookup_lt_Some in Hj; simpl in Hj; lia).
  revert i Hp. induction positions as [|q positions IH]; intros i Hp; [done|].
  change (lsb_stream img d (q :: positions))
    with ((lsb_at img d q <$> channels) ++ lsb_stream img d positions).
  destruct i as [|i].
  - injection Hp as ->. replace (3 * 0 + j)%nat with j by lia.
    rewrite lookup_app_l by (rewrite length_fmap; simpl; lia).
    by rewrite list_lookup_fmap, Hj.
  - rewrite lookup_app_r by (rewrite length_fmap; simpl; lia).
    rewrite length_fmap. cbn [length channels].
    replace (3 * S i + j - 3)%nat with (3 * i + j)%nat by lia. by apply IH.
Qed.

Lemma lsb_stream_length img d positions :
  length (lsb_stream img d positions) = (3 * length positions)%nat.
Proof.
  induction positions as [|q positions IH]; [done|].
  change (lsb_stream img d (q :: positions))
    with ((lsb_at img d q <$> channels) ++ lsb_stream img d positions).
  rewrite length_app, length_fmap, IH. cbn [length channels]. lia.
Qed.

(** The stream read back from the mutated buffer starts with the embedded
    bits. *)
Lemma lsb_stream_embedded img d' positions bitstream total_bits (T : nat) :
  Z.of_nat T ≤ total_bits →
  total_bits ≤ 3 * Z.of_nat (length positions) →
  total_bits ≤ Z.of_nat (length bitstream) →
  (∀ bit, bit ∈ bitstream → u8 (Z.land bit 1) = bit) →
  (∀ (i j : nat) p ch,
     positions !! i = Some p → channels !! j = Some ch →
     0 + 3 * Z.of_nat i + Z.of_nat j < total_bits →
     ∃ v bit, d' !! pixel_channel img p ch = Some v
              ∧ bitstream !! Z.to_nat (0 + 3 * Z.of_nat i + Z.of_nat j)
                = Some bit
              ∧ Z.land v 1 = Z.land bit 1) →
  take T (lsb_stream img d' positions) = take T bitstream.
Proof.
  intros HT Hcap Hlen Hbits Hcontent. apply list_eq. intros k.
  destruct (decide (k < T)%nat) as [Hk|Hk].
  2:{ by rewrite !lookup_take_ge by lia. }
  rewrite !lookup_take_lt by done.
  set (i := (k / 3)%nat). set (j := (k mod 3)%nat).
  assert (k = 3 * i + j)%nat as Hkij by (apply Nat.div_mod; lia).
  assert (j < 3)%nat as Hj3 by (apply Nat.mod_upper_bound; lia).
  destruct (lookup_lt_is_Some_2 positions i) as [p Hp]; [lia|].
  destruct (lookup_lt_is_Some_2 channels j) as [ch Hch]; [simpl; lia|].
  destruct (Hcontent i j p ch Hp Hch) as (v & bit & Hv & Hbit & Hlsb); [lia|].
  rewrite Hkij, (lsb_stream_lookup img d' positions i j p ch) by done.
  replace (Z.to_nat (0 + 3 * Z.of_nat i + Z.of_nat j)) with (3 * i + j)%nat
    in Hbit by lia.
  rewrite Hbit. f_equal. unfold lsb_at.
  rewrite (list_lookup_total_correct _ _ _ Hv), Hlsb.
  apply Hbits. by eapply list_elem_of_lookup_2.
Qed.

Lemma length_header_length L : length (length_header L) = 4%nat.
Proof. reflexivity. Qed.

(** The round trip for granted allocations: the encoder succeeds and only
    rewrites the pixel buffer, and the decoder, started at any request number
    from which the allocations are granted, returns the message. *)
Lemma round_trip_granted ok img d message k t n :
  valid_image img d → 0 < k →
  Forall (λ b, 0 ≤ b < 256) message →
  Z.of_nat (length message) < 2 ^ 32 →
  (∀ m, (n ≤ m)%nat → ok m = true) →
  (4 + Z.of_nat (length message)) * 8
    ≤ 3 * Z.of_nat (length (selected_positions img d k t)) →
  distinct_used (selected_positions img d k t)
    ((4 + Z.of_nat (length message)) * 8) →
  ∃ d' n1,
    (n ≤ n1)%nat
    ∧ steg_encode_message ok img (Some message) (Z.of_nat (length message))
        k t n = Some (0, set_data img d', S n1)
    ∧ length d' = length d
    ∧ Forall (λ b, 0 ≤ b < 256) d'
    ∧ ∀ m, (∀ j, (m ≤ j)%nat → ok j = true) →
        ∃ n2, steg_decode_message ok (set_data img d') k t m
              = Some (0, Some message, Z.of_nat (length message), n2).
Proof.
  intros Hv Hk Hmsg HL Hok Hcap Hdist.
  set (L := Z.of_nat (length message)) in *.
  set (positions := selected_positions img d k t) in *.
  set (total := (4 + L) * 8) in *.
  set (bitstream := (length_header L ≫= byte_bits) ++ (message ≫= byte_bits)).
  pose proof Hv as (Hd & _).
  pose proof (selected_positions_length img d k t Hv Hk) as Hplen.
  fold positions in Hplen.
  pose proof (selected_positions_inside img d k t Hv Hk) as Hinside.
  fold positions in Hinside.
  assert (Z.of_nat (length bitstream) = total) as Hblen.
  { unfold bitstream. rewrite length_app, Nat2Z.inj_add, !bind_byte_bits_length,
      length_header_length. unfold total, L. lia. }
  assert (∀ bit, bit ∈ bitstream → u8 (Z.land bit 1) = bit) as Hbits.
  { intros bit [?|?]%elem_of_app; by eapply bind_byte_bits_bit. }
  assert (size_t (size_t (Z.of_nat (length positions)) * 3)
          = Z.of_nat (length positions) * 3) as Hcapsz.
  { rewrite (size_t_small (Z.of_nat (length positions))) by lia.
    apply size_t_small. lia. }
  assert (size_t (size_t (4 + L) * 8) = total) as Hreqsz.
  { rewrite (size_t_small (4 + L)) by (unfold L; lia).
    apply size_t_small. unfold total, L. lia. }
  (* encoding *)
  destruct (find_valid_granted ok img d k t n Hv Hk Hok) as (n1 & Hn1 & Hfind).
  destruct (embed_pixels_total img d bitstream total Hv ltac:(lia) positions
              Hinside 0 d) as (bi' & d' & Hloop & Hlen' & Hbi' & Hcontent);
    [lia|done| |].
  { intros i i' p Hi Hi' ? ?. apply (Hdist i i' p); auto; lia. }
  specialize (Hbi' ltac:(unfold total, L; lia)).
  assert (bi' = total) as -> by lia.
  assert (embed_bits img positions bitstream total
          = Some (0, set_data img d')) as Hembed.
  { unfold embed_bits. rewrite Hd. cbn [mbind option_bind]. rewrite Hloop.
    cbn [mbind option_bind]. by rewrite Z.eqb_refl. }
  pose proof (embed_bits_spec _ _ _ _ _ _ Hembed)
    as (d1 & d2 & Hd1 & Hset & _ & Hup & _).
  assert (d1 = d) as -> by congruence.
  assert (d2 = d') as -> by (by injection Hset).
  exists d', n1. split; [done|].
  assert (steg_encode_message ok img (Some message) L k t n
          = Some (0, set_data img d', S n1)) as Henc.
  { unfold steg_encode_message. rewrite Hd.
    rewrite bool_decide_eq_false_2 by done. cbn [andb].
    rewrite Hfind. cbn [mbind option_bind]. change (0 =? 0) with true.
    cbn [negb]. fold positions. rewrite Hcapsz, Hreqsz.
    destruct (Z.ltb_spec (Z.of_nat (length positions) * 3) total); [lia|].
    rewrite Hok by lia. cbn [negb].
    pose proof (pack_message_loop message [] (length_header L ≫= byte_bits))
      as Hpack.
    cbn [length app] in Hpack. change (Z.of_nat 0) with 0 in Hpack.
    fold L in Hpack. fold bitstream in Hpack.
    cbn [mbind option_bind]. rewrite Hpack. cbn [mbind option_bind].
    rewrite Hblen, Z.eqb_refl. rewrite Hembed. done. }
  (* decoding *)
  assert (valid_image (set_data img d') d') as Hv'.
  { apply (valid_image_set_data img d); [done|done|].
    eapply embed_bits_bytes; [done| |done]. by destruct Hv as (_&_&_&_&_&_&_&?). }
  split; [done|]. split; [done|].
  split; [by destruct Hv' as (_&_&_&_&_&_&_&?)|].
  intros m0 Hok0.
  destruct (find_valid_granted ok (set_data img d') d' k t m0 Hv' Hk Hok0)
    as (n2 & Hn2 & Hfind').
  rewrite (selected_positions_upper_bits img d d' k t Hup) in Hfind'.
  fold positions in Hfind'.
  assert (positions_inside (set_data img d') positions) as Hinside' by done.
  assert (∀ T : nat, Z.of_nat T ≤ total →
            extract_bits (set_data img d') positions (Z.of_nat T)
            = Some (0, take T bitstream)) as Hextract.
  { intros T HT.
    rewrite (extract_bits_spec (set_data img d') d' (Z.of_nat T) Hv')
      by (done || lia).
    rewrite Nat2Z.id. do 2 f_equal.
    apply (lsb_stream_embedded (set_data img d') d' positions bitstream total);
      [done|lia|lia|done|]. exact Hcontent. }
  exists (S (S n2)).
  unfold steg_decode_message. cbn [data set_data].
  rewrite Hfind'. cbn [mbind option_bind]. change (0 =? 0) with true.
  cbn [negb]. rewrite Hcapsz.
  destruct (Z.ltb_spec (Z.of_nat (length positions) * 3) 32);
    [unfold total, L in *; lia|].
  change 32 with (Z.of_nat 32) at 2.
  rewrite (Hextract 32%nat) by (unfold total, L; lia).
  cbn [mbind option_bind]. change (0 =? 0) with true. cbn [negb].
  assert (take 32 bitstream = length_header L ≫= byte_bits) as ->.
  { unfold bitstream. by rewrite take_app_length'. }
  pose proof (read_bytes_spec (length_header L) [] []
                (length_header_bytes L)) as Hhdr.
  rewrite length_header_length, app_nil_r in Hhdr. cbn [app length] in Hhdr.
  change (Z.of_nat 4) with 4 in Hhdr. change (Z.of_nat 0) with 0 in Hhdr.
  rewrite Hhdr. cbn [mbind option_bind].
  destruct (length_header L) as [|b0 [|b1 [|b2 [|b3 [|]]]]] eqn:Hh; try done.
  cbn [lookup list_lookup mbind option_bind].
  rewrite (length_header_decode L b0 b1 b2 b3) by (done || unfold L; lia).
  rewrite Hreqsz.
  destruct (Z.ltb_spec (Z.of_nat (length positions) * 3) total); [lia|].
  rewrite Hok0 by lia. cbn [negb].
  rewrite <- (Z2Nat.id total) at 1 by (unfold total, L; lia).
  rewrite Hextract by lia. cbn [mbind option_bind]. change (0 =? 0) with true.
  cbn [negb]. rewrite Hok0 by lia. cbn [negb].
  rewrite take_ge by lia.
  pose proof (read_bytes_spec message ([b0; b1; b2; b3] ≫= byte_bits) [] Hmsg)
    as Hread.
  rewrite app_nil_r in Hread. fold bitstream L in Hread.
  change (Z.of_nat (length ([b0; b1; b2; b3] ≫= byte_bits))) with 32 in Hread.
  rewrite Hread. done.
Qed.

(** X1: the round trip holds as long as no pixel that receives a bit is
    named twice: on a valid image, for a message of bytes shorter than 2^32,
    with sufficient capacity and the allocations granted,
    [steg_encode_message] succeeds and [steg_decode_message] on its result
    returns the message. *)
Lemma round_trip_without_repeats ok img d message k t n :
  valid_image img d → 0 < k →
  Forall (λ b, 0 ≤ b < 256) message →
  Z.of_nat (length message) < 2 ^ 32 →
  (∀ m, (n ≤ m)%nat → ok m = true) →
  (4 + Z.of_nat (length message)) * 8
    ≤ 3 * Z.of_nat (length (selected_positions img d k t)) →
  distinct_used (selected_positions img d k t)
    ((4 + Z.of_nat (length message)) * 8) →
  ∃ img' n1 n2,
    steg_encode_message ok img (Some message) (Z.of_nat (length message)) k t n
      = Some (0, img', n1)
    ∧ steg_decode_message ok img' k t n1
      = Some (0, Some message, Z.of_nat (length message), n2).
Proof.
  intros Hv Hk Hmsg HL Hok Hcap Hdist.
  destruct (round_trip_granted ok img d message k t n Hv Hk Hmsg HL Hok Hcap
              Hdist) as (d' & n1 & Hn1 & Henc & _ & _ & Hdec).
  destruct (Hdec (S n1)) as [n2 Hn2]; [intros j Hj; apply Hok; lia|].
  by exists (set_data img d'), (S n1), n2.
Qed.

Lemma NoDup_distinct_used positions total_bits :
  NoDup positions → distinct_used positions total_bits.
Proof. intros Hnd i i' p Hi Hi' _ _. by eapply NoDup_lookup. Qed.

(** An instance: with a single window no pixel is named twice, and the
    two-byte message "Hi" survives the round trip through the 4x4 image. *)
Lemma round_trip_single_window :
  ∃ img' n1 n2,
    steg_encode_message always_ok (create_test_image 4 4 50 50 50)
      (Some [72; 105]) 2 4 1%float 0 = Some (0, img', n1)
    ∧ steg_decode_message always_ok img' 4 1%float n1
      = Some (0, Some [72; 105], 2, n2).
Proof.
  apply (round_trip_without_repeats always_ok (create_test_image 4 4 50 50 50)
           (replicate 48 50) [72; 105] 4 1%float 0%nat).
  - apply valid_test_image_4x4.
  - lia.
  - repeat (constructor; [lia|]). constructor.
  - simpl. lia.
  - reflexivity.
  - vm_compute. discriminate.
  - apply NoDup_distinct_used.
    assert (selected_positions (create_test_image 4 4 50 50 50)
              (replicate 48 50) 4 1%float = seqZ 0 16) as ->
      by (vm_compute; reflexivity).
    apply NoDup_seqZ.
Defined.

(** ** Extraction: the bits read and the return code *)

Section ExtractCount.

Variables (img : BmpImage) (d : list Z) (total_bits : Z).
Hypothesis Hvalid : valid_image img d.

Lemma extract_pixels_count positions :
  positions_inside img positions →
  ∀ bi acc,
    for_while (bits_left total_bits)
      (λ pixel_index st,
         base ← pixel_base img pixel_index;
         for_while (bits_left total_bits) (extract_channel d base)
           channels st)
      positions (bi, acc)
    = Some (bi + Z.of_nat (length (take (Z.to_nat (total_bits - bi))
                                     (lsb_stream img d positions))),
            acc ++ take (Z.to_nat (total_bits - bi))
                     (lsb_stream img d positions)).
Proof.
  induction positions as [|p positions IH]; intros Hin bi acc.
  { change (lsb_stream img d []) with (@nil Z).
    rewrite take_nil, app_nil_r. cbn [for_while length]. do 2 f_equal. lia. }
  apply Forall_cons in Hin as [Hp Hin]. cbn [for_while].
  unfold bits_left at 1. cbn [fst].
  destruct (Z.ltb_spec bi total_bits) as [Hlt|Hge].
  2:{ replace (Z.to_nat (total_bits - bi)) with 0%nat by lia.
      rewrite take_0, app_nil_r. cbn [length]. do 2 f_equal. lia. }
  destruct (pixel_base_channel img d p 0 Hvalid Hp) as (base & Hbase & _);
    [lia|].
  rewrite Hbase. cbn [mbind option_bind].
  rewrite (extract_channels_spec img d total_bits p base channels).
  2:{ intros ch Hch%channels_range.
      destruct (pixel_base_channel img d p ch Hvalid Hp Hch)
        as (base' & Hbase' & ? & ?). by simplify_eq. }
  rewrite (IH Hin).
  change (lsb_stream img d (p :: positions))
    with ((lsb_at img d p <$> channels) ++ lsb_stream img d positions).
  rewrite take_app, length_fmap, !length_take, length_app, !length_take,
    length_fmap.
  cbn [length channels].
  replace (Z.to_nat (total_bits - (bi + Z.of_nat (Z.to_nat (total_bits - bi) `min` 3))))
    with (Z.to_nat (total_bits - bi) - 3)%nat by lia.
  rewrite <- app_assoc. do 2 f_equal. lia.
Qed.

End ExtractCount.

(** X2: on a valid image and for listed pixels that lie inside the grid,
    [extract_bits] reads the lowest bits of the R, G and B bytes of the
    listed pixels, in list order, and stops after [total_bits] bits.  It
    returns 0 when the list offers at least [total_bits] slots, and 1 (with
    the bits of all the slots) when the list is too short. *)
Theorem extract_bits_result img d positions total_bits :
  valid_image img d → positions_inside img positions →
  extract_bits img positions total_bits
  = Some (if total_bits <=? 3 * Z.of_nat (length positions) then 0 else 1,
          take (Z.to_nat total_bits) (lsb_stream img d positions)).
Proof.
  intros Hv Hin. pose proof Hv as (Hd & _).
  unfold extract_bits. rewrite Hd. cbn [mbind option_bind].
  rewrite (extract_pixels_count img d total_bits Hv positions Hin 0 []).
  cbn [mbind option_bind app]. rewrite Z.sub_0_r, Z.add_0_l.
  rewrite length_take, lsb_stream_length.
  destruct (Z.leb_spec total_bits (3 * Z.of_nat (length positions)));
    destruct (Z.ltb_spec (Z.of_nat (Z.to_nat total_bits
                                    `min` (3 * length positions))) total_bits);
    (done || lia).
Qed.

Lemma extract_bits_result_witness :
  extract_bits (create_test_image 4 4 50 50 50) [0; 1] 7
  = Some (1, [0; 0; 0; 0; 0; 0]).
Proof.
  apply (extract_bits_result (create_test_image 4 4 50 50 50)
           (replicate 48 50) [0; 1] 7).
  - apply valid_test_image_4x4.
  - unfold positions_inside.
    change (width (create_test_image 4 4 50 50 50)) with 4.
    change (height (create_test_image 4 4 50 50 50)) with 4.
    repeat (constructor; [cbv beta; lia|]). constructor.
Defined.

(** ** Embedding: when the loop consumes all the bits *)

Section EmbedRuns.

Variables (img : BmpImage) (d0 : list Z) (bitstream : list Z) (total_bits : Z).
Hypothesis Hvalid : valid_image img d0.
Hypothesis Hbits : total_bits ≤ Z.of_nat (length bitstream).

Lemma embed_pixels_runs positions :
  positions_inside img positions →
  ∀ bi d, 0 ≤ bi → length d = length d0 →
    ∃ bi' d',
      for_while (bits_left total_bits)
        (λ pixel_index st,
           base ← pixel_base img pixel_index;
           for_while (bits_left total_bits) (embed_channel bitstream base)
             channels st)
        positions (bi, d) = Some (bi', d')
      ∧ length d' = length d0
      ∧ (bi ≤ total_bits →
         bi' = Z.min total_bits (bi + 3 * Z.of_nat (length positions))).
Proof.
  induction positions as [|p positions IH]; intros Hin bi d Hbi Hlen.
  { exists bi, d. cbn [for_while length]. repeat split; [done|lia]. }
  apply Forall_cons in Hin as [Hp Hin].
  cbn [for_while]. unfold bits_left at 1. cbn [fst].
  destruct (Z.ltb_spec bi total_bits) as [Hlt|Hge].
  2:{ exists bi, d. cbn [length]. repeat split; [done|lia]. }
  destruct (pixel_base_channel img d0 p 0 Hvalid Hp) as (base & Hbase & _);
    [lia|].
  rewrite Hbase. cbn [mbind option_bind].
  destruct (embed_channels_total img d0 bitstream total_bits Hbits p base
              channels) with (bi := bi) (d := d)
    as (bi1 & d1 & Hpix & Hlen1 & Hbi1 & _); [| |done..|].
  { intros ch Hch%channels_range.
    destruct (pixel_base_channel img d0 p ch Hvalid Hp Hch)
      as (base' & Hbase' & ? & ?). by simplify_eq. }
  { by apply (channels_pixel_NoDup img d0). }
  specialize (Hbi1 ltac:(lia)). cbn [length channels] in Hbi1.
  rewrite Hpix.
  destruct (IH Hin bi1 d1) as (bi' & d' & Hloop & Hlen' & Hbi');
    [lia|done|].
  exists bi', d'. rewrite Hloop. split; [done|]. split; [done|].
  cbn [length]. lia.
Qed.

End EmbedRuns.

(** X3: [embed_bits] needs enough slots.  On a valid image, for listed
    pixels inside the grid and a bit stream that holds [total_bits] bits,
    the call returns (and then returns 0) exactly when the list offers at
    least [total_bits] slots, three per listed pixel; with fewer slots its
    final assertion fails. *)
Theorem embed_bits_capacity img d positions bitstream total_bits :
  valid_image img d → positions_inside img positions →
  0 ≤ total_bits ≤ Z.of_nat (length bitstream) →
  (total_bits ≤ 3 * Z.of_nat (length positions) →
   ∃ img', embed_bits img positions bitstream total_bits = Some (0, img'))
  ∧ (3 * Z.of_nat (length positions) < total_bits →
     embed_bits img positions bitstream total_bits = None).
Proof.
  intros Hv Hin [H0 Hlen]. pose proof Hv as (Hd & _).
  destruct (embed_pixels_runs img d bitstream total_bits Hv Hlen positions
              Hin 0 d) as (bi' & d' & Hloop & _ & Hbi'); [lia|done|].
  specialize (Hbi' H0).
  unfold embed_bits. rewrite Hd. cbn [mbind option_bind]. rewrite Hloop.
  cbn [mbind option_bind]. split; intros Hcap.
  - exists (set_data img d'). destruct (Z.eqb_spec bi' total_bits); [done|lia].
  - destruct (Z.eqb_spec bi' total_bits); [lia|done].
Qed.

Lemma embed_bits_capacity_witness :
  embed_bits (create_test_image 4 4 50 50 50) [0; 1] [1; 0; 1; 1; 0; 0; 1] 7
  = None.
Proof.
  apply (embed_bits_capacity (create_test_image 4 4 50 50 50)
           (replicate 48 50) [0; 1] [1; 0; 1; 1; 0; 0; 1] 7).
  - apply valid_test_image_4x4.
  - unfold positions_inside.
    change (width (create_test_image 4 4 50 50 50)) with 4.
    change (height (create_test_image 4 4 50 50 50)) with 4.
    repeat (constructor; [cbv beta; lia|]). constructor.
  - simpl. lia.
  - simpl. lia.
Defined.

(** ** Embedding followed by extraction *)

(** X4: the bits written by [embed_bits] are the bits [extract_bits] reads
    back.  On a valid image, for listed pixels inside the grid that offer
    enough slots and of which none is named twice among those that receive
    a bit, embedding a stream of bits (each 0 or 1) succeeds, and extracting
    as many bits from the resulting image with the same list returns the
    stream. *)
Theorem extract_after_embed img d positions bitstream :
  valid_image img d → positions_inside img positions →
  Forall (λ bit, bit = 0 ∨ bit = 1) bitstream →
  Z.of_nat (length bitstream) ≤ 3 * Z.of_nat (length positions) →
  distinct_used positions (Z.of_nat (length bitstream)) →
  ∃ img',
    embed_bits img positions bitstream (Z.of_nat (length bitstream))
      = Some (0, img')
    ∧ extract_bits img' positions (Z.of_nat (length bitstream))
      = Some (0, bitstream).
Proof.
  intros Hv Hin Hbits Hcap Hdist. pose proof Hv as (Hd & _).
  set (total := Z.of_nat (length bitstream)) in *.
  destruct (embed_pixels_total img d bitstream total Hv ltac:(lia) positions
              Hin 0 d) as (bi' & d' & Hloop & Hlen' & Hbi' & Hcontent);
    [lia|done| |].
  { intros i i' p Hi Hi' ? ?. apply (Hdist i i' p); auto; lia. }
  specialize (Hbi' ltac:(lia)). assert (bi' = total) as -> by lia.
  assert (embed_bits img positions bitstream total
          = Some (0, set_data img d')) as Hembed.
  { unfold embed_bits. rewrite Hd. cbn [mbind option_bind]. rewrite Hloop.
    cbn [mbind option_bind]. by rewrite Z.eqb_refl. }
  exists (set_data img d'). split; [done|].
  assert (valid_image (set_data img d') d') as Hv'.
  { apply (valid_image_set_data img d); [done|done|].
    eapply embed_bits_bytes; [done| |done]. by destruct Hv as (_&_&_&_&_&_&_&?). }
  rewrite (extract_bits_spec (set_data img d') d' total Hv') by (done || lia).
  do 2 f_equal. unfold total. rewrite Nat2Z.id.
  rewrite <- (take_ge bitstream (length bitstream)) at 2 by lia.
  apply (lsb_stream_embedded (set_data img d') d' positions bitstream total);
    [done|lia|lia| |exact Hcontent].
  intros bit Hbit. eapply Forall_forall in Hbits; [|done].
  by destruct Hbits as [-> | ->].
Qed.

Lemma extract_after_embed_witness :
  ∃ img',
    embed_bits (create_test_image 4 4 50 50 50) [5; 6; 9] [1; 0; 1; 1; 0; 1; 0]
      7 = Some (0, img')
    ∧ extract_bits img' [5; 6; 9] 7 = Some (0, [1; 0; 1; 1; 0; 1; 0]).
Proof.
  apply (extract_after_embed (create_test_image 4 4 50 50 50)
           (replicate 48 50) [5; 6; 9] [1; 0; 1; 1; 0; 1; 0]).
  - apply valid_test_image_4x4.
  - unfold positions_inside.
    change (width (create_test_image 4 4 50 50 50)) with 4.
    change (height (create_test_image 4 4 50 50 50)) with 4.
    repeat (constructor; [cbv beta; lia|]). constructor.
  - repeat (constructor; [lia|]). constructor.
  - simpl. lia.
  - apply NoDup_distinct_used.
    repeat (apply NoDup_cons; split;
      [rewrite ?elem_of_cons, ?elem_of_nil; lia|]). apply NoDup_nil_2.
Defined.

(** ** The outcome of encoding *)

(** X5: [steg_encode_message] is all or nothing.  Whenever it returns a
    code other than 0, the image is the one it was given; when it returns
    0, the image differs from the given one in the pixel buffer only, the
    buffer keeps its length, and every byte keeps its seven upper bits. *)
Theorem encode_all_or_nothing ok img message message_len k t n rc img' n' :
  steg_encode_message ok img message message_len k t n = Some (rc, img', n') →
  (rc ≠ 0 → img' = img)
  ∧ (rc = 0 →
     ∃ d d', data img = Some d ∧ img' = set_data img d'
             ∧ length d' = length d ∧ upper_bits d' = upper_bits d).
Proof.
  unfold steg_encode_message. destruct (data img) as [d|] eqn:Hd.
  2:{ intros [= <- <- <-]. split; [done|lia]. }
  destruct (bool_decide (message = None) && (0 <? message_len)).
  { intros [= <- <- <-]. split; [done|lia]. }
  destruct (find_low_contrast_positions ok img k t n)
    as [[[rc2 positions] m]|]; simpl; [|done].
  destruct (Z.eqb_spec rc2 0) as [->|Hrc]; simpl.
  2:{ intros [= <- <- <-]. split; [done|lia]. }
  destruct (Z.ltb_spec (size_t (size_t (Z.of_nat (length positions)) * 3))
              (size_t (size_t (4 + message_len) * 8))).
  { intros [= <- <- <-]. split; [done|lia]. }
  destruct (ok m); simpl.
  2:{ intros [= <- <- <-]. split; [done|lia]. }
  destruct (for_each _ _ _) as [bitstream|]; simpl; [|done].
  destruct (Z.of_nat (length bitstream) =? _); [|done].
  destruct (embed_bits _ _ _ _) as [[rc1 img1]|] eqn:Hemb; simpl; [|done].
  intros [= <- <- <-].
  apply embed_bits_spec in Hemb as (d1 & d' & Hd1 & -> & -> & Hup & _).
  assert (d1 = d) as -> by congruence.
  split; [done|]. intros _. exists d, d'.
  split; [done|]. split; [done|]. split; [by apply upper_bits_length|done].
Qed.

Lemma encode_all_or_nothing_witness :
  (1 ≠ 0 → create_test_image 4 4 50 50 50 = create_test_image 4 4 50 50 50)
  ∧ (1 = 0 →
     ∃ d d', data (create_test_image 4 4 50 50 50) = Some d
             ∧ create_test_image 4 4 50 50 50
               = set_data (create_test_image 4 4 50 50 50) d'
             ∧ length d' = length d ∧ upper_bits d' = upper_bits d).
Proof.
  apply (encode_all_or_nothing (λ n, negb (Nat.eqb n 1))
           (create_test_image 4 4 50 50 50) (Some [72; 105]) 2 4 1%float 0%nat
           1 (create_test_image 4 4 50 50 50) 2%nat).
  vm_compute. reflexivity.
Defined.

(** ** The selection after encoding *)

Lemma find_upper_bits ok img d d' k t n :
  data img = Some d → upper_bits d' = upper_bits d →
  find_low_contrast_positions ok (set_data img d') k t n
  = find_low_contrast_positions ok img k t n.
Proof.
  intros Hd Hup. unfold find_low_contrast_positions.
  rewrite (compute_luminance_map_upper_bits ok img d d' n Hd Hup).
  rewrite Hd. reflexivity.
Qed.

(** X6: a successful [steg_encode_message] does not disturb the selection.
    For every window size, threshold and allocation behaviour,
    [find_low_contrast_positions] gives on the encoded image what it gives
    on the original: the decoder recomputes the encoder's position list. *)
Theorem selection_stable_after_encode
    ok img message message_len k t n img' n' :
  steg_encode_message ok img message message_len k t n = Some (0, img', n') →
  ∀ ok' k' t' m,
    find_low_contrast_positions ok' img' k' t' m
    = find_low_contrast_positions ok' img k' t' m.
Proof.
  intros Henc ok' k' t' m.
  apply encode_success in Henc as (positions & ? & bitstream & _ & _ & _ & _ & Hemb).
  apply embed_bits_spec in Hemb as (d & d' & Hd & -> & _ & Hup & _).
  by apply (find_upper_bits ok' img d d').
Qed.

Lemma selection_stable_after_encode_witness :
  ∃ img',
    steg_encode_message always_ok (create_test_image 4 4 50 50 50)
      (Some [72; 105]) 2 4 1%float 0 = Some (0, img', 3%nat)
    ∧ data img' ≠ data (create_test_image 4 4 50 50 50)
    ∧ find_low_contrast_positions always_ok img' 2 1%float 0
      = find_low_contrast_positions always_ok (create_test_image 4 4 50 50 50)
          2 1%float 0.
Proof.
  eexists. split; [vm_compute; reflexivity|]. split; [vm_compute; discriminate|].
  apply (selection_stable_after_encode always_ok
           (create_test_image 4 4 50 50 50) (Some [72; 105]) 2 4 1%float 0%nat
           _ 3%nat).
  vm_compute. reflexivity.
Defined.

(** ** The result of the selection *)

(** X7: [find_low_contrast_positions] returns 0 or 1 and never a partial
    list: with the code 1 (a NULL buffer, a window size or dimension that is
    not positive, or a refused allocation) the list is empty, and the code 0
    is returned only for a positive window size on an image with a buffer
    and a positive width. *)
Theorem find_result_codes ok img k t n rc positions n' :
  find_low_contrast_positions ok img k t n = Some (rc, positions, n') →
  (rc = 0 ∨ rc = 1)
  ∧ (rc = 1 → positions = [])
  ∧ (rc = 0 → 0 < k ∧ 0 < width img ∧ is_Some (data img)).
Proof.
  unfold find_low_contrast_positions.
  destruct (data img) as [d|]; [|intros [= <- <- _]; split; [auto|split; [done|lia]]].
  destruct (Z.leb_spec k 0); [intros [= <- <- _]; split; [auto|split; [done|lia]]|].
  destruct (abs_height_of img) as [h|]; simpl; [|done].
  destruct (Z.leb_spec (width img) 0); simpl; [intros [= <- <- _]; split; [auto|split; [done|lia]]|].
  destruct (h <=? 0); [intros [= <- <- _]; split; [auto|split; [done|lia]]|].
  destruct (compute_luminance_map ok img n) as [[[rc1 lum] n1]|]; simpl;
    [|done].
  destruct (negb (rc1 =? 0)); [intros [= <- <- _]; split; [auto|split; [done|lia]]|].
  destruct (_ || _); [intros [= <- <- _]; split; [auto|split; [done|eauto]]|].
  match goal with |- mbind _ ?r = _ → _ => destruct r as [[[[q c] j]|[r1 j]]|] eqn:Hrun end;
    simpl; [| |done].
  - intros [= <- <- _]. split; [auto|split; [done|eauto]].
  - intros [= <- <- _]. apply scan_ret in Hrun as ->. split; [auto|split; [done|lia]].
Qed.

Lemma find_result_codes_witness :
  (1 = 0 ∨ 1 = 1)
  ∧ (1 = 1 → @nil Z = [])
  ∧ (1 = 0 → 0 < 2 ∧ 0 < width (create_test_image 4 4 50 50 50)
             ∧ is_Some (data (create_test_image 4 4 50 50 50))).
Proof.
  apply (find_result_codes (λ n, negb (Nat.eqb n 1))
           (create_test_image 4 4 50 50 50) 2 1%float 0%nat 1 [] 2%nat).
  vm_compute. reflexivity.
Defined.

Lemma bind_filter_length {A B} (p : A → bool) (g : A → list B) (c : nat) l :
  (∀ x, x ∈ l → length (g x) = c) →
  length (l ≫= (λ x, if p x then g x else []))
  = (c * length (filter (λ x, p x = true) l))%nat.
Proof.
  induction l as [|x l IH]; intros Hg; [cbn; lia|].
  rewrite bind_cons, length_app, IH.
  2:{ intros y Hy. apply Hg, elem_of_cons. auto. }
  destruct (p x) eqn:Hp.
  - rewrite filter_cons_True by done. rewrite Hg by (apply elem_of_cons; auto).
    cbn [length]. lia.
  - rewrite filter_cons_False by (by rewrite Hp). cbn [length]. lia.
Qed.

Lemma find_success_window ok img k t n positions n' :
  find_low_contrast_positions ok img k t n = Some (0, positions, n') → 0 < k.
Proof.
  unfold find_low_contrast_positions.
  destruct (data img) as [d|]; [|done]. by destruct (Z.leb_spec k 0).
Qed.

(** X8: on a valid image, the positions [find_low_contrast_positions]
    returns are pixels of the grid, row * width + column with the row below
    |height| and the column below the width. *)
Theorem find_positions_inside ok img d k t n positions n' :
  valid_image img d →
  find_low_contrast_positions ok img k t n = Some (0, positions, n') →
  positions_inside img positions.
Proof.
  intros Hv Hfind.
  pose proof (find_success_window ok img k t n positions n' Hfind) as Hk0.
  rewrite (find_valid_success ok img d k t n positions n' Hv Hk0 Hfind).
  by apply selected_positions_inside.
Qed.

Lemma find_positions_inside_witness :
  positions_inside (create_test_image 4 4 50 50 50) (seqZ 0 16).
Proof.
  apply (find_positions_inside always_ok (create_test_image 4 4 50 50 50)
           (replicate 48 50) 4 1%float 0%nat (seqZ 0 16) 2%nat).
  - apply valid_test_image_4x4.
  - vm_compute. reflexivity.
Defined.

(** X9: on a valid image, the list [find_low_contrast_positions] returns has
    block_size * block_size entries for every low-contrast window, whether
    or not the windows overlap: the capacity the encoder computes from it
    counts a pixel once for every such window that covers it. *)
Theorem find_positions_count ok img d k t n positions n' :
  valid_image img d →
  find_low_contrast_positions ok img k t n = Some (0, positions, n') →
  Z.of_nat (length positions)
  = k * k * Z.of_nat (length (filter (λ corner,
                                 low_contrast img d k t corner = true)
                               (window_offsets img k))).
Proof.
  intros Hv Hfind.
  pose proof (find_success_window ok img k t n positions n' Hfind) as Hk0.
  rewrite (find_valid_success ok img d k t n positions n' Hv Hk0 Hfind).
  unfold selected_positions.
  rewrite (bind_filter_length (low_contrast img d k t) _ (Z.to_nat (k * k))).
  - rewrite Nat2Z.inj_mul. lia.
  - intros corner _. rewrite length_fmap.
    apply Nat2Z.inj. rewrite block_cells_length by lia. lia.
Qed.

Lemma find_positions_count_witness :
  Z.of_nat (length [0; 1; 4; 5; 1; 2; 5; 6; 2; 3; 6; 7; 4; 5; 8; 9; 5; 6; 9;
                    10; 6; 7; 10; 11; 8; 9; 12; 13; 9; 10; 13; 14; 10; 11;
                    14; 15])
  = 2 * 2 * Z.of_nat (length (filter (λ corner,
        low_contrast (create_test_image 4 4 50 50 50) (replicate 48 50) 2
          1%float corner = true)
      (window_offsets (create_test_image 4 4 50 50 50) 2))).
Proof.
  apply (find_positions_count always_ok (create_test_image 4 4 50 50 50)
           (replicate 48 50) 2 1%float 0%nat _ 2%nat).
  - apply valid_test_image_4x4.
  - vm_compute. reflexivity.
Defined.

(** ** The luminance map *)

(** X10: on a valid image, [compute_luminance_map] makes one allocation
    request.  When it is refused the code is 1; when it is granted the code
    is 0 and the map holds one initialised cell for each of the
    width * |height| pixels, the cell row * width + col being the luminance
    0.299 R + 0.587 G + 0.114 B of the bytes at row * stride + col * 3 (B, G
    and R at +0, +1, +2) with their lowest bit cleared.  Row [row] of the map
    is row [row] of the buffer whatever the sign of the height. *)
Theorem luminance_map_cells ok img d n :
  valid_image img d →
  ∃ lum,
    compute_luminance_map ok img n
      = (if ok n then Some (0, lum, S n) else Some (1, [], S n))
    ∧ Z.of_nat (length lum) = width img * Z.abs (height img)
    ∧ ∀ row col, 0 ≤ row < Z.abs (height img) → 0 ≤ col < width img →
        ∃ b g r,
          d !! Z.to_nat (row * stride img + col * 3 + 0) = Some b
          ∧ d !! Z.to_nat (row * stride img + col * 3 + 1) = Some g
          ∧ d !! Z.to_nat (row * stride img + col * 3 + 2) = Some r
          ∧ load lum (row * width img + col)
            = Some (compute_luminance (Z.land r 254) (Z.land g 254)
                      (Z.land b 254)).
Proof.
  intros Hv. exists (luminance_grid img d).
  split; [by apply compute_luminance_map_valid|].
  pose proof Hv as (_ & HW & _).
  split.
  { unfold luminance_grid. rewrite !length_fmap. by apply all_cells_length. }
  intros row col Hrow Hcol.
  assert (∀ c, 0 ≤ c < 3 →
            ∃ v, d !! Z.to_nat (row * stride img + col * 3 + c) = Some v
                 ∧ d !!! Z.to_nat (channel_offset img row col c) = v) as Hbyte.
  { intros c Hc.
    destruct (channel_offset_bounds img d row col c Hv Hrow Hcol Hc) as [Hb _].
    destruct (lookup_lt_is_Some_2 d (Z.to_nat (channel_offset img row col c)))
      as [v Hlook]; [lia|].
    exists v. split; [done|]. by apply list_lookup_total_correct. }
  destruct (Hbyte 0) as (b & Hb & Hb'); [lia|].
  destruct (Hbyte 1) as (g & Hg & Hg'); [lia|].
  destruct (Hbyte 2) as (r & Hr & Hr'); [lia|].
  exists b, g, r. repeat (split; [done|]).
  rewrite (load_luminance_grid img d row col Hv Hrow Hcol).
  unfold lum_at. cbn [fst snd]. by rewrite Hb', Hg', Hr'.
Qed.

Lemma luminance_map_cells_witness :
  ∃ lum,
    compute_luminance_map always_ok (create_test_image 4 4 50 50 50) 0
      = Some (0, lum, 1%nat)
    ∧ Z.of_nat (length lum) = 16
    ∧ load lum 5 = Some (compute_luminance 50 50 50).
Proof.
  destruct (luminance_map_cells always_ok (create_test_image 4 4 50 50 50)
              (replicate 48 50) 0%nat valid_test_image_4x4)
    as (lum & Hrun & Hlen & Hcells).
  exists lum. split; [exact Hrun|]. split; [exact Hlen|].
  destruct (Hcells 1 1) as (b & g & r & Hb & Hg & Hr & Hload).
  - simpl. lia.
  - simpl. lia.
  - injection Hb as <-. injection Hg as <-. injection Hr as <-. exact Hload.
Defined.

(** ** What the selection depends on *)

Lemma bind_ext_elem {A B} (f g : A → list B) l :
  (∀ x, x ∈ l → f x = g x) → l ≫= f = l ≫= g.
Proof.
  induction l as [|x l IH]; intros Hfg; [done|].
  rewrite !bind_cons, Hfg, IH; [done| |apply elem_of_cons; auto].
  intros y Hy. apply Hfg, elem_of_cons. auto.
Qed.

Lemma selected_positions_pixels img1 d1 img2 d2 k t :
  0 < k →
  width img1 = width img2 → Z.abs (height img1) = Z.abs (height img2) →
  (∀ row col c,
     0 ≤ row < Z.abs (height img1) → 0 ≤ col < width img1 → 0 ≤ c < 3 →
     Z.land (d1 !!! Z.to_nat (channel_offset img1 row col c)) 254
     = Z.land (d2 !!! Z.to_nat (channel_offset img2 row col c)) 254) →
  selected_positions img1 d1 k t = selected_positions img2 d2 k t.
Proof.
  intros Hk HW HH Hpix. unfold selected_positions.
  assert (window_offsets img1 k = window_offsets img2 k) as Hwin.
  { unfold window_offsets. by rewrite HW, HH. }
  rewrite <- Hwin, <- HW. apply bind_ext_elem. intros corner Hcorner.
  apply (window_offsets_inside img1 k corner Hk) in Hcorner.
  assert (lum_at img1 d1 <$> block_cells k corner.1 corner.2
          = lum_at img2 d2 <$> block_cells k corner.1 corner.2) as Hlum.
  { apply list_fmap_ext. intros i cell Hcell.
    apply list_elem_of_lookup_2 in Hcell.
    apply (block_cells_inside img1) in Hcell as [Hr Hc]; [|done].
    unfold lum_at. by rewrite !Hpix by (done || lia). }
  unfold low_contrast. by rewrite Hlum.
Qed.

(** X11: the selection reads nothing but the seven upper bits of the pixel
    bytes.  Two valid images with the same width and the same number of rows
    whose pixel bytes agree up to their lowest bit get the same result from
    [find_low_contrast_positions], whatever their headers, strides and
    padding bytes are and whether their heights are positive (bottom-up) or
    negative (top-down). *)
Theorem selection_reads_pixel_bytes_only ok img1 d1 img2 d2 k t n :
  valid_image img1 d1 → valid_image img2 d2 →
  width img1 = width img2 → Z.abs (height img1) = Z.abs (height img2) →
  (∀ row col c,
     0 ≤ row < Z.abs (height img1) → 0 ≤ col < width img1 → 0 ≤ c < 3 →
     Z.land (d1 !!! Z.to_nat (channel_offset img1 row col c)) 254
     = Z.land (d2 !!! Z.to_nat (channel_offset img2 row col c)) 254) →
  find_low_contrast_positions ok img1 k t n
  = find_low_contrast_positions ok img2 k t n.
Proof.
  intros Hv1 Hv2 HW HH Hpix. destruct (Z.leb_spec k 0) as [Hk|Hk].
  - destruct Hv1 as (Hd1 & _), Hv2 as (Hd2 & _).
    unfold find_low_contrast_positions. rewrite Hd1, Hd2.
    by destruct (Z.leb_spec k 0); [|lia].
  - rewrite (find_valid ok img1 d1 k t n Hv1 Hk),
      (find_valid ok img2 d2 k t n Hv2 Hk).
    by rewrite (selected_positions_pixels img1 d1 img2 d2 k t).
Qed.

Lemma selection_reads_pixel_bytes_only_witness :
  find_low_contrast_positions always_ok (create_test_image 3 3 50 50 50)
    2 1%float 0
  = find_low_contrast_positions always_ok
      {| header := replicate 54 1; width := 3; height := -3; stride := 16;
         size := 48;
         data := Some (mjoin (replicate 3 (replicate 9 51 ++ replicate 7 9))) |}
      2 1%float 0.
Proof.
  apply (selection_reads_pixel_bytes_only always_ok
           (create_test_image 3 3 50 50 50)
           (mjoin (replicate 3 (replicate 9 50 ++ replicate 3 0)))
           _ (mjoin (replicate 3 (replicate 9 51 ++ replicate 7 9)))).
  - unfold valid_image, INT_MAX. simpl.
    repeat split; try reflexivity; try lia; try discriminate.
    repeat (constructor; [lia|]). constructor.
  - unfold valid_image, INT_MAX. simpl.
    repeat split; try reflexivity; try lia; try discriminate.
    repeat (constructor; [lia|]). constructor.
  - reflexivity.
  - reflexivity.
  - change (Z.abs (height (create_test_image 3 3 50 50 50))) with 3.
    change (width (create_test_image 3 3 50 50 50)) with 3.
    intros row col c Hrow Hcol Hc.
    assert (row = 0 ∨ row = 1 ∨ row = 2) as [->|[->| ->]] by lia;
      assert (col = 0 ∨ col = 1 ∨ col = 2) as [->|[->| ->]] by lia;
      assert (c = 0 ∨ c = 1 ∨ c = 2) as [->|[->| ->]] by lia; reflexivity.
Defined.

(** ** Bit packing *)

(** X12: unpacking inverts packing.  The bit stream that the packing loop of
    [steg_encode_message] appends to the header bits, eight bits per message
    byte and the most significant first, is read back into the message bytes
    by the unpacking loop of [steg_decode_message], which starts after the
    header bits. *)
Theorem unpack_after_pack message header_bits :
  Forall (λ b, 0 ≤ b < 256) message →
  ∃ bitstream,
    for_each (λ i bitstream,
        b ← Some message ≫= (λ m, m !! Z.to_nat i);
        Some (bitstream ++ byte_bits b))
      (seqZ 0 (Z.of_nat (length message))) header_bits = Some bitstream
    ∧ Z.of_nat (length bitstream)
      = Z.of_nat (length header_bits) + 8 * Z.of_nat (length message)
    ∧ read_bytes bitstream (Z.of_nat (length message))
        (Z.of_nat (length header_bits))
      = Some (message, Z.of_nat (length bitstream)).
Proof.
  intros Hmsg. exists (header_bits ++ (message ≫= byte_bits)).
  split; [exact (pack_message_loop message [] header_bits)|].
  assert (Z.of_nat (length (header_bits ++ (message ≫= byte_bits)))
          = Z.of_nat (length header_bits) + 8 * Z.of_nat (length message))
    as Hlen.
  { rewrite length_app, Nat2Z.inj_add, bind_byte_bits_length. lia. }
  split; [done|]. rewrite Hlen.
  pose proof (read_bytes_spec message header_bits [] Hmsg) as Hread.
  by rewrite app_nil_r in Hread.
Qed.

Lemma unpack_after_pack_witness :
  ∃ bitstream,
    for_each (λ i bitstream,
        b ← Some [72; 105] ≫= (λ m, m !! Z.to_nat i);
        Some (bitstream ++ byte_bits b))
      (seqZ 0 2) [1; 1; 0] = Some bitstream
    ∧ Z.of_nat (length bitstream) = 19
    ∧ read_bytes bitstream 2 3 = Some ([72; 105], Z.of_nat (length bitstream)).
Proof.
  apply (unpack_after_pack [72; 105] [1; 1; 0]).
  repeat (constructor; [lia|]). constructor.
Defined.

(** X13: the length header holds the message length modulo 2^32.  The four
    header bytes [steg_encode_message] writes for a length, packed into 32
    bits, are unpacked by the header loop of [steg_decode_message] into bytes
    from which the decoder assembles the length reduced modulo 2^32: a length
    of 2^32 or more does not survive, the decoder sees a shorter message. *)
Theorem length_header_wraps message_len post :
  ∃ b0 b1 b2 b3,
    read_bytes ((length_header message_len ≫= byte_bits) ++ post) 4 0
      = Some ([b0; b1; b2; b3], 32)
    ∧ Z.lor (Z.lor (Z.lor (Z.lor 0 b0) (u32 (Z.shiftl b1 8)))
               (u32 (Z.shiftl b2 16))) (u32 (Z.shiftl b3 24))
      = message_len mod 2 ^ 32.
Proof.
  pose proof (read_bytes_spec (length_header message_len) [] post
                (length_header_bytes message_len)) as Hread.
  rewrite length_header_length in Hread. cbn [app length] in Hread.
  change (Z.of_nat 4) with 4 in Hread. change (Z.of_nat 0) with 0 in Hread.
  destruct (length_header message_len) as [|b0 [|b1 [|b2 [|b3 [|]]]]] eqn:Hh;
    try (apply (f_equal length) in Hh; rewrite length_header_length in Hh;
         discriminate Hh).
  exists b0, b1, b2, b3. split; [exact Hread|].
  apply (length_header_decode (message_len mod 2 ^ 32)).
  - apply Z.mod_pos_bound. lia.
  - rewrite <- Hh. unfold length_header, u32.
    by rewrite Z.mod_mod by lia.
Qed.

(** ** The result of decoding *)

Lemma lor_range a b n :
  0 ≤ n → 0 ≤ a < 2 ^ n → 0 ≤ b < 2 ^ n → 0 ≤ Z.lor a b < 2 ^ n.
Proof.
  intros Hn Ha Hb.
  assert (0 ≤ Z.lor a b) as Hnn by (apply Z.lor_nonneg; lia).
  split; [done|].
  destruct (Z.eq_dec (Z.lor a b) 0) as [->|Hne]; [lia|].
  apply Z.log2_lt_pow2; [lia|]. rewrite Z.log2_lor by lia.
  assert (∀ c, 0 ≤ c < 2 ^ n → c ≠ 0 → Z.log2 c < n) as Hlog.
  { intros c Hc Hc0. apply Z.log2_lt_pow2; lia. }
  destruct (Z.eq_dec a 0) as [->|Ha0], (Z.eq_dec b 0) as [->|Hb0].
  - done.
  - rewrite Z.max_r by apply Z.log2_nonneg. by apply Hlog.
  - rewrite Z.max_l by apply Z.log2_nonneg. by apply Hlog.
  - apply Z.max_lub_lt; by apply Hlog.
Qed.

Lemma for_each_invariant {A S} (P : S → Prop) (body : A → S → option S) l :
  (∀ x s s', P s → body x s = Some s' → P s') →
  ∀ s s', P s → for_each body l s = Some s' → P s'.
Proof.
  intros Hbody. induction l as [|x l IH]; intros s s' Hs; cbn [for_each].
  - by intros [= <-].
  - destruct (body x s) as [s1|] eqn:Hx; [|done]. eauto.
Qed.

Lemma read_byte_range bits bit_index b bit_index' :
  read_byte bits bit_index = Some (b, bit_index') → 0 ≤ b < 256.
Proof.
  unfold read_byte.
  apply (for_each_invariant (λ s : Z * Z, 0 ≤ s.1 < 256)); [|simpl; lia].
  intros bit_pos [b0 i0] [b1 i1] Hb0.
  destruct (bits !! Z.to_nat i0) as [bit|]; [|done]. intros [= <- _].
  cbn [fst] in *. apply (lor_range b0 _ 8); [lia|done|].
  unfold u8. apply Z.mod_pos_bound. lia.
Qed.

Lemma read_bytes_shape bits count bit_index bytes bit_index' :
  read_bytes bits count bit_index = Some (bytes, bit_index') →
  length bytes = Z.to_nat count ∧ Forall (λ b, 0 ≤ b < 256) bytes.
Proof.
  unfold read_bytes. rewrite <- (length_seqZ 0 count).
  change (Forall (λ b, 0 ≤ b < 256) bytes)
    with (Forall (λ b, 0 ≤ b < 256) (bytes, bit_index').1).
  change (length bytes) with (length (bytes, bit_index').1).
  replace (length (seqZ 0 count))
    with (length (@nil Z, bit_index).1 + length (seqZ 0 count))%nat by done.
  assert (Forall (λ b, 0 ≤ b < 256) (@nil Z, bit_index).1) as Hnil
    by constructor.
  revert Hnil.
  generalize (@nil Z, bit_index) (bytes, bit_index') (seqZ 0 count).
  intros s s' l. revert s. induction l as [|x l IH]; intros [acc i] Hacc.
  - cbn [for_each length]. intros [= <-]. split; [lia|done].
  - cbn [for_each]. destruct (read_byte bits i) as [[b i1]|] eqn:Hb; [|done].
    cbn [mbind option_bind]. intros Hrun.
    apply IH in Hrun as [Hlen Hall].
    + split; [|done]. rewrite Hlen. cbn [fst length]. rewrite length_app.
      cbn [length]. lia.
    + cbn [fst] in *. apply Forall_app. split; [done|].
      constructor; [|done]. by eapply read_byte_range.
Qed.

(** X14: the outcome of [steg_decode_message].  It returns 0 or 1.  With 1
    it hands out no buffer and the length 0.  With 0 it hands out a buffer of
    exactly [message_len] bytes, each below 256, and that length is below
    2^32. *)
Theorem decode_result_shape ok img k t n rc message message_len n' :
  steg_decode_message ok img k t n = Some (rc, message, message_len, n') →
  (rc = 0 ∨ rc = 1)
  ∧ (rc = 1 → message = None ∧ message_len = 0)
  ∧ (rc = 0 →
     ∃ m, message = Some m ∧ Z.of_nat (length m) = message_len
          ∧ 0 ≤ message_len < 2 ^ 32 ∧ Forall (λ b, 0 ≤ b < 256) m).
Proof.
  unfold steg_decode_message.
  assert (∀ m : nat,
            Some (1, @None (list Z), 0, m) = Some (rc, message, message_len, n')
            → (rc = 0 ∨ rc = 1)
              ∧ (rc = 1 → message = None ∧ message_len = 0)
              ∧ (rc = 0 →
                 ∃ m, message = Some m ∧ Z.of_nat (length m) = message_len
                      ∧ 0 ≤ message_len < 2 ^ 32
                      ∧ Forall (λ b, 0 ≤ b < 256) m)) as Hfail.
  { intros m [= <- <- <- _]. split; [auto|]. split; [done|lia]. }
  destruct (data img) as [d|]; [|by apply Hfail].
  destruct (find_low_contrast_positions ok img k t n)
    as [[[rc1 positions] n1]|]; simpl; [|done].
  destruct (negb (rc1 =? 0)); [by apply Hfail|].
  destruct (_ <? 32); [by apply Hfail|].
  destruct (extract_bits img positions 32) as [[rc2 header_bits]|]; simpl;
    [|done].
  destruct (negb (rc2 =? 0)); [by apply Hfail|].
  destruct (read_bytes header_bits 4 0) as [[header_bytes i]|] eqn:Hhdr; simpl;
    [|done].
  apply read_bytes_shape in Hhdr as [_ Hhdr].
  destruct header_bytes as [|b0 [|b1 [|b2 [|b3 rest]]]]; simpl; try done.
  set (len := Z.lor (Z.lor (Z.lor (Z.lor 0 b0) (u32 (Z.shiftl b1 8)))
                       (u32 (Z.shiftl b2 16))) (u32 (Z.shiftl b3 24))).
  assert (0 ≤ len < 2 ^ 32) as Hlen.
  { apply Forall_cons in Hhdr as [Hb0 _]. unfold len.
    repeat apply lor_range; try lia; unfold u32; apply Z.mod_pos_bound; lia. }
  destruct (_ <? _); [by apply Hfail|].
  destruct (ok n1); simpl; [|by apply Hfail].
  destruct (extract_bits img positions _) as [[rc3 all_bits]|]; simpl; [|done].
  destruct (negb (rc3 =? 0)); [by apply Hfail|].
  destruct (ok (S n1)); simpl; [|by apply Hfail].
  destruct (read_bytes all_bits len 32) as [[m j]|] eqn:Hmsg; simpl; [|done].
  apply read_bytes_shape in Hmsg as [Hmlen Hm].
  intros [= <- <- <- _]. split; [auto|]. split; [done|]. intros _.
  exists m. split; [done|]. split; [lia|]. done.
Qed.

Lemma decode_result_shape_witness :
  (0 = 0 ∨ 0 = 1)
  ∧ (0 = 1 → Some [72; 105] = None ∧ 2 = 0)
  ∧ (0 = 0 →
     ∃ m, Some [72; 105] = Some m ∧ Z.of_nat (length m) = 2
          ∧ 0 ≤ 2 < 2 ^ 32 ∧ Forall (λ b, 0 ≤ b < 256) m).
Proof.
  apply (decode_result_shape always_ok
           (set_data (create_test_image 4 4 50 50 50)
              [50; 50; 50; 50; 50; 50; 50; 50; 51; 50; 50; 50; 50; 50; 50;
               50; 50; 50; 50; 50; 50; 50; 50; 50; 50; 50; 50; 50; 50; 50;
               50; 50; 50; 50; 50; 51; 50; 50; 51; 51; 50; 50; 51; 50; 51;
               51; 50; 50])
           4 1%float 0%nat 0 (Some [72; 105]) 2 4%nat).
  vm_compute. reflexivity.
Defined.

(** ** Absence of undefined behaviour *)

Lemma push_position_safe ok x ps cap n :
  Z.of_nat (length ps) ≤ cap < 2 ^ 62 →
  Z.of_nat (length ps) < 2 ^ 61 →
  (∃ cap' n', push_position ok x (ps, cap, n) = Some (Cont (ps ++ [x], cap', n'))
              ∧ Z.of_nat (length ps) + 1 ≤ cap' < 2 ^ 62)
  ∨ (∃ n', push_position ok x (ps, cap, n) = Some (Ret (1, n'))).
Proof.
  intros Hcap Hlen. unfold push_position, write_position.
  rewrite (size_t_small (Z.of_nat (length ps))) by lia.
  destruct (Z.eqb_spec (Z.of_nat (length ps)) cap) as [Heq|Hne].
  - destruct (ok n); [|right; by eexists].
    set (new_cap := if cap =? 0 then 128 else size_t (cap * 2)).
    assert (Z.of_nat (length ps) < new_cap < 2 ^ 62) as Hnew.
    { unfold new_cap. destruct (Z.eqb_spec cap 0); [lia|].
      rewrite size_t_small by lia. lia. }
    rewrite (size_t_small (new_cap * 4)), Z.div_mul by lia.
    destruct (Z.ltb_spec (Z.of_nat (length ps)) new_cap); [|lia].
    left. exists new_cap, (S n). split; [done|]. lia.
  - rewrite (size_t_small (cap * 4)), Z.div_mul by lia.
    destruct (Z.ltb_spec (Z.of_nat (length ps)) cap); [|lia].
    left. exists cap, n. split; [done|]. lia.
Qed.

Lemma push_positions_safe ok xs :
  ∀ ps cap n,
    Z.of_nat (length ps) ≤ cap < 2 ^ 62 →
    Z.of_nat (length ps) + Z.of_nat (length xs) < 2 ^ 61 →
    is_Some (for_loop (push_position ok) xs (ps, cap, n)).
Proof.
  induction xs as [|x xs IH]; intros ps cap n Hcap Hlen; [by eexists|].
  cbn [for_loop length] in *.
  destruct (push_position_safe ok x ps cap n)
    as [(cap1 & n1 & -> & Hcap1)|(n1 & ->)]; [done|lia| |by eexists].
  apply IH; rewrite length_app; cbn [length]; lia.
Qed.

Lemma find_valid_is_Some ok img d k t n :
  valid_image img d →
  is_Some (find_low_contrast_positions ok img k t n).
Proof.
  intros Hv. destruct (Z.leb_spec k 0) as [Hk|Hk].
  - destruct Hv as (Hd & _). unfold find_low_contrast_positions. rewrite Hd.
    destruct (Z.leb_spec k 0); [by eexists|lia].
  - rewrite (find_valid ok img d k t n Hv Hk).
    destruct (ok n); [|by eexists].
    destruct (push_positions_safe ok (selected_positions img d k t) [] 0 (S n))
      as [[[[ps cap] m]|[rc m]] ->]; [cbn [length]; lia| |by eexists..].
    pose proof (selected_positions_length img d k t Hv Hk). cbn [length]. lia.
Qed.

(** X15: on a valid image [find_low_contrast_positions] has no undefined
    behaviour: for every window size, threshold and behaviour of the
    allocator it returns, without reading outside the pixel buffer or the
    luminance map, without reading an uninitialised cell and without integer
    overflow. *)
Theorem find_never_undefined ok img d k t n :
  valid_image img d →
  ∃ rc positions n',
    find_low_contrast_positions ok img k t n = Some (rc, positions, n').
Proof.
  intros Hv.
  destruct (find_valid_is_Some ok img d k t n Hv) as [[[rc positions] n'] ->].
  by exists rc, positions, n'.
Qed.

Lemma find_never_undefined_witness :
  ∃ rc positions n',
    find_low_contrast_positions (λ n, Nat.even n)
      (create_test_image 4 4 50 50 50) 3 2%float 5 = Some (rc, positions, n').
Proof.
  apply (find_never_undefined _ (create_test_image 4 4 50 50 50)
           (replicate 48 50)).
  apply valid_test_image_4x4.
Defined.

Lemma read_byte_total bits bit_index :
  0 ≤ bit_index → bit_index + 8 ≤ Z.of_nat (length bits) →
  ∃ b, read_byte bits bit_index = Some (b, bit_index + 8).
Proof.
  intros H0 Hlen. unfold read_byte.
  assert (∀ ps b i, 0 ≤ i → i + Z.of_nat (length ps) ≤ Z.of_nat (length bits) →
            ∃ b', for_each (λ bit_pos '(b, bit_index),
                      bit ← bits !! Z.to_nat bit_index;
                      Some (Z.lor b (u8 (Z.shiftl bit bit_pos)), bit_index + 1))
                    ps (b, i)
                  = Some (b', i + Z.of_nat (length ps))) as Hloop.
  { induction ps as [|p ps IH]; intros b i Hi Hps.
    - exists b. cbn [for_each length]. do 2 f_equal. lia.
    - cbn [for_each length] in *.
      destruct (lookup_lt_is_Some_2 bits (Z.to_nat i)) as [bit ->]; [lia|].
      cbn [mbind option_bind].
      destruct (IH (Z.lor b (u8 (Z.shiftl bit p))) (i + 1)) as [b' ->];
        [lia|lia|].
      exists b'. do 2 f_equal. lia. }
  destruct (Hloop bit_positions 0 bit_index) as [b ->]; [done|simpl; lia|].
  by exists b.
Qed.

Lemma read_bytes_total bits count bit_index :
  0 ≤ bit_index → bit_index + 8 * count ≤ Z.of_nat (length bits) →
  is_Some (read_bytes bits count bit_index).
Proof.
  intros H0 Hlen. unfold read_bytes.
  destruct (Z.le_gt_cases count 0) as [Hc|Hc].
  { unfold seqZ. replace (Z.to_nat count) with 0%nat by lia. by eexists. }
  assert (∀ (l : list Z) acc i, 0 ≤ i →
            i + 8 * Z.of_nat (length l) ≤ Z.of_nat (length bits) →
            is_Some (for_each (λ (_ : Z) '(bytes, bit_index),
                         '(b, bit_index') ← read_byte bits bit_index;
                         Some (bytes ++ [b], bit_index'))
                       l (acc, i))) as Hloop.
  { induction l as [|x l IH]; intros acc i Hi Hl; [by eexists|].
    cbn [for_each length] in *.
    destruct (read_byte_total bits i) as [b ->]; [lia|lia|].
    cbn [mbind option_bind]. apply IH; lia. }
  apply Hloop; [done|]. rewrite length_seqZ. lia.
Qed.

Lemma pack_loop_total (message : option (list Z)) l :
  ∀ bits,
    (∀ i, i ∈ l → ∃ m, message = Some m ∧ 0 ≤ i < Z.of_nat (length m)) →
    ∃ bitstream,
      for_each (λ i bitstream,
          b ← message ≫= (λ m, m !! Z.to_nat i);
          Some (bitstream ++ byte_bits b)) l bits = Some bitstream
      ∧ Z.of_nat (length bitstream)
        = Z.of_nat (length bits) + 8 * Z.of_nat (length l).
Proof.
  induction l as [|i l IH]; intros bits Hmsg.
  { exists bits. cbn [for_each length]. split; [done|lia]. }
  destruct (Hmsg i) as (m & -> & Hi); [apply elem_of_cons; auto|].
  cbn [for_each mbind option_bind].
  destruct (lookup_lt_is_Some_2 m (Z.to_nat i)) as [b Hb]; [lia|].
  rewrite Hb. cbn [mbind option_bind].
  destruct (IH (bits ++ byte_bits b)) as (bs & Hrun & Hlen).
  { intros j Hj. apply Hmsg, elem_of_cons. auto. }
  exists bs. split; [exact Hrun|].
  rewrite Hlen, length_app, byte_bits_length. cbn [length]. lia.
Qed.

(** X16: on a valid image [steg_encode_message] has no undefined behaviour,
    whatever the allocator does, when the message buffer (if there is one)
    holds at least [message_len] bytes and (4 + message_len) * 8 does not
    wrap around in [size_t]: no access outside the pixel buffer, the message
    or the bit stream, and the assertion of [embed_bits] holds. *)
Theorem encode_never_undefined ok img d message message_len k t n :
  valid_image img d →
  0 ≤ message_len → (4 + message_len) * 8 < 2 ^ 64 →
  (∀ m, message = Some m → message_len ≤ Z.of_nat (length m)) →
  ∃ rc img' n',
    steg_encode_message ok img message message_len k t n
    = Some (rc, img', n').
Proof.
  intros Hv H0 Hwrap Hmsg. pose proof Hv as (Hd & _).
  unfold steg_encode_message. rewrite Hd.
  destruct (bool_decide (message = None) && (0 <? message_len)) eqn:Hnull;
    [by eexists _, _, _|].
  destruct (find_valid_is_Some ok img d k t n Hv)
    as [[[rc positions] n1] Hfind].
  rewrite Hfind. cbn [mbind option_bind].
  destruct (Z.eqb_spec rc 0) as [->|]; cbn [negb]; [|by eexists _, _, _].
  pose proof (find_success_window ok img k t n positions n1 Hfind) as Hk.
  rewrite (find_valid_success ok img d k t n positions n1 Hv Hk Hfind).
  set (ps := selected_positions img d k t).
  pose proof (selected_positions_length img d k t Hv Hk) as Hplen.
  pose proof (selected_positions_inside img d k t Hv Hk) as Hinside.
  fold ps in Hplen, Hinside.
  rewrite (size_t_small (Z.of_nat (length ps))) by lia.
  rewrite (size_t_small (Z.of_nat (length ps) * 3)) by lia.
  rewrite (size_t_small (4 + message_len)) by lia.
  rewrite (size_t_small ((4 + message_len) * 8)) by lia.
  destruct (Z.ltb_spec (Z.of_nat (length ps) * 3) ((4 + message_len) * 8));
    [by eexists _, _, _|].
  destruct (ok n1); cbn [negb]; [|by eexists _, _, _].
  destruct (pack_loop_total message (seqZ 0 message_len)
              (length_header message_len ≫= byte_bits))
    as (bitstream & Hpack & Hblen).
  { intros i Hi. apply elem_of_seqZ in Hi.
    destruct message as [m|].
    - exists m. split; [done|]. specialize (Hmsg m eq_refl). lia.
    - apply andb_false_iff in Hnull as [Hn|Hn].
      + by rewrite bool_decide_eq_true_2 in Hn.
      + apply Z.ltb_ge in Hn. lia. }
  rewrite Hpack. cbn [mbind option_bind].
  rewrite bind_byte_bits_length, length_header_length, length_seqZ in Hblen.
  destruct (Z.eqb_spec (Z.of_nat (length bitstream)) ((4 + message_len) * 8));
    [|lia].
  destruct (embed_pixels_runs img d bitstream ((4 + message_len) * 8) Hv
              ltac:(lia) ps Hinside 0 d) as (bi' & d' & Hloop & _ & Hbi');
    [lia|done|].
  specialize (Hbi' ltac:(lia)).
  unfold embed_bits. rewrite Hd. cbn [mbind option_bind]. rewrite Hloop.
  cbn [mbind option_bind].
  destruct (Z.eqb_spec bi' ((4 + message_len) * 8)); [|lia].
  by eexists _, _, _.
Qed.

Lemma encode_never_undefined_witness :
  ∃ rc img' n',
    steg_encode_message (λ n, Nat.even n) (create_test_image 4 4 50 50 50)
      (Some [72; 105; 33]) 2 3 2%float 0 = Some (rc, img', n').
Proof.
  apply (encode_never_undefined _ (create_test_image 4 4 50 50 50)
           (replicate 48 50)).
  - apply valid_test_image_4x4.
  - lia.
  - lia.
  - intros m [= <-]. simpl. lia.
Defined.

(** X17: on a valid image [steg_decode_message] has no undefined behaviour,
    whatever the pixel bytes are and whatever the allocator does: the length
    it reads from the image is checked against the capacity before any bit
    of the message is read, so that no read leaves the pixel buffer or the
    extracted bit stream. *)
Theorem decode_never_undefined ok img d k t n :
  valid_image img d →
  ∃ rc message message_len n',
    steg_decode_message ok img k t n = Some (rc, message, message_len, n').
Proof.
  intros Hv. pose proof Hv as (Hd & _).
  unfold steg_decode_message. rewrite Hd.
  destruct (find_valid_is_Some ok img d k t n Hv)
    as [[[rc positions] n1] Hfind].
  rewrite Hfind. cbn [mbind option_bind].
  destruct (Z.eqb_spec rc 0) as [->|]; cbn [negb]; [|by eexists _, _, _, _].
  pose proof (find_success_window ok img k t n positions n1 Hfind) as Hk.
  rewrite (find_valid_success ok img d k t n positions n1 Hv Hk Hfind).
  set (ps := selected_positions img d k t).
  pose proof (selected_positions_length img d k t Hv Hk) as Hplen.
  pose proof (selected_positions_inside img d k t Hv Hk) as Hinside.
  fold ps in Hplen, Hinside.
  rewrite (size_t_small (Z.of_nat (length ps))) by lia.
  rewrite (size_t_small (Z.of_nat (length ps) * 3)) by lia.
  destruct (Z.ltb_spec (Z.of_nat (length ps) * 3) 32);
    [by eexists _, _, _, _|].
  rewrite (extract_bits_spec img d 32 Hv ps Hinside) by lia.
  cbn [mbind option_bind]. change (0 =? 0) with true. cbn [negb].
  set (stream := lsb_stream img d ps).
  assert (Z.of_nat (length stream) = 3 * Z.of_nat (length ps)) as Hslen.
  { unfold stream. rewrite lsb_stream_length. lia. }
  destruct (read_bytes_total (take (Z.to_nat 32) stream) 4 0)
    as [[header_bytes i] Hhdr]; [lia|rewrite length_take; lia|].
  rewrite Hhdr. cbn [mbind option_bind].
  apply read_bytes_shape in Hhdr as [Hl4 Hhdr].
  destruct header_bytes as [|b0 [|b1 [|b2 [|b3 rest]]]]; try discriminate Hl4.
  cbn [lookup list_lookup mbind option_bind].
  set (len := Z.lor (Z.lor (Z.lor (Z.lor 0 b0) (u32 (Z.shiftl b1 8)))
                       (u32 (Z.shiftl b2 16))) (u32 (Z.shiftl b3 24))).
  assert (0 ≤ len < 2 ^ 32) as Hlen.
  { apply Forall_cons in Hhdr as [Hb0 _]. unfold len.
    repeat apply lor_range; try lia; unfold u32; apply Z.mod_pos_bound; lia. }
  rewrite (size_t_small (4 + len)) by lia.
  rewrite (size_t_small ((4 + len) * 8)) by lia.
  destruct (Z.ltb_spec (Z.of_nat (length ps) * 3) ((4 + len) * 8));
    [by eexists _, _, _, _|].
  destruct (ok n1); cbn [negb]; [|by eexists _, _, _, _].
  rewrite (extract_bits_spec img d ((4 + len) * 8) Hv ps Hinside) by lia.
  fold stream. cbn [mbind option_bind]. change (0 =? 0) with true. cbn [negb].
  destruct (ok (S n1)); cbn [negb]; [|by eexists _, _, _, _].
  destruct (read_bytes_total (take (Z.to_nat ((4 + len) * 8)) stream) len 32)
    as [[m j] Hm]; [lia|rewrite length_take; lia|].
  rewrite Hm. cbn [mbind option_bind]. by eexists _, _, _, _.
Qed.

Lemma decode_never_undefined_witness :
  ∃ rc message message_len n',
    steg_decode_message (λ n, Nat.even n) (create_test_image 4 4 50 50 50)
      3 2%float 0 = Some (rc, message, message_len, n').
Proof.
  apply (decode_never_undefined _ (create_test_image 4 4 50 50 50)
           (replicate 48 50)).
  apply valid_test_image_4x4.
Defined.

(** ** Loading *)

Lemma field_take header (k offset len : nat) :
  (offset + len ≤ k)%nat →
  field (take k header) offset len = field header offset len.
Proof.
  intros Hk. unfold field.
  rewrite !take_drop_commute, take_take. do 2 f_equal. lia.
Qed.

Lemma stride_bounds w :
  0 < w → w * 3 ≤ (w * 3 + 3) / 4 * 4 ≤ w * 3 + 3.
Proof.
  intros. pose proof (Z.div_mod (w * 3 + 3) 4 ltac:(lia)).
  pose proof (Z.mod_pos_bound (w * 3 + 3) 4 ltac:(lia)). lia.
Qed.

Lemma bmp_file_size file w h s z :
  bmp_file file w h s z →
  0 < s ∧ 0 < z ≤ INT_MAX ∧ (54 ≤ length file)%nat.
Proof.
  intros (_ & _ & _ & _ & _ & _ & Hw & Hh & _ & _ & -> & -> & Hmax & Hlen).
  pose proof (stride_bounds w Hw).
  assert (0 < (w * 3 + 3) / 4 * 4 * Z.abs h) by (apply Z.mul_pos_pos; lia).
  lia.
Qed.

Lemma bmp_file_valid file w h s z :
  bmp_file file w h s z → Forall (λ b, 0 ≤ b < 256) file →
  valid_image (loaded_image file w h s z) (take (Z.to_nat z) (drop 54 file)).
Proof.
  intros Hfile Hbytes. pose proof (bmp_file_size _ _ _ _ _ Hfile) as (? & ? & ?).
  destruct Hfile
    as (_ & _ & _ & _ & _ & _ & Hw & Hh & _ & _ & Hs & Hz & Hmax & Hlen).
  unfold valid_image. cbn [data width height stride size loaded_image].
  split; [done|]. split; [done|]. split; [done|].
  split; [subst s; by apply stride_bounds|].
  split; [done|]. split; [done|].
  split; [rewrite length_take, length_drop; lia|].
  by apply Forall_take, Forall_drop.
Qed.

Section Load.

Variable alloc_ok : nat → bool.

Lemma bmp_load_sound path img0 fs n img n' file :
  fs !! path = Some file → length (header img0) = 54%nat →
  bmp_load alloc_ok (Some path) img0 fs n = Some (0, img, n') →
  bmp_file file (width img) (height img) (stride img) (size img)
  ∧ img = loaded_image file (width img) (height img) (stride img) (size img)
  ∧ alloc_ok n = true ∧ n' = S n.
Proof.
  intros Hfs Hhdr. unfold bmp_load. rewrite Hfs. unfold fread.
  cbn [header bmp_free set_header].
  destruct (Z.eqb_spec (Z.of_nat (length (take (Z.to_nat 54) file))) 54)
    as [Hread|]; cbn [negb]; [|done].
  rewrite length_take in Hread.
  assert (take (Z.to_nat 54) file ++ drop (length (take (Z.to_nat 54) file))
                                       (header img0) = take 54 file) as ->.
  { rewrite drop_ge, app_nil_r by (rewrite length_take; lia). done. }
  rewrite !field_take by lia.
  rewrite !lookup_take_lt by lia.
  destruct (file !! 0%nat) as [h0|] eqn:H0; cbn [mbind option_bind]; [|done].
  destruct (file !! 1%nat) as [h1|] eqn:H1; cbn [mbind option_bind]; [|done].
  destruct (Z.eqb_spec h0 66) as [->|]; cbn [negb orb]; [|done].
  destruct (Z.eqb_spec h1 77) as [->|]; cbn [negb]; [|done].
  destruct (Z.eqb_spec (uint_le (field file 28 2)) 24) as [Hbpp|];
    cbn [negb]; [|done].
  destruct (Z.eqb_spec (uint_le (field file 30 4)) 0) as [Hcomp|];
    cbn [negb]; [|done].
  set (w := int32_le (field file 18 4)).
  set (h := int32_le (field file 22 4)).
  destruct (Z.leb_spec w 0); cbn [orb]; [done|].
  destruct (Z.eqb_spec h 0); [done|].
  destruct (if 0 <? h then Some h else int_of (- h)) as [abs_height|] eqn:Habs;
    cbn [mbind option_bind]; [|done].
  assert (abs_height = Z.abs h ∧ INT_MIN < h) as [-> Hmin].
  { destruct (Z.ltb_spec 0 h).
    - injection Habs as <-. unfold INT_MIN. lia.
    - apply int_of_Some in Habs as [-> ?]. unfold INT_MIN, INT_MAX in *. lia. }
  destruct (int_of (w * 3)) as [w3|] eqn:Hw3; cbn [mbind option_bind]; [|done].
  apply int_of_Some in Hw3 as [-> _].
  destruct (int_of (w * 3 + 3)) as [w33|] eqn:Hw33; cbn [mbind option_bind];
    [|done].
  apply int_of_Some in Hw33 as [-> Hw33].
  rewrite Z.quot_div_nonneg by lia.
  destruct (int_of ((w * 3 + 3) / 4 * 4)) as [s|] eqn:Hs;
    cbn [mbind option_bind]; [|done].
  apply int_of_Some in Hs as [-> _].
  destruct (int_of ((w * 3 + 3) / 4 * 4 * Z.abs h)) as [z|] eqn:Hz;
    cbn [mbind option_bind]; [|done].
  apply int_of_Some in Hz as [-> Hz].
  destruct (alloc_ok n); cbn [negb]; [|done].
  set (z := (w * 3 + 3) / 4 * 4 * Z.abs h) in *.
  assert (0 < z).
  { unfold z. pose proof (stride_bounds w ltac:(lia)).
    apply Z.mul_pos_pos; lia. }
  rewrite (size_t_small z) by (unfold INT_MAX in *; lia).
  destruct (Z.eqb_spec (Z.of_nat (length (take (Z.to_nat z)
                                            (drop (Z.to_nat 54) file)))) z)
    as [Hdata|]; cbn [negb]; [|done].
  rewrite length_take, length_drop in Hdata.
  intros [= <- <-].
  cbn [width height stride size set_data set_layout set_dimensions set_header
       bmp_free header data].
  split; [|done].
  unfold bmp_file. repeat (split; [done || lia|]). lia.
Qed.

Lemma bmp_load_complete path img0 fs n file w h s z :
  fs !! path = Some file → length (header img0) = 54%nat →
  bmp_file file w h s z → alloc_ok n = true →
  bmp_load alloc_ok (Some path) img0 fs n
  = Some (0, loaded_image file w h s z, S n).
Proof.
  intros Hfs Hhdr Hfile Hok.
  pose proof (bmp_file_size _ _ _ _ _ Hfile) as (Hs0 & Hz0 & Hlen54).
  destruct Hfile as (H0 & H1 & Hbpp & Hcomp & Hw & Hh & Hwpos & Hh0 & Hmin
                     & Hw33 & Hs & Hz & Hmax & Hlen).
  unfold bmp_load. rewrite Hfs. unfold fread.
  cbn [header bmp_free set_header].
  rewrite length_take.
  destruct (Z.eqb_spec (Z.of_nat (Z.to_nat 54 `min` length file)) 54);
    cbn [negb]; [|lia].
  assert (take (Z.to_nat 54) file ++ drop (Z.to_nat 54 `min` length file)
                                       (header img0) = take 54 file) as ->.
  { rewrite drop_ge, app_nil_r by lia. done. }
  rewrite !field_take by lia.
  rewrite !lookup_take_lt by lia.
  rewrite H0, H1. cbn [mbind option_bind]. change (66 =? 66) with true.
  change (77 =? 77) with true. cbn [negb orb].
  rewrite Hbpp, Hcomp, <- Hw, <- Hh. change (24 =? 24) with true.
  change (0 =? 0) with true. cbn [negb].
  destruct (Z.leb_spec w 0); [lia|]. cbn [orb].
  destruct (Z.eqb_spec h 0); [done|].
  assert ((if 0 <? h then Some h else int_of (- h)) = Some (Z.abs h)) as ->.
  { destruct (Z.ltb_spec 0 h); [f_equal; lia|].
    rewrite int_of_small by (unfold INT_MIN, INT_MAX in *; lia).
    f_equal. lia. }
  cbn [mbind option_bind].
  pose proof (stride_bounds w Hwpos).
  rewrite (int_of_small (w * 3)) by (unfold INT_MIN, INT_MAX in *; lia).
  cbn [mbind option_bind].
  rewrite (int_of_small (w * 3 + 3)) by (unfold INT_MIN, INT_MAX in *; lia).
  cbn [mbind option_bind].
  rewrite Z.quot_div_nonneg by lia. rewrite <- Hs.
  rewrite (int_of_small s) by (unfold INT_MIN, INT_MAX in *; lia).
  cbn [mbind option_bind]. rewrite <- Hz.
  rewrite (int_of_small z) by (unfold INT_MIN, INT_MAX in *; lia).
  cbn [mbind option_bind]. rewrite Hok. cbn [negb].
  rewrite (size_t_small z) by (unfold INT_MAX in *; lia).
  rewrite length_take, length_drop.
  destruct (Z.eqb_spec (Z.of_nat (Z.to_nat z
                                  `min` (length file - Z.to_nat 54))) z);
    cbn [negb]; [|lia].
  reflexivity.
Qed.

End Load.

Lemma bmp_load_opened ok filename img0 fs n img n' :
  bmp_load ok filename img0 fs n = Some (0, img, n') →
  ∃ path file, filename = Some path ∧ fs !! path = Some file.
Proof.
  unfold bmp_load. destruct filename as [path|]; [|done].
  destruct (fs !! path) as [file|] eqn:Hfs; [|done].
  intros _. by exists path, file.
Qed.

(** X18: what a successful [bmp_load] delivers.  When the file holds bytes
    and [bmp_load] returns 0, the image is valid (positive width, non-zero
    height, rows of [stride] bytes that hold the pixel triples, a buffer of
    stride * |height| = size bytes, each below 256); its header is the first
    54 bytes of the file, its buffer the [size] bytes that follow them, its
    width and height the little-endian signed integers at offsets 18 and 22,
    and its stride the row length rounded up to a multiple of four. *)
Theorem bmp_load_success ok path img0 fs n img n' file :
  fs !! path = Some file → Forall (λ b, 0 ≤ b < 256) file →
  length (header img0) = 54%nat →
  bmp_load ok (Some path) img0 fs n = Some (0, img, n') →
  ∃ d, valid_image img d
       ∧ header img = take 54 file
       ∧ d = take (Z.to_nat (size img)) (drop 54 file)
       ∧ width img = int32_le (field file 18 4)
       ∧ height img = int32_le (field file 22 4)
       ∧ stride img = (width img * 3 + 3) / 4 * 4.
Proof.
  intros Hfs Hbytes Hhdr Hload.
  destruct (bmp_load_sound ok path img0 fs n img n' file Hfs Hhdr Hload)
    as (Hfile & Himg & _).
  exists (take (Z.to_nat (size img)) (drop 54 file)).
  split; [rewrite Himg at 1; by apply bmp_file_valid|].
  split; [by rewrite Himg|]. split; [done|].
  destruct Hfile as (_ & _ & _ & _ & Hw & Hh & _ & _ & _ & _ & Hs & _).
  done.
Qed.

(** X19: the files [bmp_load] accepts.  With a 54-byte header field to read
    into, [bmp_load] returns 0 exactly when its allocation request is granted
    and the file is well formed: at least 54 bytes, the signature "BM", 24
    bits per pixel, compression 0, width above 0, height other than 0,
    dimensions whose stride and size fit [int32_t], and at least [size] bytes
    after the header.  The image is then the header, the dimensions and the
    pixel bytes of the file; bytes after the pixel data are ignored. *)
Theorem bmp_load_accepts ok path img0 fs n img n' file :
  fs !! path = Some file → length (header img0) = 54%nat →
  bmp_load ok (Some path) img0 fs n = Some (0, img, n')
  ↔ (ok n = true ∧ n' = S n
     ∧ ∃ w h s z, bmp_file file w h s z ∧ img = loaded_image file w h s z).
Proof.
  intros Hfs Hhdr. split.
  - intros Hload.
    destruct (bmp_load_sound ok path img0 fs n img n' file Hfs Hhdr Hload)
      as (Hfile & Himg & Hok & Hn).
    split; [done|]. split; [done|]. eauto 10.
  - intros (Hok & -> & w & h & s & z & Hfile & ->).
    by apply bmp_load_complete.
Qed.

(** X20: [bmp_load] returns 0 or 1, and a failed load leaves no buffer
    behind: with the code 1 the [data] pointer of the image is NULL, for
    every way of failing (no file name, no such file, a short or malformed
    header, a refused allocation, or pixel data cut short). *)
Theorem bmp_load_failure ok filename img0 fs n rc img n' :
  bmp_load ok filename img0 fs n = Some (rc, img, n') →
  (rc = 0 ∨ rc = 1) ∧ (rc = 1 → data img = None).
Proof.
  unfold bmp_load.
  assert (∀ (i : BmpImage) (m : nat), data i = None →
            Some (1, i, m) = Some (rc, img, n') →
            (rc = 0 ∨ rc = 1) ∧ (rc = 1 → data img = None)) as Hfail.
  { intros i m Hi [= <- <- _]. auto. }
  destruct filename as [path|]; [|by apply Hfail].
  destruct (fs !! path) as [file|]; [|by apply Hfail].
  unfold fread. destruct (negb _); [by apply Hfail|].
  destruct (_ !! 0%nat); cbn [mbind option_bind]; [|done].
  destruct (_ !! 1%nat); cbn [mbind option_bind]; [|done].
  destruct (_ || _); [by apply Hfail|].
  destruct (negb _); [by apply Hfail|].
  destruct (negb _); [by apply Hfail|].
  destruct (_ || _); [by apply Hfail|].
  destruct (if 0 <? _ then _ else _); cbn [mbind option_bind]; [|done].
  destruct (int_of _); cbn [mbind option_bind]; [|done].
  destruct (int_of _); cbn [mbind option_bind]; [|done].
  destruct (int_of _); cbn [mbind option_bind]; [|done].
  destruct (int_of _); cbn [mbind option_bind]; [|done].
  destruct (negb _); [by apply Hfail|].
  destruct (negb _); [by apply Hfail|].
  intros [= <- <- _]. split; [auto|lia].
Qed.

(** X21: [bmp_load] does not guard its arithmetic.  For a file with a
    well-formed header whose dimensions are too large, namely a height of
    INT_MIN, a width with width * 3 + 3 above INT_MAX, or a stride whose
    product with |height| is above INT_MAX, the computation of |height|, of
    the stride or of the size overflows [int32_t]: the behaviour is
    undefined. *)
Theorem bmp_load_overflow ok path img0 fs n file :
  fs !! path = Some file → length (header img0) = 54%nat →
  (54 ≤ length file)%nat →
  file !! 0%nat = Some 66 → file !! 1%nat = Some 77 →
  uint_le (field file 28 2) = 24 → uint_le (field file 30 4) = 0 →
  0 < int32_le (field file 18 4) → int32_le (field file 22 4) ≠ 0 →
  (int32_le (field file 22 4) < - INT_MAX
   ∨ INT_MAX < int32_le (field file 18 4) * 3 + 3
   ∨ INT_MAX < (int32_le (field file 18 4) * 3 + 3) / 4 * 4
               * Z.abs (int32_le (field file 22 4))) →
  bmp_load ok (Some path) img0 fs n = None.
Proof.
  intros Hfs Hhdr Hlen H0 H1 Hbpp Hcomp Hw Hh Hbig.
  destruct (bmp_load ok (Some path) img0 fs n) as [[[rc img] n']|] eqn:Hload;
    [exfalso|done].
  revert Hload. unfold bmp_load. rewrite Hfs. unfold fread.
  cbn [header bmp_free set_header]. rewrite length_take.
  destruct (Z.eqb_spec (Z.of_nat (Z.to_nat 54 `min` length file)) 54);
    cbn [negb]; [|lia].
  assert (take (Z.to_nat 54) file ++ drop (Z.to_nat 54 `min` length file)
                                       (header img0) = take 54 file) as ->.
  { rewrite drop_ge, app_nil_r by lia. done. }
  rewrite !field_take by lia.
  rewrite !lookup_take_lt by lia.
  rewrite H0, H1. cbn [mbind option_bind]. change (66 =? 66) with true.
  change (77 =? 77) with true. cbn [negb orb].
  rewrite Hbpp, Hcomp. change (24 =? 24) with true.
  change (0 =? 0) with true. cbn [negb].
  set (w := int32_le (field file 18 4)) in *.
  set (h := int32_le (field file 22 4)) in *.
  destruct (Z.leb_spec w 0); [lia|]. cbn [orb].
  destruct (Z.eqb_spec h 0); [done|].
  destruct (if 0 <? h then Some h else int_of (- h)) as [abs_height|] eqn:Habs;
    cbn [mbind option_bind]; [|done].
  assert (abs_height = Z.abs h ∧ - INT_MAX ≤ h) as [-> Hmin].
  { destruct (Z.ltb_spec 0 h).
    - injection Habs as <-. unfold INT_MAX. lia.
    - apply int_of_Some in Habs as [-> ?]. unfold INT_MIN, INT_MAX in *. lia. }
  destruct (int_of (w * 3)) as [w3|] eqn:Hw3; cbn [mbind option_bind]; [|done].
  apply int_of_Some in Hw3 as [-> _].
  destruct (int_of (w * 3 + 3)) as [w33|] eqn:Hw33; cbn [mbind option_bind];
    [|done].
  apply int_of_Some in Hw33 as [-> Hw33].
  rewrite Z.quot_div_nonneg by lia.
  destruct (int_of ((w * 3 + 3) / 4 * 4)) as [s|] eqn:Hs;
    cbn [mbind option_bind]; [|done].
  apply int_of_Some in Hs as [-> _].
  destruct (int_of ((w * 3 + 3) / 4 * 4 * Z.abs h)) as [z|] eqn:Hz;
    cbn [mbind option_bind]; [|done].
  apply int_of_Some in Hz as [-> Hz]. lia.
Qed.

Lemma bmp_load_success_witness :
  ∃ d, valid_image (loaded_image (bmp_header 2 (-2) 24 0 ++ seqZ 10 20)
                      2 (-2) 8 16) d
       ∧ d = seqZ 10 16.
Proof.
  destruct (bmp_load_success always_ok "in.bmp" blank_image
              {[ "in.bmp" := bmp_header 2 (-2) 24 0 ++ seqZ 10 20 ]} 0
              (loaded_image (bmp_header 2 (-2) 24 0 ++ seqZ 10 20) 2 (-2) 8 16)
              1%nat (bmp_header 2 (-2) 24 0 ++ seqZ 10 20))
    as (d & Hv & _ & Hd & _).
  - reflexivity.
  - refine (bool_decide_unpack _ _). vm_compute. exact I.
  - reflexivity.
  - vm_compute. reflexivity.
  - exists d. split; [exact Hv|]. rewrite Hd. reflexivity.
Defined.

Lemma bmp_load_accepts_witness :
  bmp_load (λ n, Nat.eqb n 0) (Some "in.bmp") blank_image
    {[ "in.bmp" := bmp_header 2 (-2) 24 0 ++ seqZ 10 20 ]} 0
  = Some (0, loaded_image (bmp_header 2 (-2) 24 0 ++ seqZ 10 20) 2 (-2) 8 16,
          1%nat).
Proof.
  apply (bmp_load_accepts (λ n, Nat.eqb n 0) "in.bmp" blank_image
           {[ "in.bmp" := bmp_header 2 (-2) 24 0 ++ seqZ 10 20 ]} 0
           _ 1%nat (bmp_header 2 (-2) 24 0 ++ seqZ 10 20)).
  - reflexivity.
  - reflexivity.
  - split; [reflexivity|]. split; [reflexivity|].
    exists 2, (-2), 8, 16. split; [|reflexivity].
    unfold bmp_file, INT_MIN, INT_MAX.
    repeat (split; [reflexivity || discriminate || (simpl; lia)|]).
    simpl. lia.
Defined.

Lemma bmp_load_failure_witness :
  (1 = 0 ∨ 1 = 1)
  ∧ (1 = 1 → data (set_layout (set_dimensions
                     (set_header (bmp_free blank_image)
                        (bmp_header 2 (-2) 24 0))
                     2 (-2)) 8 16) = None).
Proof.
  apply (bmp_load_failure always_ok (Some "in.bmp") blank_image
           {[ "in.bmp" := bmp_header 2 (-2) 24 0 ++ seqZ 10 15 ]} 0
           1 _ 1%nat).
  vm_compute. reflexivity.
Defined.

Lemma bmp_load_overflow_witness :
  bmp_load always_ok (Some "in.bmp") blank_image
    {[ "in.bmp" := bmp_header 65536 65536 24 0 ++ seqZ 10 20 ]} 0 = None.
Proof.
  apply (bmp_load_overflow always_ok "in.bmp" blank_image
           {[ "in.bmp" := bmp_header 65536 65536 24 0 ++ seqZ 10 20 ]} 0
           (bmp_header 65536 65536 24 0 ++ seqZ 10 20)).
  - reflexivity.
  - reflexivity.
  - simpl. lia.
  - reflexivity.
  - reflexivity.
  - reflexivity.
  - reflexivity.
  - vm_compute. reflexivity.
  - vm_compute. discriminate.
  - right. right. vm_compute. reflexivity.
Defined.

(** ** Saving *)

Lemma take_full {A} (l : list A) (r : nat) (k : Z) :
  Z.of_nat (length (take r l)) = k → Z.of_nat (length l) ≤ k → take r l = l.
Proof. intros Hlen Hk. rewrite length_take in Hlen. apply take_ge. lia. Qed.


Lemma fwrite_all buf count room :
  0 ≤ count ≤ Z.of_nat (length buf) → count ≤ room →
  fwrite buf count room = Some (take (Z.to_nat count) buf).
Proof.
  intros Hc Hr. unfold fwrite.
  destruct (Z.ltb_spec (Z.of_nat (length buf)) count); [lia|].
  f_equal. apply take_ge. rewrite length_take. lia.
Qed.






Lemma bmp_save_complete (open_ok : string → bool) (room : string → Z)
    path img d (fs : file_system) :
  data img = Some d → 0 < size img ≤ INT_MAX →
  (54 ≤ length (header img))%nat → size img ≤ Z.of_nat (length d) →
  open_ok path = true → 54 + size img ≤ room path →
  bmp_save open_ok room (Some path) img fs
  = Some (0, <[path := take 54 (header img)
                        ++ take (Z.to_nat (size img)) d]> fs).
Proof.
  intros Hd Hz Hh Hlen Hopen Hroom. unfold bmp_save. rewrite Hd.
  destruct (Z.leb_spec (size img) 0); [lia|]. rewrite Hopen. cbn [negb].
  rewrite (size_t_small (size img)) by (unfold INT_MAX in *; lia).
  rewrite (fwrite_all (header img) 54) by lia.
  cbn [mbind option_bind]. rewrite length_take.
  destruct (Z.eqb_spec (Z.of_nat (Z.to_nat 54 `min` length (header img))) 54);
    cbn [negb]; [|lia].
  rewrite (fwrite_all d (size img)) by lia.
  cbn [mbind option_bind]. rewrite length_take.
  destruct (Z.eqb_spec (Z.of_nat (Z.to_nat (size img) `min` length d))
              (size img)); cbn [negb]; [|lia].
  reflexivity.
Qed.

(** ** Loading what was saved *)

Lemma bmp_file_take file w h s z :
  bmp_file file w h s z →
  bmp_file (take (Z.to_nat (54 + z)) file) w h s z
  ∧ loaded_image (take (Z.to_nat (54 + z)) file) w h s z
    = loaded_image file w h s z.
Proof.
  intros Hfile. pose proof (bmp_file_size _ _ _ _ _ Hfile) as (Hs0 & Hz0 & Hl).
  destruct Hfile as (H0 & H1 & Hbpp & Hcomp & Hw & Hh & Hwpos & Hh0 & Hmin
                     & Hw33 & Hs & Hz & Hmax & Hlen).
  split.
  - unfold bmp_file. rewrite !field_take, !lookup_take_lt, length_take by lia.
    repeat (split; [done|]). lia.
  - unfold loaded_image. f_equal.
    + rewrite take_take. f_equal. lia.
    + f_equal. replace (Z.to_nat (54 + z)) with (54 + Z.to_nat z)%nat by lia.
      rewrite <- take_drop_commute, take_take. f_equal. lia.
Qed.

(** X23: saving a loaded image and loading the copy.  When [bmp_load] has
    returned 0 for a file, and the target can be opened and takes
    54 + size bytes, [bmp_save] returns 0 and writes the first 54 + size
    bytes of that file, the header and the pixel data, dropping what
    follows; [bmp_load] of the copy, its allocation granted, returns 0 with
    the same image. *)
Theorem bmp_copy_preserves_image
    ok open_ok room src dst img0 img1 fs n img n' m file :
  fs !! src = Some file →
  length (header img0) = 54%nat → length (header img1) = 54%nat →
  bmp_load ok (Some src) img0 fs n = Some (0, img, n') →
  open_ok dst = true → 54 + size img ≤ room dst → ok m = true →
  bmp_save open_ok room (Some dst) img fs
    = Some (0, <[dst := take (Z.to_nat (54 + size img)) file]> fs)
  ∧ bmp_load ok (Some dst) img1
      (<[dst := take (Z.to_nat (54 + size img)) file]> fs) m
    = Some (0, img, S m).
Proof.
  intros Hfs Hh0 Hh1 Hload Hopen Hroom Hok.
  destruct (bmp_load_sound ok src img0 fs n img n' file Hfs Hh0 Hload)
    as (Hfile & Himg & _).
  destruct img as [hd w h s z dt]. cbn [width height stride size] in *.
  clear Hload. unfold loaded_image in Himg. injection Himg as -> ->.
  pose proof (bmp_file_size _ _ _ _ _ Hfile) as (Hs0 & Hz0 & Hl).
  pose proof Hfile as (_ & _ & _ & _ & _ & _ & _ & _ & _ & _ & _ & _ & _ & Hlen).
  split.
  - rewrite (bmp_save_complete open_ok room dst _
               (take (Z.to_nat z) (drop 54 file)));
      cbn [data header size]; rewrite ?length_take, ?length_drop;
      [|done|lia|lia|lia|done|lia].
    do 3 f_equal. rewrite !take_take.
    replace (54 `min` 54)%nat with 54%nat by lia.
    replace (Z.to_nat z `min` Z.to_nat z)%nat with (Z.to_nat z) by lia.
    rewrite take_take_drop. f_equal. lia.
  - destruct (bmp_file_take _ _ _ _ _ Hfile) as [Hfile' Heq].
    change (mkBmpImage (take 54 file) w h s z
              (Some (take (Z.to_nat z) (drop 54 file))))
      with (loaded_image file w h s z).
    rewrite <- Heq.
    apply bmp_load_complete; [apply lookup_insert_eq|done|done|done].
Qed.

Lemma bmp_copy_preserves_image_witness :
  bmp_save (λ _, true) (λ _, 70) (Some "out.bmp")
    (loaded_image (bmp_header 2 (-2) 24 0 ++ seqZ 10 20) 2 (-2) 8 16)
    {[ "in.bmp" := bmp_header 2 (-2) 24 0 ++ seqZ 10 20 ]}
  = Some (0, <[ "out.bmp" := bmp_header 2 (-2) 24 0 ++ seqZ 10 16 ]>
               {[ "in.bmp" := bmp_header 2 (-2) 24 0 ++ seqZ 10 20 ]})
  ∧ bmp_load always_ok (Some "out.bmp") blank_image
      (<[ "out.bmp" := bmp_header 2 (-2) 24 0 ++ seqZ 10 16 ]>
         {[ "in.bmp" := bmp_header 2 (-2) 24 0 ++ seqZ 10 20 ]}) 3
    = Some (0, loaded_image (bmp_header 2 (-2) 24 0 ++ seqZ 10 20) 2 (-2) 8 16,
            4%nat).
Proof.
  apply (bmp_copy_preserves_image always_ok (λ _, true) (λ _, 70)
           "in.bmp" "out.bmp" blank_image blank_image
           {[ "in.bmp" := bmp_header 2 (-2) 24 0 ++ seqZ 10 20 ]} 0
           (loaded_image (bmp_header 2 (-2) 24 0 ++ seqZ 10 20) 2 (-2) 8 16)
           1%nat 3%nat (bmp_header 2 (-2) 24 0 ++ seqZ 10 20)).
  - reflexivity.
  - reflexivity.
  - reflexivity.
  - vm_compute. reflexivity.
  - reflexivity.
  - simpl. lia.
  - reflexivity.
Defined.

(** ** The command line *)

Section Cli.

Variables (alloc_ok : nat → bool) (open_ok : string → bool) (room : string → Z).

Lemma main_encode_unfold prog cover msgfile out (fs : file_system) :
  main alloc_ok open_ok room [prog; "encode"; cover; msgfile; out] fs
  = '(rc, img, n) ← bmp_load alloc_ok (Some cover) blank_image fs 0;
    if negb (rc =? 0) then Some (1, fs) else
    let '(rc, message, message_len, n) :=
      read_file_to_buffer alloc_ok msgfile fs n in
    if negb (rc =? 0) then Some (1, fs) else
    '(rc, img, n) ← steg_encode_message alloc_ok img message message_len
                      8 5%float n;
    if negb (rc =? 0) then Some (1, fs) else
    '(rc, fs) ← bmp_save open_ok room (Some out) img fs;
    if negb (rc =? 0) then Some (1, fs) else Some (0, fs).
Proof. reflexivity. Qed.

Lemma main_decode_unfold prog stego out (fs : file_system) :
  main alloc_ok open_ok room [prog; "decode"; stego; out] fs
  = '(rc, img, n) ← bmp_load alloc_ok (Some stego) blank_image fs 0;
    if negb (rc =? 0) then Some (1, fs) else
    '(rc, message, message_len, n) ←
      steg_decode_message alloc_ok img 8 5%float n;
    if negb (rc =? 0) then Some (1, fs) else
    buf ← message;
    '(rc, fs) ← write_buffer_to_file open_ok room out buf message_len fs;
    if negb (rc =? 0) then Some (1, fs) else Some (0, fs).
Proof. reflexivity. Qed.

Lemma bmp_save_frame path img (fs : file_system) rc fs' :
  bmp_save open_ok room (Some path) img fs = Some (rc, fs') →
  (rc = 0 ∨ rc = 1) ∧ ∀ p, p ≠ path → fs' !! p = fs !! p.
Proof.
  unfold bmp_save.
  destruct (data img) as [d|]; [|intros [= <- <-]; auto].
  destruct (size img <=? 0); [intros [= <- <-]; auto|].
  destruct (open_ok path); cbn [negb]; [|intros [= <- <-]; auto].
  destruct (fwrite (header img) 54 (room path)) as [w1|];
    cbn [mbind option_bind]; [|done].
  destruct (negb (Z.of_nat (length w1) =? 54)).
  { intros [= <- <-]. split; [auto|]. intros p Hp. by rewrite lookup_insert_ne. }
  destruct (fwrite d _ _) as [w2|]; cbn [mbind option_bind]; [|done].
  destruct (negb _); intros [= <- <-];
    (split; [auto|intros p Hp; by rewrite lookup_insert_ne]).
Qed.

Lemma write_buffer_cases path buf len (fs : file_system) rc fs' :
  write_buffer_to_file open_ok room path buf len fs = Some (rc, fs') →
  (rc = 0 ∨ rc = 1) ∧ ∀ p, p ≠ path → fs' !! p = fs !! p.
Proof.
  unfold write_buffer_to_file.
  destruct (open_ok path); cbn [negb]; [|intros [= <- <-]; auto].
  destruct (fwrite buf len (room path)) as [written|];
    cbn [mbind option_bind]; [|done].
  destruct (negb _); intros [= <- <-];
    (split; [auto|intros p Hp; by rewrite lookup_insert_ne]).
Qed.

Lemma write_buffer_complete path buf (fs : file_system) :
  open_ok path = true → Z.of_nat (length buf) ≤ room path →
  write_buffer_to_file open_ok room path buf (Z.of_nat (length buf)) fs
  = Some (0, <[path := buf]> fs).
Proof.
  intros Hopen Hroom. unfold write_buffer_to_file. rewrite Hopen. cbn [negb].
  rewrite fwrite_all by lia. cbn [mbind option_bind].
  rewrite Nat2Z.id, firstn_all, Z.eqb_refl. reflexivity.
Qed.

Lemma read_file_complete path (fs : file_system) file n :
  fs !! path = Some file → alloc_ok n = true →
  Z.of_nat (length file) < 2 ^ 64 →
  read_file_to_buffer alloc_ok path fs n
  = (0, Some file, Z.of_nat (length file), S n).
Proof.
  intros Hfs Hok Hlen. unfold read_file_to_buffer. rewrite Hfs, Hok.
  cbn [negb]. rewrite size_t_small by lia. unfold fread.
  rewrite Nat2Z.id, firstn_all, Z.eqb_refl. reflexivity.
Qed.

(** X24: the exit status of [main] is 0 or 1 (the capacity signal -1 of
    [steg_encode_message] is reported as 1), and a run changes no file but
    the one named by its last argument: the cover image and the message file
    are only read, and a run that stops with a usage error changes
    nothing. *)
Theorem main_touches_only_output argv (fs : file_system) rc fs' :
  main alloc_ok open_ok room argv fs = Some (rc, fs') →
  (rc = 0 ∨ rc = 1) ∧ ∀ p, last argv ≠ Some p → fs' !! p = fs !! p.
Proof.
  assert (∀ r : option (Z * file_system),
            r = Some (1, fs) → r = Some (rc, fs') →
            (rc = 0 ∨ rc = 1) ∧ ∀ p, last argv ≠ Some p → fs' !! p = fs !! p)
    as Hfail.
  { intros r -> [= <- <-]. auto. }
  unfold main.
  destruct (Z.ltb_spec (Z.of_nat (length argv)) 2); [by apply Hfail|].
  destruct (argv !! 1%nat) as [mode|]; cbn [mbind option_bind]; [|done].
  destruct (String.eqb mode "encode").
  { destruct (Z.eqb_spec (Z.of_nat (length argv)) 5) as [Hargc|]; cbn [negb];
      [|by apply Hfail].
    destruct argv as [|a0 [|a1 [|a2 [|a3 [|a4 [|]]]]]];
      try (exfalso; cbn [length] in Hargc; lia).
    cbn [lookup list_lookup mbind option_bind].
    destruct (bmp_load _ _ _ _ _) as [[[rc1 img] n1]|];
      cbn [mbind option_bind]; [|done].
    destruct (negb (rc1 =? 0)); [by apply Hfail|].
    destruct (read_file_to_buffer _ _ _ _) as [[[rc2 msg] len] n2].
    destruct (negb (rc2 =? 0)); [by apply Hfail|].
    destruct (steg_encode_message _ _ _ _ _ _ _) as [[[rc3 img'] n3]|];
      cbn [mbind option_bind]; [|done].
    destruct (negb (rc3 =? 0)); [by apply Hfail|].
    destruct (bmp_save _ _ _ _ _) as [[rc4 fs4]|] eqn:Hsave;
      cbn [mbind option_bind]; [|done].
    apply bmp_save_frame in Hsave as [_ Hframe].
    destruct (negb (rc4 =? 0)); intros [= <- <-];
      (split; [auto|intros p Hp; apply Hframe; intros ->; by apply Hp]). }
  destruct (String.eqb mode "decode"); [|by apply Hfail].
  destruct (Z.eqb_spec (Z.of_nat (length argv)) 4) as [Hargc|]; cbn [negb];
    [|by apply Hfail].
  destruct argv as [|a0 [|a1 [|a2 [|a3 [|]]]]];
    try (exfalso; cbn [length] in Hargc; lia).
  cbn [lookup list_lookup mbind option_bind].
  destruct (bmp_load _ _ _ _ _) as [[[rc1 img] n1]|];
    cbn [mbind option_bind]; [|done].
  destruct (negb (rc1 =? 0)); [by apply Hfail|].
  destruct (steg_decode_message _ _ _ _ _) as [[[[rc2 msg] len] n2]|];
    cbn [mbind option_bind]; [|done].
  destruct (negb (rc2 =? 0)); [by apply Hfail|].
  destruct msg as [buf|]; cbn [mbind option_bind]; [|done].
  destruct (write_buffer_to_file _ _ _ _ _ _) as [[rc3 fs3]|] eqn:Hwrite;
    cbn [mbind option_bind]; [|done].
  apply write_buffer_cases in Hwrite as [_ Hframe].
  destruct (negb (rc3 =? 0)); intros [= <- <-];
    (split; [auto|intros p Hp; apply Hframe; intros ->; by apply Hp]).
Qed.

End Cli.

Lemma main_touches_only_output_witness :
  (1 = 0 ∨ 1 = 1)
  ∧ ∀ p, last ["steg_cli"; "encode"; "cover.bmp"; "msg.txt"; "out.bmp"]
           ≠ Some p →
      ({[ "cover.bmp" := bmp_header 8 8 24 0 ++ replicate 192 100;
          "msg.txt" := replicate 30 65 ]} : file_system) !! p
      = ({[ "cover.bmp" := bmp_header 8 8 24 0 ++ replicate 192 100;
            "msg.txt" := replicate 30 65 ]} : file_system) !! p.
Proof.
  apply (main_touches_only_output always_ok (λ _, true) (λ _, 1000)
           ["steg_cli"; "encode"; "cover.bmp"; "msg.txt"; "out.bmp"]).
  vm_compute. reflexivity.
Defined.

Lemma field_app l1 l2 (offset len : nat) :
  (offset + len ≤ length l1)%nat →
  field (l1 ++ l2) offset len = field l1 offset len.
Proof.
  intros Hlen. unfold field.
  rewrite drop_app_le by lia. rewrite take_app_le; [done|].
  rewrite length_drop. lia.
Qed.


Lemma bmp_file_app file w h s z d' :
  bmp_file file w h s z → Z.of_nat (length d') = z →
  bmp_file (take 54 file ++ d') w h s z
  ∧ loaded_image (take 54 file ++ d') w h s z
    = set_data (loaded_image file w h s z) d'.
Proof.
  intros Hfile Hd'. pose proof (bmp_file_size _ _ _ _ _ Hfile) as (Hs0 & Hz0 & Hl).
  destruct Hfile as (H0 & H1 & Hbpp & Hcomp & Hw & Hh & Hwpos & Hh0 & Hmin
                     & Hw33 & Hs & Hz & Hmax & Hlen).
  assert (length (take 54 file) = 54%nat) as Hl54
    by (rewrite length_take; lia).
  split.
  - unfold bmp_file.
    rewrite !field_app, !field_take by lia.
    rewrite !lookup_app_l, !lookup_take_lt by lia.
    rewrite length_app, Hl54.
    repeat (split; [done|]). lia.
  - unfold loaded_image, set_data. cbn [header width height stride size].
    f_equal.
    + by rewrite take_app_length'.
    + f_equal. rewrite drop_app_length' by done. apply take_ge. lia.
Qed.

(** X26: the round trip through the command line.  Let the cover be a
    well-formed file of bytes, the message a file of fewer than 2^32 bytes,
    all allocations be granted and both outputs be writable with room for
    their bytes.  If the positions selected in the cover with the window
    size 8 and the threshold 5.0 offer the capacity for the message and name
    no pixel twice among those that receive a bit, then the encoding run
    exits with status 0, and the decoding run on the file it wrote exits
    with status 0 and writes exactly the message. *)
Theorem cli_round_trip ok open_ok room prog cover msgfile stego out
    (fs : file_system) file message w h s z :
  (∀ n, ok n = true) →
  fs !! cover = Some file → Forall (λ b, 0 ≤ b < 256) file →
  bmp_file file w h s z →
  fs !! msgfile = Some message → Forall (λ b, 0 ≤ b < 256) message →
  Z.of_nat (length message) < 2 ^ 32 →
  (4 + Z.of_nat (length message)) * 8
    ≤ 3 * Z.of_nat (length (selected_positions (loaded_image file w h s z)
                              (take (Z.to_nat z) (drop 54 file)) 8 5%float)) →
  distinct_used (selected_positions (loaded_image file w h s z)
                   (take (Z.to_nat z) (drop 54 file)) 8 5%float)
    ((4 + Z.of_nat (length message)) * 8) →
  open_ok stego = true → 54 + z ≤ room stego →
  open_ok out = true → Z.of_nat (length message) ≤ room out →
  ∃ fs1,
    main ok open_ok room [prog; "encode"; cover; msgfile; stego] fs
      = Some (0, fs1)
    ∧ main ok open_ok room [prog; "decode"; stego; out] fs1
      = Some (0, <[out := message]> fs1).
Proof.
  intros Hok Hcover Hbytes Hfile Hmsgfile Hmsg HL Hcap Hdist Hopen1 Hroom1
    Hopen2 Hroom2.
  pose proof (bmp_file_size _ _ _ _ _ Hfile) as (Hs0 & Hz0 & Hl).
  pose proof Hfile as (_ & _ & _ & _ & _ & _ & _ & _ & _ & _ & _ & _ & _ & Hlen).
  set (img := loaded_image file w h s z) in *.
  set (d := take (Z.to_nat z) (drop 54 file)) in *.
  pose proof (bmp_file_valid file w h s z Hfile Hbytes) as Hv. fold img d in Hv.
  destruct (round_trip_granted ok img d message 8 5%float 2 Hv ltac:(lia) Hmsg
              HL ltac:(auto) Hcap Hdist)
    as (d' & n1 & _ & Henc & Hlen' & Hbytes' & Hdec).
  assert (Z.of_nat (length d') = z) as Hd'.
  { rewrite Hlen'. unfold d. rewrite length_take, length_drop. lia. }
  destruct (bmp_file_app file w h s z d' Hfile Hd') as [Hfile' Himg'].
  fold img in Himg'.
  exists (<[stego := take 54 file ++ d']> fs). split.
  - rewrite main_encode_unfold.
    rewrite (bmp_load_complete ok cover blank_image fs 0 file w h s z)
      by (done || apply Hok).
    fold img. cbn [mbind option_bind]. change (0 =? 0) with true. cbn [negb].
    rewrite (read_file_complete ok msgfile fs message 1) by (done || lia).
    change (0 =? 0) with true. cbn [negb].
    rewrite Henc. cbn [mbind option_bind]. change (0 =? 0) with true.
    cbn [negb].
    rewrite (bmp_save_complete open_ok room stego (set_data img d') d');
      [|done|done|cbn; rewrite length_take; lia|cbn; lia|done|done].
    cbn [mbind option_bind header set_data img loaded_image size].
    change (0 =? 0) with true. cbn [negb].
    rewrite take_take. replace (54 `min` 54)%nat with 54%nat by lia.
    rewrite (take_ge d') by lia. done.
  - rewrite main_decode_unfold.
    rewrite (bmp_load_complete ok stego blank_image _ 0 (take 54 file ++ d')
               w h s z); [|apply lookup_insert_eq|done|done|apply Hok].
    rewrite Himg'. cbn [mbind option_bind]. change (0 =? 0) with true.
    cbn [negb].
    destruct (Hdec 1%nat) as [n2 ->]; [auto|].
    cbn [mbind option_bind]. change (0 =? 0) with true. cbn [negb].
    rewrite write_buffer_complete by done.
    cbn [mbind option_bind]. change (0 =? 0) with true. done.
Qed.


Lemma cli_round_trip_witness :
  ∃ fs1,
    main always_ok (λ _, true) (λ _, 1000)
      ["steg_cli"; "encode"; "cover.bmp"; "msg.txt"; "out.bmp"]
      {[ "cover.bmp" := bmp_header 8 8 24 0 ++ replicate 192 100;
         "msg.txt" := [72; 105] ]} = Some (0, fs1)
    ∧ main always_ok (λ _, true) (λ _, 1000)
        ["steg_cli"; "decode"; "out.bmp"; "out.txt"] fs1
      = Some (0, <[ "out.txt" := [72; 105] ]> fs1).
Proof.
  apply (cli_round_trip always_ok (λ _, true) (λ _, 1000)
           "steg_cli" "cover.bmp" "msg.txt" "out.bmp" "out.txt"
           {[ "cover.bmp" := bmp_header 8 8 24 0 ++ replicate 192 100;
              "msg.txt" := [72; 105] ]}
           (bmp_header 8 8 24 0 ++ replicate 192 100) [72; 105] 8 8 24 192).
  - reflexivity.
  - reflexivity.
  - refine (bool_decide_unpack _ _). vm_compute. exact I.
  - unfold bmp_file, INT_MIN, INT_MAX.
    repeat (split; [reflexivity || discriminate || (simpl; lia)|]).
    simpl. lia.
  - reflexivity.
  - repeat (constructor; [lia|]). constructor.
  - simpl. lia.
  - vm_compute. discriminate.
  - apply NoDup_distinct_used.
    assert (selected_positions
              (loaded_image (bmp_header 8 8 24 0 ++ replicate 192 100)
                 8 8 24 192)
              (take (Z.to_nat 192)
                 (drop 54 (bmp_header 8 8 24 0 ++ replicate 192 100)))
              8 5%float = seqZ 0 64) as -> by (vm_compute; reflexivity).
    apply NoDup_seqZ.
  - reflexivity.
  - simpl. lia.
  - reflexivity.
  - simpl. lia.
Defined.

(** X27: a message that does not fit.  For a well-formed cover file of
    bytes, an existing message file and granted allocations, when the
    positions selected with the window size 8 and the threshold 5.0 offer
    fewer than (4 + L) * 8 slots for the L bytes of the message, the encoding
    run exits with status 1 and leaves the file system as it was: no output
    file is created or truncated. *)
Theorem main_encode_too_large ok open_ok room prog cover msgfile out
    (fs : file_system) file message w h s z :
  (∀ n, ok n = true) →
  fs !! cover = Some file → Forall (λ b, 0 ≤ b < 256) file →
  bmp_file file w h s z →
  fs !! msgfile = Some message → Z.of_nat (length message) < 2 ^ 60 →
  3 * Z.of_nat (length (selected_positions (loaded_image file w h s z)
                          (take (Z.to_nat z) (drop 54 file)) 8 5%float))
    < (4 + Z.of_nat (length message)) * 8 →
  main ok open_ok room [prog; "encode"; cover; msgfile; out] fs
  = Some (1, fs).
Proof.
  intros Hok Hcover Hbytes Hfile Hmsgfile HL Hcap.
  set (img := loaded_image file w h s z) in *.
  set (d := take (Z.to_nat z) (drop 54 file)) in *.
  pose proof (bmp_file_valid file w h s z Hfile Hbytes) as Hv. fold img d in Hv.
  rewrite main_encode_unfold.
  rewrite (bmp_load_complete ok cover blank_image fs 0 file w h s z)
    by (done || apply Hok).
  fold img. cbn [mbind option_bind]. change (0 =? 0) with true. cbn [negb].
  rewrite (read_file_complete ok msgfile fs message 1) by (done || lia).
  change (0 =? 0) with true. cbn [negb].
  destruct (find_valid_granted ok img d 8 5%float 2 Hv) as (n1 & _ & Hfind);
    [lia|auto|].
  pose proof (selected_positions_length img d 8 5%float Hv ltac:(lia)) as Hplen.
  assert (steg_encode_message ok img (Some message)
            (Z.of_nat (length message)) 8 5%float 2 = Some (-1, img, n1)) as ->.
  { unfold steg_encode_message. destruct Hv as (-> & _).
    rewrite bool_decide_eq_false_2 by done. cbn [andb].
    rewrite Hfind. cbn [mbind option_bind]. change (0 =? 0) with true.
    cbn [negb].
    rewrite (size_t_small (Z.of_nat (length (selected_positions _ _ _ _))))
      by lia.
    rewrite (size_t_small (Z.of_nat (length (selected_positions _ _ _ _)) * 3))
      by lia.
    rewrite (size_t_small (4 + Z.of_nat (length message))) by lia.
    rewrite (size_t_small ((4 + Z.of_nat (length message)) * 8)) by lia.
    destruct (Z.ltb_spec
                (Z.of_nat (length (selected_positions img d 8 5%float)) * 3)
                ((4 + Z.of_nat (length message)) * 8)); [done|lia]. }
  reflexivity.
Qed.

Lemma main_encode_too_large_witness :
  main always_ok (λ _, true) (λ _, 1000)
    ["steg_cli"; "encode"; "cover.bmp"; "msg.txt"; "out.bmp"]
    {[ "cover.bmp" := bmp_header 8 8 24 0 ++ replicate 192 100;
       "msg.txt" := replicate 21 65 ]}
  = Some (1, {[ "cover.bmp" := bmp_header 8 8 24 0 ++ replicate 192 100;
                "msg.txt" := replicate 21 65 ]}).
Proof.
  apply (main_encode_too_large always_ok (λ _, true) (λ _, 1000)
           "steg_cli" "cover.bmp" "msg.txt" "out.bmp" _
           (bmp_header 8 8 24 0 ++ replicate 192 100) (replicate 21 65)
           8 8 24 192).
  - reflexivity.
  - reflexivity.
  - refine (bool_decide_unpack _ _). vm_compute. exact I.
  - unfold bmp_file, INT_MIN, INT_MAX.
    repeat (split; [reflexivity || discriminate || (simpl; lia)|]).
    simpl. lia.
  - reflexivity.
  - simpl. lia.
  - vm_compute. reflexivity.
Defined.

(** ** Embedding with repeated positions *)

Section EmbedLast.

Variables (img : BmpImage) (d0 : list Z) (bitstream : list Z) (total_bits : Z).
Hypothesis Hvalid : valid_image img d0.
Hypothesis Hbits : total_bits ≤ Z.of_nat (length bitstream).

Lemma embed_pixels_last positions :
  positions_inside img positions →
  ∀ bi d bi' d', 0 ≤ bi → length d = length d0 →
    for_while (bits_left total_bits)
      (λ pixel_index st,
         base ← pixel_base img pixel_index;
         for_while (bits_left total_bits) (embed_channel bitstream base)
           channels st)
      positions (bi, d) = Some (bi', d') →
    ∀ (i j : nat) p ch,
      positions !! i = Some p → channels !! j = Some ch →
      bi + 3 * Z.of_nat i + Z.of_nat j < total_bits →
      (∀ i' : nat, (i < i')%nat → positions !! i' = Some p →
         total_bits ≤ bi + 3 * Z.of_nat i' + Z.of_nat j) →
      ∃ v bit, d' !! pixel_channel img p ch = Some v
               ∧ bitstream !! Z.to_nat (bi + 3 * Z.of_nat i + Z.of_nat j)
                 = Some bit
               ∧ Z.land v 1 = Z.land bit 1.
Proof.
  induction positions as [|p0 positions IH];
    intros Hin bi d bi' d' Hbi Hlen Hloop i j p ch Hp Hj Hslot Hlast;
    [done|].
  apply Forall_cons in Hin as [Hp0 Hin]. revert Hloop.
  cbn [for_while]. unfold bits_left at 1. cbn [fst].
  destruct (Z.ltb_spec bi total_bits) as [Hlt|Hge]; [|lia].
  destruct (pixel_base_channel img d0 p0 0 Hvalid Hp0) as (base & Hbase & _);
    [lia|].
  rewrite Hbase. cbn [mbind option_bind].
  destruct (embed_channels_total img d0 bitstream total_bits Hbits p0 base
              channels) with (bi := bi) (d := d)
    as (bi1 & d1 & Hpix & Hlen1 & Hbi1 & Hcontent1); [| |done..|].
  { intros c Hc%channels_range.
    destruct (pixel_base_channel img d0 p0 c Hvalid Hp0 Hc)
      as (base' & Hbase' & ? & ?). by simplify_eq. }
  { by apply (channels_pixel_NoDup img d0). }
  specialize (Hbi1 ltac:(lia)). cbn [length channels] in Hbi1.
  rewrite Hpix. intros Hloop.
  pose proof (channels_lookup j ch Hj) as [Hchj Hch].
  destruct i as [|i].
  - injection Hp as <-.
    destruct (Hcontent1 j ch Hj) as (v & bit & Hv & Hbit & Hlsb); [lia|].
    exists v, bit. rewrite Z.mul_0_r, Z.add_0_r. split; [|done].
    apply (embed_pixels_spec img bitstream total_bits) in Hloop as [_ Hframe].
    rewrite Hframe; [done|].
    intros i' j' q base' ch' Hq Hbase' Hj' Hlt' Heq.
    eapply Forall_lookup_1 in Hin as Hqin; [|done].
    pose proof (channels_lookup j' ch' Hj') as [Hchj' Hch'].
    destruct (pixel_base_channel img d0 q ch' Hvalid Hqin Hch')
      as (base'' & Hbase'' & Hidx & _).
    assert (base'' = base') as -> by congruence.
    rewrite Hidx in Heq.
    apply (pixel_channel_inj img d0) in Heq as [<- <-]; [|done..].
    specialize (Hlast (S i') ltac:(lia) Hq). lia.
  - destruct (IH Hin bi1 d1 bi' d' ltac:(lia) Hlen1 Hloop i j p ch Hp Hj)
      as (v & bit & Hv & Hbit & Hlsb); [lia| |].
    { intros i' Hi' Hq. specialize (Hlast (S i') ltac:(lia) Hq). lia. }
    exists v, bit. split; [done|]. split; [|done].
    by replace (bi + 3 * Z.of_nat (S i) + Z.of_nat j)
      with (bi1 + 3 * Z.of_nat i + Z.of_nat j) by lia.
Qed.

End EmbedLast.

(** X28: the last writer wins.  On a valid image, for listed pixels inside
    the grid and a bit stream that holds [total_bits] bits, after
    [embed_bits] the lowest bit of a channel byte that received a bit is the
    bit of the last slot that names it: bit 3 i + j of the stream for the
    last list position [i], among those that receive a bit in channel [j],
    that names the pixel.  A bit written through an earlier occurrence of a
    repeated pixel is overwritten. *)
Theorem embed_bits_last_writer img d positions bitstream total_bits rc img' :
  valid_image img d → positions_inside img positions →
  total_bits ≤ Z.of_nat (length bitstream) →
  embed_bits img positions bitstream total_bits = Some (rc, img') →
  ∃ d', img' = set_data img d'
    ∧ ∀ (i j : nat) p ch,
        positions !! i = Some p → channels !! j = Some ch →
        3 * Z.of_nat i + Z.of_nat j < total_bits →
        (∀ i' : nat, (i < i')%nat → positions !! i' = Some p →
           total_bits ≤ 3 * Z.of_nat i' + Z.of_nat j) →
        ∃ v bit, d' !! pixel_channel img p ch = Some v
                 ∧ bitstream !! Z.to_nat (3 * Z.of_nat i + Z.of_nat j)
                   = Some bit
                 ∧ Z.land v 1 = Z.land bit 1.
Proof.
  intros Hv Hin Hbits. pose proof Hv as (Hd & _).
  unfold embed_bits. rewrite Hd. cbn [mbind option_bind].
  destruct (for_while _ _ _ _) as [[bi' d']|] eqn:Hloop;
    cbn [mbind option_bind]; [|done].
  destruct (bi' =? total_bits); [|done]. intros [= _ <-].
  exists d'. split; [done|]. intros i j p ch Hp Hj Hslot Hlast.
  apply (embed_pixels_last img d bitstream total_bits Hv Hbits positions Hin
           0 d bi' d' ltac:(lia) eq_refl Hloop i j p ch Hp Hj); [lia|].
  intros i' Hi' Hq. specialize (Hlast i' Hi' Hq). lia.
Qed.

Lemma embed_bits_last_writer_witness :
  ∃ (d' : list Z) v,
    d' !! pixel_channel (create_test_image 4 4 50 50 50) 5 2 = Some v
    ∧ Z.land v 1 = 1.
Proof.
  destruct (embed_bits_last_writer (create_test_image 4 4 50 50 50)
              (replicate 48 50) [5; 6; 5] [0; 0; 0; 0; 0; 0; 1; 1; 1] 9 0
              (set_data (create_test_image 4 4 50 50 50)
                 (<[15%nat := 51]> (<[16%nat := 51]> (<[17%nat := 51]>
                    (replicate 48 50))))))
    as (d' & Himg & Hlast).
  - apply valid_test_image_4x4.
  - unfold positions_inside.
    change (width (create_test_image 4 4 50 50 50)) with 4.
    change (height (create_test_image 4 4 50 50 50)) with 4.
    repeat (constructor; [cbv beta; lia|]). constructor.
  - simpl. lia.
  - vm_compute. reflexivity.
  - destruct (Hlast 2%nat 0%nat 5 2) as (v & bit & Hv & Hbit & Hlsb).
    + reflexivity.
    + reflexivity.
    + simpl. lia.
    + intros i' Hi' Hq. lia.
    + injection Hbit as <-. exists d', v. split; [exact Hv|exact Hlsb].
Defined.

(** ** Decoding an image that holds no message *)

(** X29: [steg_decode_message] cannot tell whether an image holds a message.
    On a valid image with granted allocations whose selected positions offer
    at least 32 slots, if the lowest bits in the first 32 slots are all 0
    (as in an image whose bytes are all even), it returns 0 with an empty
    message of length 0: the first 32 bits are taken as the length without
    any check. *)
Theorem decode_zero_header ok img d k t n :
  valid_image img d → 0 < k →
  (∀ m, (n ≤ m)%nat → ok m = true) →
  32 ≤ 3 * Z.of_nat (length (selected_positions img d k t)) →
  take 32 (lsb_stream img d (selected_positions img d k t)) = replicate 32 0 →
  ∃ n', steg_decode_message ok img k t n = Some (0, Some [], 0, n').
Proof.
  intros Hv Hk Hok Hcap Hzero. pose proof Hv as (Hd & _).
  destruct (find_valid_granted ok img d k t n Hv Hk Hok) as (n1 & Hn1 & Hfind).
  pose proof (selected_positions_length img d k t Hv Hk) as Hplen.
  pose proof (selected_positions_inside img d k t Hv Hk) as Hinside.
  set (ps := selected_positions img d k t) in *.
  exists (S (S n1)). unfold steg_decode_message. rewrite Hd, Hfind.
  cbn [mbind option_bind]. change (0 =? 0) with true. cbn [negb].
  rewrite (size_t_small (Z.of_nat (length ps))) by lia.
  rewrite (size_t_small (Z.of_nat (length ps) * 3)) by lia.
  destruct (Z.ltb_spec (Z.of_nat (length ps) * 3) 32); [lia|].
  rewrite (extract_bits_spec img d 32 Hv ps Hinside) by lia.
  change (Z.to_nat 32) with 32%nat. rewrite Hzero.
  cbn [mbind option_bind]. change (0 =? 0) with true. cbn [negb].
  change (read_bytes (replicate 32 0) 4 0) with (Some ([0; 0; 0; 0], 32)).
  cbn [mbind option_bind lookup list_lookup].
  change (Z.lor (Z.lor (Z.lor (Z.lor 0 0) (u32 (Z.shiftl 0 8)))
                   (u32 (Z.shiftl 0 16))) (u32 (Z.shiftl 0 24))) with 0.
  change (size_t (size_t (4 + 0) * 8)) with 32.
  destruct (Z.ltb_spec (Z.of_nat (length ps) * 3) 32); [lia|].
  rewrite Hok by lia. cbn [negb].
  rewrite (extract_bits_spec img d 32 Hv ps Hinside) by lia.
  change (Z.to_nat 32) with 32%nat. rewrite Hzero.
  cbn [mbind option_bind]. change (0 =? 0) with true. cbn [negb].
  rewrite Hok by lia. cbn [negb]. reflexivity.
Qed.

Lemma decode_zero_header_witness :
  ∃ n', steg_decode_message always_ok (create_test_image 4 4 50 50 50)
          4 1%float 0 = Some (0, Some [], 0, n').
Proof.
  apply (decode_zero_header always_ok (create_test_image 4 4 50 50 50)
           (replicate 48 50)).
  - apply valid_test_image_4x4.
  - lia.
  - reflexivity.
  - vm_compute. discriminate.
  - vm_compute. reflexivity.
Defined.
